(** * Principia, ksp_plugin: the scheduler core ([Plugin])

    A shallow embedding of [ksp_plugin/plugin.cpp] and of the classes it
    drives.  An instant is a binary64 number of seconds, held as the whole
    number of 2^-1074 s that it is, and the one sum the plugin computes on
    instants, [HistoryTime() + Δt_], is rounded as binary64 rounds it.
    Lengths, speeds and angles are real numbers: what is said of
    coordinates is said of the maps the code computes, before rounding
    (module [rounded] has the conversions as the code rounds them).  A
    failed [CHECK] aborts the process: every operation returns an
    [option], [None] standing for the fatal assertion.  Objects owned by the
    two [std::map]s of the plugin are named by their key, so that a
    [Vessel*] is a [GUID] and a [Celestial const*] is an [Index]. *)

From Stdlib Require Import Reals Lra Floats.
From stdpp Require Import gmap strings list fin_maps sorting.

Set Warnings "-clear-no-such-hyp".

Local Open Scope Z_scope.

(** ** geometry *)

Module geometry.

(** A triple of coordinates; the frame tag of the C++ types is a phantom
    parameter and is erased. *)
Record R3 : Type := mkR3 { x : R; y : R; z : R }.

Definition zero : R3 := mkR3 0%R 0%R 0%R.
Definition add (u v : R3) : R3 :=
  mkR3 (x u + x v)%R (y u + y v)%R (z u + z v)%R.
Definition sub (u v : R3) : R3 :=
  mkR3 (x u - x v)%R (y u - y v)%R (z u - z v)%R.

(** Modelled from the spec: [geometry/permutation.hpp] is not part of the
    sources; a [Permutation] reorders the three coordinates, [XZY] being the
    y↔z swap between the left-handed and the right-handed bases. *)
Inductive CoordinatePermutation : Type := XYZ | YZX | ZXY | XZY | ZYX | YXZ.

Record Permutation : Type :=
  mkPermutation { coordinate_permutation : CoordinatePermutation }.

Definition Permutation_apply (σ : Permutation) (v : R3) : R3 :=
  match coordinate_permutation σ with
  | XYZ => mkR3 (x v) (y v) (z v)
  | YZX => mkR3 (y v) (z v) (x v)
  | ZXY => mkR3 (z v) (x v) (y v)
  | XZY => mkR3 (x v) (z v) (y v)
  | ZYX => mkR3 (z v) (y v) (x v)
  | YXZ => mkR3 (y v) (x v) (z v)
  end.

Definition Permutation_Inverse (σ : Permutation) : Permutation :=
  mkPermutation
    match coordinate_permutation σ with
    | YZX => ZXY
    | ZXY => YZX
    | π => π
    end.

(** Modelled from the spec: [geometry/rotation.hpp] is not part of the
    sources.  The plugin only builds rotations about the bivector
    [{0, 1, 0}], so a [Rotation] is the angle of a rotation about the y
    axis. *)
Record Rotation : Type := mkRotation { rotation_angle : R }.

Definition Rotation_Identity : Rotation := mkRotation 0.
Definition Rotation_Inverse (r : Rotation) : Rotation :=
  mkRotation (- rotation_angle r).
Definition Rotation_compose (r s : Rotation) : Rotation :=
  mkRotation (rotation_angle r + rotation_angle s).
Definition Rotation_apply (r : Rotation) (v : R3) : R3 :=
  let c := cos (rotation_angle r) in
  let s := sin (rotation_angle r) in
  mkR3 (c * x v + s * z v)%R (y v) (c * z v - s * x v)%R.

(** [AffineMap(from_origin, to_origin, linear_map)] sends [p] to
    [linear_map(p - from_origin) + to_origin]. *)
Record AffineMap : Type :=
  mkAffineMap { from_origin : R3; to_origin : R3; linear_map : Rotation }.

Definition AffineMap_apply (f : AffineMap) (p : R3) : R3 :=
  add (Rotation_apply (linear_map f) (sub p (from_origin f))) (to_origin f).

End geometry.

(** ** physics *)

Module physics.

(** Modelled from the spec: [geometry/point.hpp] and
    [quantities/quantities.hpp] are not part of the sources.  An [Instant]
    is a binary64 number of seconds since the epoch (the instants are the
    universal time doubles of the host, [ksp_plugin/frames.hpp]) and a
    [Time] a binary64 number of seconds.  Every finite binary64 number is
    a whole number of 2^-1074 s, the least positive one: an instant and a
    time are held as that whole number, so that instants that are not
    whole seconds can be written, the order of the instants is that of
    [Z], and the sum of an instant and a time, which the code rounds, is
    [Instant_plus].  2^2098 stands for +∞ and its opposite for -∞; no
    instant is a NaN. *)
Abbreviation Instant := Z (only parsing).
Abbreviation Time := Z (only parsing).

(** [si::Second]. *)
Definition Second : Time := 2 ^ 1074.

(** The binary64 number that a real number rounds to, to nearest and ties
    to even: below 2^53 every whole number of 2^-1074 s is a binary64
    number (subnormals and the first binade); above, the 53 leading bits
    are kept; what rounds beyond the greatest finite number is infinite. *)
Definition binary64 (n : Z) : Z :=
  let a := Z.abs n in
  if bool_decide (a < 2 ^ 53) then n
  else
    let e := Z.log2 a - 52 in
    let q := a / 2 ^ e in
    let r := a mod 2 ^ e in
    let q :=
      if bool_decide (2 * r < 2 ^ e)
         || (bool_decide (2 * r = 2 ^ e) && Z.even q)
      then q else q + 1 in
    Z.sgn n * Z.min (q * 2 ^ e) (2 ^ 2098).

(** [instant + time], in binary64. *)
Definition Instant_plus (t : Instant) (Δt : Time) : Instant :=
  binary64 (t + Δt).

(** The instant, or the time, that a finite [double] of seconds is. *)
Definition of_double (seconds : float) : Z :=
  match Prim2SF seconds with
  | SpecFloat.S754_finite sign mantissa exponent =>
      (if sign then -1 else 1) * Z.pos mantissa * 2 ^ (exponent + 1074)
  | _ => 0
  end.

Record DegreesOfFreedom : Type :=
  mkDegreesOfFreedom { position : geometry.R3; velocity : geometry.R3 }.

Record RelativeDegreesOfFreedom : Type :=
  mkRelativeDegreesOfFreedom
    { displacement : geometry.R3; relative_velocity : geometry.R3 }.

(** [degrees_of_freedom + relative] and [a - b] of
    [physics/degrees_of_freedom.hpp]. *)
Definition dof_plus (d : DegreesOfFreedom) (r : RelativeDegreesOfFreedom)
  : DegreesOfFreedom :=
  mkDegreesOfFreedom (geometry.add (position d) (displacement r))
                     (geometry.add (velocity d) (relative_velocity r)).

Definition dof_minus (a b : DegreesOfFreedom) : RelativeDegreesOfFreedom :=
  mkRelativeDegreesOfFreedom (geometry.sub (position a) (position b))
                             (geometry.sub (velocity a) (velocity b)).

(** A linear map acts on the displacement and on the velocity. *)
Definition map_relative (f : geometry.R3 → geometry.R3)
    (r : RelativeDegreesOfFreedom) : RelativeDegreesOfFreedom :=
  mkRelativeDegreesOfFreedom (f (displacement r)) (f (relative_velocity r)).

(** [physics/massive_body.hpp]: a massive body is its gravitational
    parameter. *)
Record MassiveBody : Type :=
  mkMassiveBody { gravitational_parameter : R }.

Inductive Body : Type :=
  | Massless
  | Massive (b : MassiveBody).

(** Modelled from the spec: [physics/trajectory.hpp] is not part of the
    sources.  A trajectory owns the timeline of its own samples; a fork
    inherits the value of its parent at the fork time ([fork_point]) and
    extends forward from there.  Only what the plugin reads of a fork is
    kept: its fork point and its own timeline. *)
Record Trajectory : Type :=
  mkTrajectory
    { fork_point : option (Instant * DegreesOfFreedom);
      timeline : list (Instant * DegreesOfFreedom) }.

(** [new(body)]: an empty root. *)
Definition Trajectory_new : Trajectory := mkTrajectory None [].

(** [last()]: the last sample of the effective timeline. *)
Definition Trajectory_last (τ : Trajectory)
  : option (Instant * DegreesOfFreedom) :=
  match last (timeline τ) with
  | Some s => Some s
  | None => fork_point τ
  end.

(** [append(t, dof)]: [t] must be strictly greater than [last().time];
    fails otherwise. *)
Definition Append (t : Instant) (d : DegreesOfFreedom) (τ : Trajectory)
  : option Trajectory :=
  match Trajectory_last τ with
  | Some (t', _) =>
      if bool_decide (t' < t)
      then Some (mkTrajectory (fork_point τ) (timeline τ ++ [(t, d)]))
      else None
  | None => Some (mkTrajectory (fork_point τ) (timeline τ ++ [(t, d)]))
  end.

(** [find(t)]: the sample of the effective timeline at [t], if any. *)
Definition Trajectory_find (t : Instant) (τ : Trajectory)
  : option DegreesOfFreedom :=
  match list_find (λ s, s.1 = t) (timeline τ) with
  | Some (_, s) => Some s.2
  | None =>
      match fork_point τ with
      | Some (t', d) => if bool_decide (t' = t) then Some d else None
      | None => None
      end
  end.

(** [fork(t)]: [t] must equal some sample time in the effective timeline. *)
Definition Fork (t : Instant) (τ : Trajectory) : option Trajectory :=
  d ← Trajectory_find t τ;
  Some (mkTrajectory (Some (t, d)) []).

(** The numerical side of the engine, which no decision of the scheduler
    reads: the state the integrator reaches, and the centre of mass and the
    offsets the physics bubble computes from the parts of the next tick. *)
Class Numerics : Type :=
  { (** [flow initial t0 t Δt i]: the degrees of freedom of the [i]-th body at
        [t], integrated from [initial] at [t0] with step [Δt]. *)
    flow : list (Body * DegreesOfFreedom) → Instant → Instant → Time → nat →
           DegreesOfFreedom }.

(** Modelled from the spec: the steps the integrator completes and the
    instants whose state it emits.  It advances in steps of exactly [Δt];
    with an exact endpoint one final step of length [tmax - t] completes the
    run, otherwise it stops at the last full step.  With
    [sampling_period = 0] only the final state is emitted, otherwise every
    [sampling_period]-th completed step. *)
Definition final_instant (t0 tmax : Instant) (Δt : Time) (tmax_is_exact : bool)
  : Instant :=
  if tmax_is_exact then tmax else t0 + (tmax - t0) / Δt * Δt.

Definition completed_steps (t0 tmax : Instant) (Δt : Time)
    (tmax_is_exact : bool) : list Instant :=
  let n := Z.to_nat ((tmax - t0) / Δt) in
  let full := (λ j : nat, t0 + Z.of_nat (S j) * Δt) <$> seq 0 n in
  if tmax_is_exact && bool_decide (t0 + Z.of_nat n * Δt < tmax)
  then full ++ [tmax] else full.

Definition emitted_instants (t0 tmax : Instant) (Δt : Time)
    (sampling_period : nat) (tmax_is_exact : bool) : list Instant :=
  match sampling_period with
  | O => [final_instant t0 tmax Δt tmax_is_exact]
  | S _ =>
      snd <$> List.filter
                (λ jt : nat * Instant,
                   bool_decide ((S jt.1 `mod` sampling_period)%nat = O))
                (imap pair (completed_steps t0 tmax Δt tmax_is_exact))
  end.

(** Modelled from the spec: [physics/transforms_body.hpp] is not part of
    the sources.  A [Transforms] holds the two transforms; its iterators
    apply them to each sample of a trajectory in turn, keeping the time. *)
Record Transforms : Type :=
  mkTransforms
    { first_ : Instant → DegreesOfFreedom → DegreesOfFreedom;
      second_ : Instant → DegreesOfFreedom → DegreesOfFreedom }.

(** The effective timeline a root trajectory iterates over. *)
Definition samples (τ : Trajectory) : list (Instant * DegreesOfFreedom) :=
  match fork_point τ with
  | Some s => s :: timeline τ
  | None => timeline τ
  end.

Definition Transforms_first (transforms : Transforms) (τ : Trajectory)
  : list (Instant * DegreesOfFreedom) :=
  (λ s, (s.1, first_ transforms s.1 s.2)) <$> samples τ.

Definition Transforms_second (transforms : Transforms) (τ : Trajectory)
  : list (Instant * DegreesOfFreedom) :=
  (λ s, (s.1, second_ transforms s.1 s.2)) <$> samples τ.

End physics.

(** ** ksp_plugin *)

Module ksp_plugin.

Export physics.

(** The GUID of a vessel and the index of a body, the keys of the two
    [std::map]s. *)
Abbreviation GUID := string (only parsing).
Abbreviation Index := Z (only parsing).
Abbreviation Angle := R (only parsing).

(** [CHECK(condition)]: a fatal assertion. *)
Definition CHECK (condition : bool) : option unit :=
  if condition then Some () else None.

(** A loop whose body may hit a fatal assertion. *)
Fixpoint foldlM {A B : Type} (f : A → B → option A) (a : A) (l : list B)
  : option A :=
  match l with
  | [] => Some a
  | b :: l => a' ← f a b; foldlM f a' l
  end.

(** The map between the vector spaces of [WorldSun] and [AliceSun]. *)
Definition kSunLookingGlass : geometry.Permutation :=
  geometry.mkPermutation geometry.XZY.

(** *** [Celestial] ([ksp_plugin/celestial.hpp]) *)

Module Celestial.

Record t : Type :=
  mk { body_ : MassiveBody;
       parent_ : option Index;
       history_ : option Trajectory;
       prolongation_ : option Trajectory }.

Definition new (body : MassiveBody) : t := mk body None None None.

Definition is_initialized (c : t) : bool := bool_decide (is_Some (history_ c)).
Definition has_parent (c : t) : bool := bool_decide (is_Some (parent_ c)).
Definition parent (c : t) : option Index := parent_ c.
Definition set_parent (parent : Index) (c : t) : t :=
  mk (body_ c) (Some parent) (history_ c) (prolongation_ c).

(** Both accessors require [is_initialized()]. *)
Definition history (c : t) : option Trajectory := history_ c.
Definition prolongation (c : t) : option Trajectory :=
  CHECK (is_initialized c);; prolongation_ c.

Definition set_history (τ : Trajectory) (c : t) : t :=
  mk (body_ c) (parent_ c) (Some τ) (prolongation_ c).
Definition set_prolongation (τ : Trajectory) (c : t) : t :=
  mk (body_ c) (parent_ c) (history_ c) (Some τ).

(** Creates a [history_] for this body and appends a point with the given
    [time] and [degrees_of_freedom].  Then forks a [prolongation_] at
    [time]. *)
Definition CreateHistoryAndForkProlongation (time : Instant)
    (degrees_of_freedom : DegreesOfFreedom) (c : t) : option t :=
  history ← Append time degrees_of_freedom Trajectory_new;
  prolongation ← Fork time history;
  Some (mk (body_ c) (parent_ c) (Some history) (Some prolongation)).

(** Deletes the [prolongation_] and forks a new one at [time]. *)
Definition ResetProlongation (time : Instant) (c : t) : option t :=
  history ← history_ c;
  _ ← prolongation_ c;
  prolongation ← Fork time history;
  Some (mk (body_ c) (parent_ c) (Some history) (Some prolongation)).

End Celestial.

(** *** [Vessel] *)

Module Vessel.

(** Modelled from the spec: [ksp_plugin/vessel.hpp] is not part of the
    sources.  A vessel owns a parent celestial link and may be
    uninitialized (no trajectory), unsynchronized (prolongation only, no
    history yet), or synchronized (both history and prolongation present,
    the prolongation forked off the history). *)
Inductive trajectories : Type :=
  | Uninitialized
  | Unsynchronized (owned_prolongation : Trajectory)
  | Synchronized (history prolongation : Trajectory).

Record t : Type := mk { parent_ : Index; trajectories_ : trajectories }.

Definition new (parent : Index) : t := mk parent Uninitialized.

Definition is_initialized (v : t) : bool :=
  match trajectories_ v with Uninitialized => false | _ => true end.
Definition is_synchronized (v : t) : bool :=
  match trajectories_ v with Synchronized _ _ => true | _ => false end.

Definition parent (v : t) : Index := parent_ v.
Definition set_parent (parent : Index) (v : t) : t :=
  mk parent (trajectories_ v).

(** [history()] requires [is_synchronized()], [prolongation()] requires
    [is_initialized()]. *)
Definition history (v : t) : option Trajectory :=
  match trajectories_ v with Synchronized h _ => Some h | _ => None end.
Definition prolongation (v : t) : option Trajectory :=
  match trajectories_ v with
  | Uninitialized => None
  | Unsynchronized p => Some p
  | Synchronized _ p => Some p
  end.

Definition set_history (τ : Trajectory) (v : t) : option t :=
  match trajectories_ v with
  | Synchronized _ p => Some (mk (parent_ v) (Synchronized τ p))
  | _ => None
  end.
Definition set_prolongation (τ : Trajectory) (v : t) : option t :=
  match trajectories_ v with
  | Uninitialized => None
  | Unsynchronized _ => Some (mk (parent_ v) (Unsynchronized τ))
  | Synchronized h _ => Some (mk (parent_ v) (Synchronized h τ))
  end.

(** Creates an owned prolongation with one point; the vessel must not be
    initialized. *)
Definition CreateProlongation (time : Instant)
    (degrees_of_freedom : DegreesOfFreedom) (v : t) : option t :=
  CHECK (negb (is_initialized v));;
  prolongation ← Append time degrees_of_freedom Trajectory_new;
  Some (mk (parent_ v) (Unsynchronized prolongation)).

(** Creates a history with one point and forks the prolongation there; the
    vessel must not be synchronized. *)
Definition CreateHistoryAndForkProlongation (time : Instant)
    (degrees_of_freedom : DegreesOfFreedom) (v : t) : option t :=
  CHECK (negb (is_synchronized v));;
  history ← Append time degrees_of_freedom Trajectory_new;
  prolongation ← Fork time history;
  Some (mk (parent_ v) (Synchronized history prolongation)).

(** Deletes the prolongation and forks a new one at [time]; the vessel must
    be synchronized. *)
Definition ResetProlongation (time : Instant) (v : t) : option t :=
  history ← history v;
  prolongation ← Fork time history;
  Some (mk (parent_ v) (Synchronized history prolongation)).

End Vessel.

(** *** [PhysicsBubble] *)

Module PhysicsBubble.

(** Modelled from the spec: [ksp_plugin/physics_bubble.hpp] and
    [ksp_plugin/part.hpp] are not part of the sources.  A part has a mass
    and a position and velocity in the world frame of the host. *)
Record Part : Type := mkPart { mass : R; degrees_of_freedom : DegreesOfFreedom }.

Abbreviation PartId := Z (only parsing).
Abbreviation IdAndOwnedPart := (Z * Part)%type (only parsing).

(** A snapshot of the bubble: the parts of each of its vessels and, once
    the snapshot is the current one, the offset of each vessel from the
    centre of mass and the trajectory of the centre of mass. *)
Record State : Type :=
  mkState
    { vessels_ : gmap GUID (list IdAndOwnedPart);
      from_centre_of_mass_ : gmap GUID RelativeDegreesOfFreedom;
      centre_of_mass_trajectory_ : option Trajectory }.

(** Two snapshots are kept: [current_] (consistent with the last advance)
    and [next_] (being assembled by the host calls of this tick). *)
Record t : Type := mk { current_ : option State; next_ : option State }.

Definition new : t := mk None None.

(** What the bubble computes from the parts of the next tick: the centre of
    mass in [Barycentric] and the offset of each vessel from it. *)
Class Numerics : Type :=
  { next_centre_of_mass :
      geometry.Rotation → Instant → Instant → gmap GUID Vessel.t →
      option State → gmap GUID (list IdAndOwnedPart) → DegreesOfFreedom;
    next_from_centre_of_mass :
      geometry.Rotation → Instant → Instant → gmap GUID Vessel.t →
      option State → gmap GUID (list IdAndOwnedPart) → GUID →
      RelativeDegreesOfFreedom }.

Definition empty (b : t) : bool := bool_decide (current_ b = None).
Definition size (b : t) : nat := if empty b then 0%nat else 1%nat.
Definition vessels (b : t) : list GUID :=
  match current_ b with
  | Some s => (map_to_list (vessels_ s)).*1
  | None => []
  end.
Definition number_of_vessels (b : t) : nat := length (vessels b).
Definition contains (vessel : GUID) (b : t) : bool :=
  match current_ b with
  | Some s => bool_decide (vessel ∈ dom (vessels_ s))
  | None => false
  end.
Definition from_centre_of_mass (vessel : GUID) (b : t)
  : option RelativeDegreesOfFreedom :=
  s ← current_ b; from_centre_of_mass_ s !! vessel.
Definition centre_of_mass_trajectory (b : t) : option Trajectory :=
  s ← current_ b; centre_of_mass_trajectory_ s.
Definition set_centre_of_mass_trajectory (τ : Trajectory) (b : t) : option t :=
  s ← current_ b;
  Some (mk (Some (mkState (vessels_ s) (from_centre_of_mass_ s) (Some τ)))
           (next_ b)).

(** Adds the vessel and its parts to [next_], created if it is null; the
    vessel must not be there already. *)
Definition AddVesselToNext (vessel : GUID) (parts : list IdAndOwnedPart)
    (b : t) : option t :=
  let next := default (mkState ∅ ∅ None) (next_ b) in
  CHECK (bool_decide (vessels_ next !! vessel = None));;
  Some (mk (current_ b)
           (Some (mkState (<[vessel := parts]> (vessels_ next)) ∅ None))).

(** Swaps [next_] into [current_], computes the aggregate centre of mass in
    [Barycentric] and appends it to the centre-of-mass trajectory of the
    bubble at [current_time]. *)
Definition Prepare `{Numerics} (vessels : gmap GUID Vessel.t)
    (PlanetariumRotation : geometry.Rotation)
    (current_time next_time : Instant) (b : t) : option t :=
  match next_ b with
  | None => Some (mk None None)
  | Some next =>
      let centre_of_mass :=
        next_centre_of_mass PlanetariumRotation current_time next_time
                            vessels (current_ b) (vessels_ next) in
      let offsets :=
        map_imap
          (λ vessel _,
             Some (next_from_centre_of_mass PlanetariumRotation current_time
                     next_time vessels (current_ b) (vessels_ next) vessel))
          (vessels_ next) in
      τ ← Append current_time centre_of_mass Trajectory_new;
      Some (mk (Some (mkState (vessels_ next) offsets (Some τ))) None)
  end.

End PhysicsBubble.

(** *** [Plugin] ([ksp_plugin/plugin.hpp], [ksp_plugin/plugin.cpp]) *)

Record Plugin : Type :=
  mkPlugin
    { vessels_ : gmap GUID Vessel.t;
      celestials_ : gmap Index Celestial.t;
      (** The vessels which have been inserted after [HistoryTime()]. *)
      unsynchronized_vessels_ : gset GUID;
      (** The vessels that have been added to the physics bubble after
          [HistoryTime()]. *)
      dirty_vessels_ : gset GUID;
      (** The vessels that will be kept during the next call to
          [AdvanceTime]. *)
      kept_vessels_ : gset GUID;
      bubble_ : PhysicsBubble.t;
      (** Whether initialization is ongoing (a [Monostable]). *)
      initializing_ : bool;
      planetarium_rotation_ : Angle;
      (** The current in-game universal time. *)
      current_time_ : Instant;
      sun_ : Index }.

(** Constant time step for now. *)
Definition Δt_ : Time := 10 * Second.

Definition set_vessels (vessels : gmap GUID Vessel.t) (p : Plugin) : Plugin :=
  mkPlugin vessels (celestials_ p) (unsynchronized_vessels_ p)
           (dirty_vessels_ p) (kept_vessels_ p) (bubble_ p) (initializing_ p)
           (planetarium_rotation_ p) (current_time_ p) (sun_ p).
Definition set_celestials (celestials : gmap Index Celestial.t) (p : Plugin)
  : Plugin :=
  mkPlugin (vessels_ p) celestials (unsynchronized_vessels_ p)
           (dirty_vessels_ p) (kept_vessels_ p) (bubble_ p) (initializing_ p)
           (planetarium_rotation_ p) (current_time_ p) (sun_ p).
Definition set_unsynchronized_vessels (vessels : gset GUID) (p : Plugin)
  : Plugin :=
  mkPlugin (vessels_ p) (celestials_ p) vessels
           (dirty_vessels_ p) (kept_vessels_ p) (bubble_ p) (initializing_ p)
           (planetarium_rotation_ p) (current_time_ p) (sun_ p).
Definition set_dirty_vessels (vessels : gset GUID) (p : Plugin) : Plugin :=
  mkPlugin (vessels_ p) (celestials_ p) (unsynchronized_vessels_ p)
           vessels (kept_vessels_ p) (bubble_ p) (initializing_ p)
           (planetarium_rotation_ p) (current_time_ p) (sun_ p).
Definition set_kept_vessels (vessels : gset GUID) (p : Plugin) : Plugin :=
  mkPlugin (vessels_ p) (celestials_ p) (unsynchronized_vessels_ p)
           (dirty_vessels_ p) vessels (bubble_ p) (initializing_ p)
           (planetarium_rotation_ p) (current_time_ p) (sun_ p).
Definition set_bubble (bubble : PhysicsBubble.t) (p : Plugin) : Plugin :=
  mkPlugin (vessels_ p) (celestials_ p) (unsynchronized_vessels_ p)
           (dirty_vessels_ p) (kept_vessels_ p) bubble (initializing_ p)
           (planetarium_rotation_ p) (current_time_ p) (sun_ p).

(** The trajectories the plugin hands to the integrator, named by their
    owner: what [celestial->mutable_history()] and its like point to. *)
Inductive TrajectoryRef : Type :=
  | celestial_history (index : Index)
  | celestial_prolongation (index : Index)
  | vessel_history (guid : GUID)
  | vessel_prolongation (guid : GUID)
  | bubble_centre_of_mass_trajectory.

Definition deref (p : Plugin) (ref : TrajectoryRef)
  : option (Body * Trajectory) :=
  match ref with
  | celestial_history i =>
      c ← celestials_ p !! i; τ ← Celestial.history c;
      Some (Massive (Celestial.body_ c), τ)
  | celestial_prolongation i =>
      c ← celestials_ p !! i; τ ← Celestial.prolongation c;
      Some (Massive (Celestial.body_ c), τ)
  | vessel_history g =>
      v ← vessels_ p !! g; τ ← Vessel.history v; Some (Massless, τ)
  | vessel_prolongation g =>
      v ← vessels_ p !! g; τ ← Vessel.prolongation v; Some (Massless, τ)
  | bubble_centre_of_mass_trajectory =>
      τ ← PhysicsBubble.centre_of_mass_trajectory (bubble_ p);
      Some (Massless, τ)
  end.

Definition assign (ref : TrajectoryRef) (τ : Trajectory) (p : Plugin)
  : option Plugin :=
  match ref with
  | celestial_history i =>
      c ← celestials_ p !! i;
      Some (set_celestials
              (<[i := Celestial.set_history τ c]> (celestials_ p)) p)
  | celestial_prolongation i =>
      c ← celestials_ p !! i;
      Some (set_celestials
              (<[i := Celestial.set_prolongation τ c]> (celestials_ p)) p)
  | vessel_history g =>
      v ← vessels_ p !! g; v' ← Vessel.set_history τ v;
      Some (set_vessels (<[g := v']> (vessels_ p)) p)
  | vessel_prolongation g =>
      v ← vessels_ p !! g; v' ← Vessel.set_prolongation τ v;
      Some (set_vessels (<[g := v']> (vessels_ p)) p)
  | bubble_centre_of_mass_trajectory =>
      b ← PhysicsBubble.set_centre_of_mass_trajectory τ (bubble_ p);
      Some (set_bubble b p)
  end.

(** [trajectory->Append(time, degrees_of_freedom)] through a pointer. *)
Definition Append_at (ref : TrajectoryRef) (time : Instant)
    (degrees_of_freedom : DegreesOfFreedom) (p : Plugin) : option Plugin :=
  bτ ← deref p ref;
  τ ← Append time degrees_of_freedom bτ.2;
  assign ref τ p.

(** Modelled from the spec: [physics/n_body_system.hpp] is not part of the
    sources.  [Integrate] starts from the last point of the trajectories
    (the time is that of the first one), validates its arguments ([Δt > 0],
    [tmax ≥ t0]) and writes every emitted state back into each trajectory
    with [Append], all trajectories receiving the same instant before the
    next one is written. *)
Definition Integrate `{physics.Numerics} (tmax : Instant) (Δt : Time)
    (sampling_period : nat) (tmax_is_exact : bool)
    (trajectories : list TrajectoryRef) (p : Plugin) : option Plugin :=
  bodies_trajectories ← mapM (deref p) trajectories;
  lasts ← mapM (λ bτ : Body * Trajectory, Trajectory_last bτ.2)
               bodies_trajectories;
  match lasts with
  | [] => Some p
  | (t0, _) :: _ =>
      CHECK (bool_decide (0 < Δt) && bool_decide (t0 ≤ tmax));;
      let initial := zip bodies_trajectories.*1 lasts.*2 in
      foldlM
        (λ p t,
           foldlM
             (λ p (iref : nat * TrajectoryRef),
                Append_at iref.2 t (flow initial t0 t Δt iref.1) p)
             p (imap pair trajectories))
        p (emitted_instants t0 tmax Δt sampling_period tmax_is_exact)
  end.

Definition current_time (p : Plugin) : Instant := current_time_ p.

Definition has_dirty_vessels (p : Plugin) : bool :=
  negb (bool_decide (dirty_vessels_ p = ∅)).
Definition has_unsynchronized_vessels (p : Plugin) : bool :=
  negb (bool_decide (unsynchronized_vessels_ p = ∅)).
Definition is_dirty (vessel : GUID) (p : Plugin) : bool :=
  bool_decide (vessel ∈ dirty_vessels_ p).

(** The map between the vector spaces of [Barycentric] and [WorldSun] at
    [current_time_]. *)
Definition PlanetariumRotation (p : Plugin) : geometry.Rotation :=
  geometry.mkRotation (planetarium_rotation_ p).

(** The common last time of the histories of synchronized vessels and
    celestials. *)
Definition HistoryTime (p : Plugin) : option Instant :=
  sun ← celestials_ p !! sun_ p;
  history ← Celestial.history sun;
  last ← Trajectory_last history;
  Some last.1.

Definition find_vessel_by_guid_or_die (vessel_guid : GUID) (p : Plugin)
  : option Vessel.t :=
  vessels_ p !! vessel_guid.

Definition CheckVesselInvariants (guid : GUID) (vessel : Vessel.t)
    (p : Plugin) : option unit :=
  CHECK (Vessel.is_initialized vessel);;
  prolongation ← Vessel.prolongation vessel;
  last ← Trajectory_last prolongation;
  history_time ← HistoryTime p;
  CHECK (bool_decide (history_time ≤ last.1));;
  if bool_decide (guid ∈ unsynchronized_vessels_ p) then
    CHECK (negb (Vessel.is_synchronized vessel))
  else
    CHECK (Vessel.is_synchronized vessel);;
    history ← Vessel.history vessel;
    last ← Trajectory_last history;
    CHECK (bool_decide (last.1 = history_time)).

(** One turn of the loop of [CleanUpVessels], at the vessel [it] points
    to. *)
Definition CleanUpVessels_body (p : Plugin) (it : GUID * Vessel.t)
  : option Plugin :=
  (* While we're going over the vessels, check invariants. *)
  CheckVesselInvariants it.1 it.2 p;;
  let vessel := it.1 in
  (* Now do the cleanup. *)
  if bool_decide (vessel ∈ kept_vessels_ p) then
    Some (set_kept_vessels (kept_vessels_ p ∖ {[vessel]}) p)
  else
    Some (set_vessels (delete vessel (vessels_ p))
            (set_dirty_vessels (dirty_vessels_ p ∖ {[vessel]})
               (set_unsynchronized_vessels
                  (unsynchronized_vessels_ p ∖ {[vessel]}) p))).

(** Remove vessels not in [kept_vessels_], and clears [kept_vessels_]. *)
Definition CleanUpVessels (p : Plugin) : option Plugin :=
  foldlM CleanUpVessels_body p (map_to_list (vessels_ p)).

Section WithNumerics.

Context `{physics.Numerics} `{PhysicsBubble.Numerics}.

(** Evolves the histories of the [celestials_] and of the synchronized
    vessels up to at most [t]. *)
Definition EvolveHistories (t : Instant) (p : Plugin) : option Plugin :=
  (* Integration with a constant step. *)
  let trajectories :=
    (λ pair : Index * Celestial.t, celestial_history pair.1)
      <$> map_to_list (celestials_ p) in
  let trajectories :=
    trajectories ++
    ((λ pair : GUID * Vessel.t, vessel_history pair.1)
       <$> List.filter
             (λ pair : GUID * Vessel.t,
                Vessel.is_synchronized pair.2 &&
                negb (PhysicsBubble.contains pair.1 (bubble_ p)) &&
                negb (is_dirty pair.1 p))
             (map_to_list (vessels_ p))) in
  p ← Integrate t Δt_ 0 false trajectories p;
  history_time ← HistoryTime p;
  CHECK (bool_decide (current_time_ p ≤ history_time));;
  Some p.

(** Called from [SynchronizeNewVesselsAndCleanDirtyVessels()], prolongs the
    histories of the vessels in the physics bubble (the integration must
    already have been done).  Any new vessels in the physics bubble are
    synchronized and removed from [unsynchronized_vessels_]. *)
Definition SynchronizeBubbleHistories (p : Plugin) : option Plugin :=
  trajectory ← PhysicsBubble.centre_of_mass_trajectory (bubble_ p);
  last ← Trajectory_last trajectory;
  let centre_of_mass := last.2 in
  foldlM
    (λ p vessel,
       from_centre_of_mass ← PhysicsBubble.from_centre_of_mass vessel (bubble_ p);
       v ← vessels_ p !! vessel;
       history_time ← HistoryTime p;
       p ←
         (if Vessel.is_synchronized v then
            Append_at (vessel_history vessel) history_time
                      (dof_plus centre_of_mass from_centre_of_mass) p
          else
            v ← Vessel.CreateHistoryAndForkProlongation
                  history_time (dof_plus centre_of_mass from_centre_of_mass) v;
            CHECK (bool_decide (vessel ∈ unsynchronized_vessels_ p));;
            Some (set_unsynchronized_vessels
                    (unsynchronized_vessels_ p ∖ {[vessel]})
                    (set_vessels (<[vessel := v]> (vessels_ p)) p)));
       CHECK (bool_decide (vessel ∈ dirty_vessels_ p));;
       Some (set_dirty_vessels (dirty_vessels_ p ∖ {[vessel]}) p))
    p (PhysicsBubble.vessels (bubble_ p)).

(** Synchronizes the [unsynchronized_vessels_], clears
    [unsynchronized_vessels_].  Prolongs the histories of the vessels in the
    physics bubble by evolving the trajectory of the current physics bubble
    if there is one, prolongs the histories of the remaining
    [dirty_vessels_] using their prolongations, clears [dirty_vessels_]. *)
Definition SynchronizeNewVesselsAndCleanDirtyVessels (p : Plugin)
  : option Plugin :=
  let trajectories :=
    (λ pair : Index * Celestial.t, celestial_prolongation pair.1)
      <$> map_to_list (celestials_ p) in
  let trajectories :=
    trajectories ++
    (vessel_prolongation
       <$> List.filter
             (λ vessel, negb (PhysicsBubble.contains vessel (bubble_ p)))
             (elements (unsynchronized_vessels_ p))) in
  let trajectories :=
    trajectories ++
    (vessel_prolongation
       <$> List.filter
             (λ vessel,
                negb (PhysicsBubble.contains vessel (bubble_ p)) &&
                from_option Vessel.is_synchronized false (vessels_ p !! vessel))
             (elements (dirty_vessels_ p))) in
  let trajectories :=
    if negb (PhysicsBubble.empty (bubble_ p))
    then trajectories ++ [bubble_centre_of_mass_trajectory]
    else trajectories in
  history_time ← HistoryTime p;
  p ← Integrate history_time Δt_ 0 true trajectories p;
  p ← (if negb (PhysicsBubble.empty (bubble_ p))
       then SynchronizeBubbleHistories p else Some p);
  p ← foldlM
        (λ p vessel,
           CHECK (negb (PhysicsBubble.contains vessel (bubble_ p)));;
           v ← vessels_ p !! vessel;
           history_time ← HistoryTime p;
           prolongation ← Vessel.prolongation v;
           last ← Trajectory_last prolongation;
           v ← Vessel.CreateHistoryAndForkProlongation history_time last.2 v;
           Some (set_dirty_vessels (dirty_vessels_ p ∖ {[vessel]})
                   (set_vessels (<[vessel := v]> (vessels_ p)) p)))
        p (elements (unsynchronized_vessels_ p));
  let p := set_unsynchronized_vessels ∅ p in
  p ← foldlM
        (λ p vessel,
           CHECK (negb (PhysicsBubble.contains vessel (bubble_ p)));;
           v ← vessels_ p !! vessel;
           history_time ← HistoryTime p;
           prolongation ← Vessel.prolongation v;
           last ← Trajectory_last prolongation;
           Append_at (vessel_history vessel) history_time last.2 p)
        p (elements (dirty_vessels_ p));
  Some (set_dirty_vessels ∅ p).

(** Resets the prolongations of all vessels and celestials to
    [HistoryTime()].  All vessels must satisfy [is_synchronized()]. *)
Definition ResetProlongations (p : Plugin) : option Plugin :=
  p ← foldlM
        (λ p (pair : GUID * Vessel.t),
           v ← vessels_ p !! pair.1;
           history_time ← HistoryTime p;
           v ← Vessel.ResetProlongation history_time v;
           Some (set_vessels (<[pair.1 := v]> (vessels_ p)) p))
        p (map_to_list (vessels_ p));
  foldlM
    (λ p (pair : Index * Celestial.t),
       c ← celestials_ p !! pair.1;
       history_time ← HistoryTime p;
       c ← Celestial.ResetProlongation history_time c;
       Some (set_celestials (<[pair.1 := c]> (celestials_ p)) p))
    p (map_to_list (celestials_ p)).

(** Evolves the prolongations of all celestials and vessels up to exactly
    instant [t].  Also evolves the trajectory of the current physics bubble
    if there is one. *)
Definition EvolveProlongationsAndBubble (t : Instant) (p : Plugin)
  : option Plugin :=
  let trajectories :=
    (λ pair : Index * Celestial.t, celestial_prolongation pair.1)
      <$> map_to_list (celestials_ p) in
  let trajectories :=
    trajectories ++
    ((λ pair : GUID * Vessel.t, vessel_prolongation pair.1)
       <$> List.filter
             (λ pair : GUID * Vessel.t,
                negb (PhysicsBubble.contains pair.1 (bubble_ p)))
             (map_to_list (vessels_ p))) in
  let trajectories :=
    if negb (PhysicsBubble.empty (bubble_ p))
    then trajectories ++ [bubble_centre_of_mass_trajectory]
    else trajectories in
  p ← Integrate t Δt_ 0 true trajectories p;
  if negb (PhysicsBubble.empty (bubble_ p)) then
    trajectory ← PhysicsBubble.centre_of_mass_trajectory (bubble_ p);
    last ← Trajectory_last trajectory;
    let centre_of_mass := last.2 in
    foldlM
      (λ p vessel,
         from_centre_of_mass ←
           PhysicsBubble.from_centre_of_mass vessel (bubble_ p);
         Append_at (vessel_prolongation vessel) t
                   (dof_plus centre_of_mass from_centre_of_mass) p)
      p (PhysicsBubble.vessels (bubble_ p))
  else Some p.

(** Simulates the system until instant [t].  All vessels that have not been
    refreshed by calling [InsertOrKeepVessel] since the last call to
    [AdvanceTime] will be removed.  Sets [current_time_] to [t]. *)
Definition AdvanceTime (t : Instant) (planetarium_rotation : Angle)
    (p : Plugin) : option Plugin :=
  CHECK (negb (initializing_ p));;
  CHECK (bool_decide (current_time_ p < t));;
  p ← CleanUpVessels p;
  bubble ← PhysicsBubble.Prepare (vessels_ p) (PlanetariumRotation p)
                                 (current_time_ p) t (bubble_ p);
  let p := set_bubble bubble p in
  history_time ← HistoryTime p;
  p ←
    (if bool_decide (Instant_plus history_time Δt_ < t) then
       (* The histories are far enough behind that we can advance them at
          least one step and reset the prolongations. *)
       p ← EvolveHistories t p;
       p ← (if has_unsynchronized_vessels p || has_dirty_vessels p ||
               negb (PhysicsBubble.empty (bubble_ p))
            then SynchronizeNewVesselsAndCleanDirtyVessels p
            else Some p);
       ResetProlongations p
     else Some p);
  p ← EvolveProlongationsAndBubble t p;
  Some (mkPlugin (vessels_ p) (celestials_ p) (unsynchronized_vessels_ p)
                 (dirty_vessels_ p) (kept_vessels_ p) (bubble_ p)
                 (initializing_ p) planetarium_rotation t (sun_ p)).

End WithNumerics.

(** Constructs a [Plugin].  The current time of that instance is
    [initial_time].  Inserts a celestial body with an arbitrary position,
    index [sun_index] and gravitational parameter
    [sun_gravitational_parameter].  Starts initialization. *)
Definition Plugin_new (initial_time : Instant) (sun_index : Index)
    (sun_gravitational_parameter : R) (planetarium_rotation : Angle)
  : option Plugin :=
  sun ← Celestial.CreateHistoryAndForkProlongation
          initial_time (mkDegreesOfFreedom geometry.zero geometry.zero)
          (Celestial.new (mkMassiveBody sun_gravitational_parameter));
  Some (mkPlugin ∅ {[sun_index := sun]} ∅ ∅ ∅ PhysicsBubble.new true
                 planetarium_rotation initial_time sun_index).

(** The conversion of an offset given in [AliceSun] to [Barycentric]:
    [PlanetariumRotation().Inverse()(kSunLookingGlass.Inverse()(from_parent))]. *)
Definition to_barycentric (p : Plugin) (from_parent : RelativeDegreesOfFreedom)
  : RelativeDegreesOfFreedom :=
  map_relative
    (geometry.Rotation_apply (geometry.Rotation_Inverse (PlanetariumRotation p)))
    (map_relative
       (geometry.Permutation_apply (geometry.Permutation_Inverse kSunLookingGlass))
       from_parent).

(** The conversion back:
    [kSunLookingGlass(PlanetariumRotation()(barycentric_result))]. *)
Definition to_alice_sun (p : Plugin)
    (barycentric_result : RelativeDegreesOfFreedom)
  : RelativeDegreesOfFreedom :=
  map_relative
    (geometry.Permutation_apply kSunLookingGlass)
    (map_relative (geometry.Rotation_apply (PlanetariumRotation p))
                  barycentric_result).

(** Inserts a new celestial body with index [celestial_index] and
    gravitational parameter [gravitational_parameter].  No body with index
    [celestial_index] must already have been inserted.  The parent of the
    new body is the body at index [parent_index], which must already have
    been inserted.  Must only be called during initialization. *)
Definition InsertCelestial (celestial_index : Index)
    (gravitational_parameter : R) (parent_index : Index)
    (from_parent : RelativeDegreesOfFreedom) (p : Plugin) : option Plugin :=
  CHECK (initializing_ p);;
  parent ← celestials_ p !! parent_index;
  CHECK (bool_decide (celestials_ p !! celestial_index = None));;
  let relative := to_barycentric p from_parent in
  let celestial :=
    Celestial.set_parent parent_index
      (Celestial.new (mkMassiveBody gravitational_parameter)) in
  history ← Celestial.history parent;
  last ← Trajectory_last history;
  celestial ← Celestial.CreateHistoryAndForkProlongation
                (current_time_ p) (dof_plus last.2 relative) celestial;
  Some (set_celestials (<[celestial_index := celestial]> (celestials_ p)) p).

(** Ends initialization ([initializing_.Flop()]). *)
Definition EndInitialization (p : Plugin) : Plugin :=
  mkPlugin (vessels_ p) (celestials_ p) (unsynchronized_vessels_ p)
           (dirty_vessels_ p) (kept_vessels_ p) (bubble_ p) false
           (planetarium_rotation_ p) (current_time_ p) (sun_ p).

(** Sets the parent of the celestial body with index [celestial_index] to
    the one with index [parent_index]. *)
Definition UpdateCelestialHierarchy (celestial_index parent_index : Index)
    (p : Plugin) : option Plugin :=
  CHECK (negb (initializing_ p));;
  celestial ← celestials_ p !! celestial_index;
  _ ← celestials_ p !! parent_index;
  Some (set_celestials
          (<[celestial_index := Celestial.set_parent parent_index celestial]>
             (celestials_ p)) p).

(** Inserts a new vessel with GUID [vessel_guid] if it does not already
    exist, and flags the vessel with GUID [vessel_guid] so it is kept when
    calling [AdvanceTime].  The parent body for the vessel is set to the one
    with index [parent_index].  Returns true if a new vessel was
    inserted. *)
Definition InsertOrKeepVessel (vessel_guid : GUID) (parent_index : Index)
    (p : Plugin) : option (bool * Plugin) :=
  CHECK (negb (initializing_ p));;
  _ ← celestials_ p !! parent_index;
  let parent := parent_index in
  let inserted := bool_decide (vessels_ p !! vessel_guid = None) in
  let vessel := default (Vessel.new parent) (vessels_ p !! vessel_guid) in
  let p := set_kept_vessels ({[vessel_guid]} ∪ kept_vessels_ p) p in
  let p :=
    set_vessels (<[vessel_guid := Vessel.set_parent parent vessel]> (vessels_ p))
                p in
  Some (inserted, p).

(** Set the position and velocity of the vessel with GUID [vessel_guid]
    relative to its parent at current time.  Must only be called once per
    vessel. *)
Definition SetVesselStateOffset (vessel_guid : GUID)
    (from_parent : RelativeDegreesOfFreedom) (p : Plugin) : option Plugin :=
  CHECK (negb (initializing_ p));;
  vessel ← find_vessel_by_guid_or_die vessel_guid p;
  CHECK (negb (Vessel.is_initialized vessel));;
  let relative := to_barycentric p from_parent in
  parent ← celestials_ p !! Vessel.parent vessel;
  prolongation ← Celestial.prolongation parent;
  last ← Trajectory_last prolongation;
  vessel ← Vessel.CreateProlongation
             (current_time_ p) (dof_plus last.2 relative) vessel;
  CHECK (bool_decide (vessel_guid ∉ unsynchronized_vessels_ p));;
  Some (set_unsynchronized_vessels
          ({[vessel_guid]} ∪ unsynchronized_vessels_ p)
          (set_vessels (<[vessel_guid := vessel]> (vessels_ p)) p)).

(** Returns the displacement and velocity of the vessel with GUID
    [vessel_guid] relative to its parent at current time. *)
Definition VesselFromParent (vessel_guid : GUID) (p : Plugin)
  : option RelativeDegreesOfFreedom :=
  CHECK (negb (initializing_ p));;
  vessel ← find_vessel_by_guid_or_die vessel_guid p;
  CHECK (Vessel.is_initialized vessel);;
  prolongation ← Vessel.prolongation vessel;
  last ← Trajectory_last prolongation;
  parent ← celestials_ p !! Vessel.parent vessel;
  parent_prolongation ← Celestial.prolongation parent;
  parent_last ← Trajectory_last parent_prolongation;
  let barycentric_result := dof_minus last.2 parent_last.2 in
  Some (to_alice_sun p barycentric_result).

(** Returns the displacement and velocity of the celestial at index
    [celestial_index] relative to its parent at current time.  It must not
    be the sun. *)
Definition CelestialFromParent (celestial_index : Index) (p : Plugin)
  : option RelativeDegreesOfFreedom :=
  CHECK (negb (initializing_ p));;
  celestial ← celestials_ p !! celestial_index;
  CHECK (Celestial.has_parent celestial);;
  prolongation ← Celestial.prolongation celestial;
  last ← Trajectory_last prolongation;
  parent_index ← Celestial.parent celestial;
  parent ← celestials_ p !! parent_index;
  parent_prolongation ← Celestial.prolongation parent;
  parent_last ← Trajectory_last parent_prolongation;
  let barycentric_result := dof_minus last.2 parent_last.2 in
  Some (to_alice_sun p barycentric_result).

(** Represents the line segment {(1-s) [begin] + s [end] | s ∈ [0, 1]}. *)
Record LineSegment : Type :=
  mkLineSegment { segment_begin : geometry.R3; segment_end : geometry.R3 }.

(** We render trajectories as polygons. *)
Abbreviation RenderedTrajectory := (list LineSegment) (only parsing).

(** The loop that builds the result: [initial_it] and [final_it] walk the
    apparent trajectory one sample apart. *)
Fixpoint line_segments (to_world : geometry.R3 → geometry.R3)
    (initial_it : Instant * DegreesOfFreedom)
    (rest : list (Instant * DegreesOfFreedom)) : list LineSegment :=
  match rest with
  | [] => []
  | final_it :: rest =>
      mkLineSegment (to_world (position initial_it.2))
                    (to_world (position final_it.2))
      :: line_segments to_world final_it rest
  end.

(** Appends the points an iterator yields to a new trajectory. *)
Definition collect (points : list (Instant * DegreesOfFreedom))
  : option Trajectory :=
  foldlM (λ τ (s : Instant * DegreesOfFreedom), Append s.1 s.2 τ)
         Trajectory_new points.

(** Returns a polygon in [World] space depicting the trajectory of the
    vessel with the given GUID in the frame of [transforms]. *)
Definition RenderedVesselTrajectory (vessel_guid : GUID)
    (transforms : Transforms) (sun_world_position : geometry.R3) (p : Plugin)
  : option (list LineSegment) :=
  CHECK (negb (initializing_ p));;
  sun ← celestials_ p !! sun_ p;
  sun_prolongation ← Celestial.prolongation sun;
  sun_last ← Trajectory_last sun_prolongation;
  let to_world :=
    geometry.mkAffineMap
      (position sun_last.2) sun_world_position
      (geometry.Rotation_compose geometry.Rotation_Identity
                                 (PlanetariumRotation p)) in
  vessel ← find_vessel_by_guid_or_die vessel_guid p;
  CHECK (Vessel.is_initialized vessel);;
  if negb (Vessel.is_synchronized vessel) then
    (* We render neither unsynchronized histories nor prolongations at the
       moment. *)
    Some []
  else
    (* Compute the apparent trajectory using the given [transforms]. *)
    actual_trajectory ← Vessel.history vessel;
    (* First build the trajectory resulting from the first transform. *)
    intermediate_trajectory ←
      collect (Transforms_first transforms actual_trajectory);
    (* Then build the apparent trajectory using the second transform. *)
    apparent_trajectory ←
      collect (Transforms_second transforms intermediate_trajectory);
    (* Finally use the apparent trajectory to build the result. *)
    Some match samples apparent_trajectory with
         | [] => []
         | initial_it :: rest =>
             line_segments (geometry.AffineMap_apply to_world) initial_it rest
         end.

(** Adds the vessel with GUID [vessel_guid] to the next physics bubble with
    its parts, and to [dirty_vessels_]. *)
Definition AddVesselToNextPhysicsBubble (vessel_guid : GUID)
    (parts : list PhysicsBubble.IdAndOwnedPart) (p : Plugin) : option Plugin :=
  _ ← find_vessel_by_guid_or_die vessel_guid p;
  bubble ← PhysicsBubble.AddVesselToNext vessel_guid parts (bubble_ p);
  Some (set_bubble bubble
          (set_dirty_vessels ({[vessel_guid]} ∪ dirty_vessels_ p) p)).

Definition PhysicsBubbleIsEmpty (p : Plugin) : bool :=
  PhysicsBubble.empty (bubble_ p).

(** *** Persistence *)

Module serialization.

(** Modelled from the spec: the messages of [serialization/ksp_plugin.pb.h]
    are not part of the sources; an opaque message-based snapshot captures
    all celestial and vessel state and the bubble state.  The fields of
    [Plugin] and of its repeated [celestial] and [vessel] are those
    [Plugin::WriteToMessage] sets. *)
Record Celestial : Type :=
  mkCelestial
    { celestial_body : MassiveBody;
      celestial_history : Trajectory;
      celestial_prolongation : Trajectory }.

Record Vessel : Type :=
  mkVessel
    { vessel_history : option Trajectory;
      vessel_prolongation : Trajectory }.

Record PhysicsBubble : Type :=
  mkPhysicsBubble
    { current : option PhysicsBubble.State;
      next : option PhysicsBubble.State }.

Record Plugin_CelestialAndProperties : Type :=
  mkCelestialAndProperties
    { index : Index;
      celestial : Celestial;
      celestial_parent_index : option Index }.

Record Plugin_VesselAndProperties : Type :=
  mkVesselAndProperties
    { guid : GUID;
      vessel : Vessel;
      parent_index : Index;
      dirty : bool }.

Record Plugin : Type :=
  mkPlugin
    { celestials : list Plugin_CelestialAndProperties;
      vessels : list Plugin_VesselAndProperties;
      bubble : PhysicsBubble;
      planetarium_rotation : Angle;
      current_time : Instant;
      sun_index : Index }.

End serialization.

(** Modelled from the spec: [Celestial::WriteToMessage] (the celestial must
    satisfy [is_initialized()]) and [Celestial::ReadFromMessage]; the parent
    is not part of the message. *)
Definition Celestial_WriteToMessage (c : Celestial.t)
  : option serialization.Celestial :=
  CHECK (Celestial.is_initialized c);;
  history ← Celestial.history_ c;
  prolongation ← Celestial.prolongation_ c;
  Some (serialization.mkCelestial (Celestial.body_ c) history prolongation).

Definition Celestial_ReadFromMessage (message : serialization.Celestial)
  : Celestial.t :=
  Celestial.mk (serialization.celestial_body message) None
               (Some (serialization.celestial_history message))
               (Some (serialization.celestial_prolongation message)).

(** Modelled from the spec: [Vessel::WriteToMessage] (the vessel must
    satisfy [is_initialized()], as for its sibling [Celestial]) and
    [Vessel::ReadFromMessage(message, parent)]. *)
Definition Vessel_WriteToMessage (v : Vessel.t) : option serialization.Vessel :=
  CHECK (Vessel.is_initialized v);;
  match Vessel.trajectories_ v with
  | Vessel.Uninitialized => None
  | Vessel.Unsynchronized p => Some (serialization.mkVessel None p)
  | Vessel.Synchronized h p => Some (serialization.mkVessel (Some h) p)
  end.

Definition Vessel_ReadFromMessage (message : serialization.Vessel)
    (parent : Index) : Vessel.t :=
  Vessel.mk parent
    match serialization.vessel_history message with
    | Some h => Vessel.Synchronized h (serialization.vessel_prolongation message)
    | None => Vessel.Unsynchronized (serialization.vessel_prolongation message)
    end.

(** Modelled from the spec: [PhysicsBubble::WriteToMessage] and
    [PhysicsBubble::ReadFromMessage] name the vessels of the bubble through
    the function they are given, which dies on a vessel it does not know;
    [known] tells which vessels it knows. *)
Definition known_vessels (known : GUID → bool)
    (state : option PhysicsBubble.State) : bool :=
  match state with
  | Some s => forallb known (map_to_list (PhysicsBubble.vessels_ s)).*1
  | None => true
  end.

Definition PhysicsBubble_WriteToMessage (known : GUID → bool)
    (b : PhysicsBubble.t) : option serialization.PhysicsBubble :=
  CHECK (known_vessels known (PhysicsBubble.current_ b));;
  CHECK (known_vessels known (PhysicsBubble.next_ b));;
  Some (serialization.mkPhysicsBubble (PhysicsBubble.current_ b)
                                      (PhysicsBubble.next_ b)).

Definition PhysicsBubble_ReadFromMessage (known : GUID → bool)
    (message : serialization.PhysicsBubble) : option PhysicsBubble.t :=
  CHECK (known_vessels known (serialization.current message));;
  CHECK (known_vessels known (serialization.next message));;
  Some (PhysicsBubble.mk (serialization.current message)
                         (serialization.next message)).

(** Must be called after initialization. *)
Definition WriteToMessage (p : Plugin) : option serialization.Plugin :=
  CHECK (negb (initializing_ p));;
  celestials ←
    mapM (λ index_celestial : Index * Celestial.t,
            let index := index_celestial.1 in
            let celestial := index_celestial.2 in
            celestial_message ← Celestial_WriteToMessage celestial;
            parent_index ←
              (if Celestial.has_parent celestial then
                 parent ← Celestial.parent celestial;
                 _ ← celestials_ p !! parent;
                 Some (Some parent)
               else Some None);
            Some (serialization.mkCelestialAndProperties
                    index celestial_message parent_index))
         (map_to_list (celestials_ p));
  vessels ←
    mapM (λ guid_vessel : GUID * Vessel.t,
            let guid := guid_vessel.1 in
            let vessel := guid_vessel.2 in
            vessel_message ← Vessel_WriteToMessage vessel;
            _ ← celestials_ p !! Vessel.parent vessel;
            Some (serialization.mkVesselAndProperties
                    guid vessel_message (Vessel.parent vessel)
                    (is_dirty guid p)))
         (map_to_list (vessels_ p));
  bubble ←
    PhysicsBubble_WriteToMessage
      (λ vessel, bool_decide (is_Some (vessels_ p !! vessel))) (bubble_ p);
  _ ← celestials_ p !! sun_ p;
  Some (serialization.mkPlugin celestials vessels bubble
                               (planetarium_rotation_ p) (current_time_ p)
                               (sun_ p)).

(** [std::map::emplace]: nothing is inserted when the key is there. *)
Definition emplace `{Countable K} {A : Type} (k : K) (a : A) (m : gmap K A)
  : gmap K A :=
  match m !! k with
  | Some _ => m
  | None => <[k := a]> m
  end.

(** This constructor should only be used during deserialization.
    [unsynchronized_vessels_] is initialized consistently.  The resulting
    plugin is not [initializing_].  The sun is looked up with [find]
    and the result is not checked: where no celestial has the index
    [sun_index] the behaviour of the code is undefined, and nothing is
    returned here. *)
Definition Plugin_restore (vessels : gmap GUID Vessel.t)
    (celestials : gmap Index Celestial.t) (dirty_vessels : gset GUID)
    (bubble : PhysicsBubble.t) (planetarium_rotation : Angle)
    (current_time : Instant) (sun_index : Index) : option Plugin :=
  _ ← celestials !! sun_index;
  let unsynchronized_vessels :=
    foldl (λ (unsynchronized : gset GUID) (guid_vessel : GUID * Vessel.t),
             if negb (Vessel.is_synchronized guid_vessel.2)
             then {[guid_vessel.1]} ∪ unsynchronized
             else unsynchronized)
          ∅ (map_to_list vessels) in
  Some (EndInitialization
          (mkPlugin vessels celestials unsynchronized_vessels dirty_vessels ∅
                    bubble true planetarium_rotation current_time sun_index)).

Definition ReadFromMessage (message : serialization.Plugin) : option Plugin :=
  let celestials :=
    foldl (λ celestials celestial_message,
             emplace (serialization.index celestial_message)
                     (Celestial_ReadFromMessage
                        (serialization.celestial celestial_message))
                     celestials)
          (∅ : gmap Index Celestial.t) (serialization.celestials message) in
  celestials ←
    foldlM (λ (celestials : gmap Index Celestial.t) celestial_message,
              match serialization.celestial_parent_index celestial_message with
              | Some parent_index =>
                  celestial ←
                    celestials !! serialization.index celestial_message;
                  _ ← celestials !! parent_index;
                  Some (<[serialization.index celestial_message :=
                            Celestial.set_parent parent_index celestial]>
                          celestials)
              | None => Some celestials
              end)
           celestials (serialization.celestials message);
  vessels_dirty ←
    foldlM (λ (acc : gmap GUID Vessel.t * gset GUID) vessel_message,
              _ ← celestials !! serialization.parent_index vessel_message;
              let vessel :=
                Vessel_ReadFromMessage (serialization.vessel vessel_message)
                  (serialization.parent_index vessel_message) in
              let dirty_vessels :=
                if serialization.dirty vessel_message
                then {[serialization.guid vessel_message]} ∪ acc.2
                else acc.2 in
              CHECK (bool_decide
                       (acc.1 !! serialization.guid vessel_message = None));;
              Some (<[serialization.guid vessel_message := vessel]> acc.1,
                    dirty_vessels))
           (∅, ∅) (serialization.vessels message);
  bubble ←
    PhysicsBubble_ReadFromMessage
      (λ vessel, bool_decide (is_Some (vessels_dirty.1 !! vessel)))
      (serialization.bubble message);
  Plugin_restore vessels_dirty.1 celestials vessels_dirty.2 bubble
                 (serialization.planetarium_rotation message)
                 (serialization.current_time message)
                 (serialization.sun_index message).

End ksp_plugin.

(** * The conversions as the code rounds them

    The coordinates of [ksp_plugin] are real numbers.  The code holds them
    as [double]s and rounds every sum and every product: this module has
    the construction of the plugin, [InsertCelestial], [EndInitialization]
    and [CelestialFromParent] again with binary64 coordinates, to tell what
    holds of the numbers the code computes from what holds of the maps.
    The vessels and the physics bubble, which these calls neither read nor
    write, are left out of the plugin. *)

Module rounded.

Import ksp_plugin.

Local Open Scope float_scope.

Record R3 : Type := mkR3 { x : float; y : float; z : float }.

Definition zero : R3 := mkR3 0 0 0.
Definition add (u v : R3) : R3 := mkR3 (x u + x v) (y u + y v) (z u + z v).
Definition sub (u v : R3) : R3 := mkR3 (x u - x v) (y u - y v) (z u - z v).

Definition Permutation_apply (σ : geometry.Permutation) (v : R3) : R3 :=
  match geometry.coordinate_permutation σ with
  | geometry.XYZ => mkR3 (x v) (y v) (z v)
  | geometry.YZX => mkR3 (y v) (z v) (x v)
  | geometry.ZXY => mkR3 (z v) (x v) (y v)
  | geometry.XZY => mkR3 (x v) (z v) (y v)
  | geometry.ZYX => mkR3 (z v) (y v) (x v)
  | geometry.YXZ => mkR3 (y v) (x v) (z v)
  end.

(** [std::cos] and [std::sin] on [double]. *)
Class Libm : Type := { cos : float → float; sin : float → float }.

(** Modelled from the spec: as [geometry.Rotation], the rotation about the
    y axis by an angle, each product and each sum being rounded. *)
Record Rotation : Type := mkRotation { rotation_angle : float }.

Definition Rotation_Inverse (r : Rotation) : Rotation :=
  mkRotation (- rotation_angle r).
Definition Rotation_apply `{Libm} (r : Rotation) (v : R3) : R3 :=
  let c := cos (rotation_angle r) in
  let s := sin (rotation_angle r) in
  mkR3 (c * x v + s * z v) (y v) (c * z v - s * x v).

Record DegreesOfFreedom : Type :=
  mkDegreesOfFreedom { position : R3; velocity : R3 }.

Record RelativeDegreesOfFreedom : Type :=
  mkRelativeDegreesOfFreedom { displacement : R3; relative_velocity : R3 }.

Definition dof_plus (d : DegreesOfFreedom) (r : RelativeDegreesOfFreedom)
  : DegreesOfFreedom :=
  mkDegreesOfFreedom (add (position d) (displacement r))
                     (add (velocity d) (relative_velocity r)).

Definition dof_minus (a b : DegreesOfFreedom) : RelativeDegreesOfFreedom :=
  mkRelativeDegreesOfFreedom (sub (position a) (position b))
                             (sub (velocity a) (velocity b)).

Definition map_relative (f : R3 → R3) (r : RelativeDegreesOfFreedom)
  : RelativeDegreesOfFreedom :=
  mkRelativeDegreesOfFreedom (f (displacement r)) (f (relative_velocity r)).

(** Modelled from the spec: as [physics.Trajectory], a timeline of samples
    and, for a fork, the sample of its parent at the fork time. *)
Record Trajectory : Type :=
  mkTrajectory
    { fork_point : option (Instant * DegreesOfFreedom);
      timeline : list (Instant * DegreesOfFreedom) }.

Definition Trajectory_new : Trajectory := mkTrajectory None [].

Definition Trajectory_last (τ : Trajectory)
  : option (Instant * DegreesOfFreedom) :=
  match last (timeline τ) with
  | Some s => Some s
  | None => fork_point τ
  end.

Definition Append (t : Instant) (d : DegreesOfFreedom) (τ : Trajectory)
  : option Trajectory :=
  match Trajectory_last τ with
  | Some (t', _) =>
      if bool_decide (t' < t)%Z
      then Some (mkTrajectory (fork_point τ) (timeline τ ++ [(t, d)]))
      else None
  | None => Some (mkTrajectory (fork_point τ) (timeline τ ++ [(t, d)]))
  end.

Definition Trajectory_find (t : Instant) (τ : Trajectory)
  : option DegreesOfFreedom :=
  match list_find (λ s, s.1 = t) (timeline τ) with
  | Some (_, s) => Some s.2
  | None =>
      match fork_point τ with
      | Some (t', d) => if bool_decide (t' = t) then Some d else None
      | None => None
      end
  end.

Definition Fork (t : Instant) (τ : Trajectory) : option Trajectory :=
  d ← Trajectory_find t τ;
  Some (mkTrajectory (Some (t, d)) []).

(** [Celestial] ([ksp_plugin/celestial.hpp]); the body is its gravitational
    parameter. *)
Module Celestial.

Record t : Type :=
  mk { body_ : float;
       parent_ : option Index;
       history_ : option Trajectory;
       prolongation_ : option Trajectory }.

Definition new (body : float) : t := mk body None None None.

Definition is_initialized (c : t) : bool := bool_decide (is_Some (history_ c)).
Definition has_parent (c : t) : bool := bool_decide (is_Some (parent_ c)).
Definition parent (c : t) : option Index := parent_ c.
Definition set_parent (parent : Index) (c : t) : t :=
  mk (body_ c) (Some parent) (history_ c) (prolongation_ c).

Definition history (c : t) : option Trajectory := history_ c.
Definition prolongation (c : t) : option Trajectory :=
  CHECK (is_initialized c);; prolongation_ c.

Definition CreateHistoryAndForkProlongation (time : Instant)
    (degrees_of_freedom : DegreesOfFreedom) (c : t) : option t :=
  history ← Append time degrees_of_freedom Trajectory_new;
  prolongation ← Fork time history;
  Some (mk (body_ c) (parent_ c) (Some history) (Some prolongation)).

End Celestial.

Record Plugin : Type :=
  mkPlugin
    { celestials_ : gmap Index Celestial.t;
      initializing_ : bool;
      planetarium_rotation_ : float;
      current_time_ : Instant;
      sun_ : Index }.

Definition set_celestials (celestials : gmap Index Celestial.t) (p : Plugin)
  : Plugin :=
  mkPlugin celestials (initializing_ p) (planetarium_rotation_ p)
           (current_time_ p) (sun_ p).

Definition PlanetariumRotation (p : Plugin) : Rotation :=
  mkRotation (planetarium_rotation_ p).

Definition Plugin_new (initial_time : Instant) (sun_index : Index)
    (sun_gravitational_parameter : float) (planetarium_rotation : float)
  : option Plugin :=
  sun ← Celestial.CreateHistoryAndForkProlongation
          initial_time (mkDegreesOfFreedom zero zero)
          (Celestial.new sun_gravitational_parameter);
  Some (mkPlugin {[sun_index := sun]} true planetarium_rotation initial_time
                 sun_index).

Section WithLibm.

Context `{Libm}.

(** [PlanetariumRotation().Inverse()(kSunLookingGlass.Inverse()(from_parent))]. *)
Definition to_barycentric (p : Plugin) (from_parent : RelativeDegreesOfFreedom)
  : RelativeDegreesOfFreedom :=
  map_relative
    (Rotation_apply (Rotation_Inverse (PlanetariumRotation p)))
    (map_relative
       (Permutation_apply (geometry.Permutation_Inverse kSunLookingGlass))
       from_parent).

(** [kSunLookingGlass(PlanetariumRotation()(barycentric_result))]. *)
Definition to_alice_sun (p : Plugin)
    (barycentric_result : RelativeDegreesOfFreedom)
  : RelativeDegreesOfFreedom :=
  map_relative
    (Permutation_apply kSunLookingGlass)
    (map_relative (Rotation_apply (PlanetariumRotation p))
                  barycentric_result).

Definition InsertCelestial (celestial_index : Index)
    (gravitational_parameter : float) (parent_index : Index)
    (from_parent : RelativeDegreesOfFreedom) (p : Plugin) : option Plugin :=
  CHECK (initializing_ p);;
  parent ← celestials_ p !! parent_index;
  CHECK (bool_decide (celestials_ p !! celestial_index = None));;
  let relative := to_barycentric p from_parent in
  let celestial :=
    Celestial.set_parent parent_index
      (Celestial.new gravitational_parameter) in
  history ← Celestial.history parent;
  last ← Trajectory_last history;
  celestial ← Celestial.CreateHistoryAndForkProlongation
                (current_time_ p) (dof_plus last.2 relative) celestial;
  Some (set_celestials (<[celestial_index := celestial]> (celestials_ p)) p).

Definition EndInitialization (p : Plugin) : Plugin :=
  mkPlugin (celestials_ p) false (planetarium_rotation_ p) (current_time_ p)
           (sun_ p).

Definition CelestialFromParent (celestial_index : Index) (p : Plugin)
  : option RelativeDegreesOfFreedom :=
  CHECK (negb (initializing_ p));;
  celestial ← celestials_ p !! celestial_index;
  CHECK (Celestial.has_parent celestial);;
  prolongation ← Celestial.prolongation celestial;
  last ← Trajectory_last prolongation;
  parent_index ← Celestial.parent celestial;
  parent ← celestials_ p !! parent_index;
  parent_prolongation ← Celestial.prolongation parent;
  parent_last ← Trajectory_last parent_prolongation;
  let barycentric_result := dof_minus last.2 parent_last.2 in
  Some (to_alice_sun p barycentric_result).

End WithLibm.

End rounded.

(** * Properties *)

Import ksp_plugin.

(** ** The histories of the plugin, as sequences of calls *)

(** The plugins the host obtains while it initializes: constructed, then
    given its celestials one by one. *)
Inductive initialization : Plugin → Prop :=
  | initialization_new initial_time sun_index sun_gravitational_parameter
                       planetarium_rotation p :
      Plugin_new initial_time sun_index sun_gravitational_parameter
                 planetarium_rotation = Some p →
      initialization p
  | initialization_insert p celestial_index gravitational_parameter
                          parent_index from_parent p' :
      initialization p →
      InsertCelestial celestial_index gravitational_parameter parent_index
                      from_parent p = Some p' →
      initialization p'.

(** Every celestial has its history and a prolongation that has not left
    the end of the history: what holds until time first advances. *)
Definition prolongations_at_histories (p : Plugin) : Prop :=
  ∀ i c, celestials_ p !! i = Some c →
    ∃ history prolongation,
      Celestial.history_ c = Some history ∧
      Celestial.prolongation_ c = Some prolongation ∧
      is_Some (Trajectory_last history) ∧
      Trajectory_last prolongation = Trajectory_last history.

(** ** Instants *)

(** [Instant_plus] is the sum of two [double]s, here where the sum is
    exact, where it is rounded up, down and to even, where it is
    subnormal and where it overflows. *)
Example Instant_plus_of_double :
  Instant_plus (of_double 15) Δt_ = of_double (15 + 10) ∧
  Instant_plus (of_double 0x1.6345785d8ap+56) Δt_
    = of_double (0x1.6345785d8ap+56 + 10) ∧
  Instant_plus (of_double 0x1.999999999999ap-4) Δt_
    = of_double (0x1.999999999999ap-4 + 10) ∧
  Instant_plus (of_double (-0x1.8p+0)) (of_double 0x1p-60)
    = of_double (-0x1.8p+0 + 0x1p-60) ∧
  Instant_plus (of_double 0x1p+53) (of_double 1) = of_double (0x1p+53 + 1) ∧
  Instant_plus (of_double 0x1.0000000000001p+53) (of_double 1)
    = of_double (0x1.0000000000001p+53 + 1) ∧
  Instant_plus (of_double 0x0.0000000000001p-1022) (of_double 0x1p-1040)
    = of_double (0x0.0000000000001p-1022 + 0x1p-1040) ∧
  Instant_plus (of_double 0x1.fffffffffffffp+1023)
               (of_double 0x1.fffffffffffffp+1023) = 2 ^ 2098.
Proof. repeat apply conj; vm_compute; reflexivity. Qed.

(** ** geometry *)











(** ** Trajectories *)

Lemma CHECK_Some (b : bool) (u : unit) : CHECK b = Some u ↔ b = true.
Proof. destruct b, u; simpl; split; congruence. Qed.

Lemma CHECK_true_bind {A} (b : bool) (k : option A) :
  b = true → (CHECK b;; k) = k.
Proof. by intros ->. Qed.

Lemma CHECK_bind_Some {A} (b : bool) (k : option A) (a : A) :
  (CHECK b;; k) = Some a ↔ b = true ∧ k = Some a.
Proof. destruct b; simpl; [tauto|]. split; [done | by intros [? _]]. Qed.

(** Splits a hypothesis [x ← m; k = Some a] (and the [CHECK]s on its way)
    into its steps. *)
Ltac inv_bind H :=
  repeat
    match type of H with
    | (CHECK ?b ≫= _) = Some _ =>
        let E := fresh "HCHECK" in
        destruct b eqn:E; [cbn [CHECK mbind option_bind] in H | discriminate H]
    | (?m ≫= _) = Some _ =>
        let E := fresh "E" in
        destruct m eqn:E; [cbn [mbind option_bind] in H | discriminate H]
    | mbind _ ?m = Some _ =>
        let E := fresh "E" in
        destruct m eqn:E; [cbn [mbind option_bind] in H | discriminate H]
    end.

(** One step of [inv_bind], naming what it introduces. *)
Tactic Notation "bind_inv" hyp(H) "as" ident(x) ident(E) :=
  cbn [mbind option_bind] in H;
  match type of H with
  | mbind _ ?m = Some _ =>
      destruct m as [x|] eqn:E;
      [cbn [mbind option_bind] in H | discriminate H]
  end.

Tactic Notation "check_inv" hyp(H) "as" ident(E) :=
  cbn [mbind option_bind] in H;
  match type of H with
  | mbind _ (CHECK ?b) = Some _ =>
      destruct b eqn:E;
      [cbn [CHECK mbind option_bind] in H | discriminate H]
  end.

Lemma Append_Some t d τ τ' :
  Append t d τ = Some τ' →
  τ' = mkTrajectory (fork_point τ) (timeline τ ++ [(t, d)]) ∧
  (∀ s, Trajectory_last τ = Some s → s.1 < t).
Proof.
  unfold Append. destruct (Trajectory_last τ) as [[t' d']|].
  - case_bool_decide; [|done]. intros [= <-]. split; [done|].
    intros s Hs. by injection Hs as <-.
  - intros [= <-]. split; [done|]. done.
Qed.

Lemma Trajectory_last_snoc fp tl (s : Instant * DegreesOfFreedom) :
  Trajectory_last (mkTrajectory fp (tl ++ [s])) = Some s.
Proof. unfold Trajectory_last; simpl. by rewrite last_snoc. Qed.

Lemma Append_last t d τ τ' :
  Append t d τ = Some τ' → Trajectory_last τ' = Some (t, d).
Proof. intros [-> _]%Append_Some. apply Trajectory_last_snoc. Qed.

Lemma Append_fork_point t d τ τ' :
  Append t d τ = Some τ' → fork_point τ' = fork_point τ.
Proof. by intros [-> _]%Append_Some. Qed.

Lemma Append_is_Some t d τ :
  (∀ s, Trajectory_last τ = Some s → s.1 < t) → is_Some (Append t d τ).
Proof.
  intros Hlt. unfold Append. destruct (Trajectory_last τ) as [[t' d']|]; [|done].
  specialize (Hlt _ eq_refl). simpl in Hlt. by rewrite bool_decide_eq_true_2.
Qed.

Lemma Append_new t d :
  Append t d Trajectory_new = Some (mkTrajectory None [(t, d)]).
Proof. done. Qed.

Lemma Fork_Some t τ τ' :
  Fork t τ = Some τ' →
  ∃ d, Trajectory_find t τ = Some d ∧ τ' = mkTrajectory (Some (t, d)) [].
Proof. unfold Fork. intros H. inv_bind H. injection H as <-. eauto. Qed.

Lemma Fork_last t τ τ' :
  Fork t τ = Some τ' → ∃ d, Trajectory_last τ' = Some (t, d).
Proof. intros (d & _ & ->)%Fork_Some. by exists d. Qed.



Lemma Fork_new t d :
  Fork t (mkTrajectory None [(t, d)]) = Some (mkTrajectory (Some (t, d)) []).
Proof.
  unfold Fork, Trajectory_find; simpl. by rewrite decide_True.
Qed.

Lemma Celestial_CreateHistoryAndForkProlongation_eq t d c :
  Celestial.CreateHistoryAndForkProlongation t d c =
    Some (Celestial.mk (Celestial.body_ c) (Celestial.parent_ c)
            (Some (mkTrajectory None [(t, d)]))
            (Some (mkTrajectory (Some (t, d)) []))).
Proof.
  unfold Celestial.CreateHistoryAndForkProlongation.
  rewrite Append_new; simpl. by rewrite Fork_new.
Qed.

Lemma Vessel_CreateHistoryAndForkProlongation_Some t d v v' :
  Vessel.CreateHistoryAndForkProlongation t d v = Some v' →
  Vessel.is_synchronized v = false ∧
  v' = Vessel.mk (Vessel.parent_ v)
         (Vessel.Synchronized (mkTrajectory None [(t, d)])
                              (mkTrajectory (Some (t, d)) [])).
Proof.
  unfold Vessel.CreateHistoryAndForkProlongation. intros H. inv_bind H.
  rewrite Append_new in E. injection E as <-. rewrite Fork_new in E0.
  injection E0 as <-. injection H as <-. split; [|done].
  by destruct (Vessel.is_synchronized v).
Qed.

(** ** The conversions between [AliceSun] and [Barycentric] *)

Lemma Plugin_new_prolongations_at_histories t i μ θ p :
  Plugin_new t i μ θ = Some p → prolongations_at_histories p.
Proof.
  unfold Plugin_new. rewrite Celestial_CreateHistoryAndForkProlongation_eq.
  simpl. intros [= <-] j c; simpl.
  intros [<- <-]%lookup_singleton_Some. simpl. eauto 10.
Qed.

Lemma InsertCelestial_Some i μ j from_parent p p' :
  InsertCelestial i μ j from_parent p = Some p' →
  ∃ parent history last,
    initializing_ p = true ∧
    celestials_ p !! j = Some parent ∧
    celestials_ p !! i = None ∧
    Celestial.history_ parent = Some history ∧
    Trajectory_last history = Some last ∧
    let d := dof_plus last.2 (to_barycentric p from_parent) in
    p' = set_celestials
           (<[i := Celestial.mk (mkMassiveBody μ) (Some j)
                     (Some (mkTrajectory None [(current_time_ p, d)]))
                     (Some (mkTrajectory (Some (current_time_ p, d)) []))]>
              (celestials_ p)) p.
Proof.
  unfold InsertCelestial. intros H. inv_bind H.
  rewrite Celestial_CreateHistoryAndForkProlongation_eq in E2.
  injection E2 as <-. injection H as <-.
  apply bool_decide_eq_true in HCHECK0.
  eexists _, _, _. repeat split; eauto.
Qed.

Lemma InsertCelestial_prolongations_at_histories i μ j from_parent p p' :
  prolongations_at_histories p →
  InsertCelestial i μ j from_parent p = Some p' →
  prolongations_at_histories p'.
Proof.
  intros Hp (parent & history & last & _ & _ & Hi & _ & _ & ->)%InsertCelestial_Some.
  intros k c; simpl. destruct (decide (i = k)) as [->|Hne].
  - rewrite lookup_insert_eq. intros [= <-]; simpl. eauto 10.
  - rewrite lookup_insert_ne by done. apply Hp.
Qed.

Lemma initialization_prolongations_at_histories p :
  initialization p → prolongations_at_histories p.
Proof.
  induction 1;
    eauto using Plugin_new_prolongations_at_histories,
                InsertCelestial_prolongations_at_histories.
Qed.






(** ** Keeping and inserting vessels *)

(** C10.  A call [InsertOrKeepVessel(guid, parent_index)] with a celestial
    at [parent_index] returns as soon as initialization has ended; when it
    returns, the vessel with that GUID is in [kept_vessels_] and its parent
    is the celestial at [parent_index] (also when the vessel already
    existed: it is re-parented and keeps its trajectories), the other
    vessels are untouched, and the result is true if, and only if, a new
    vessel was inserted. *)
Theorem InsertOrKeepVessel_keeps_and_sets_parent
    (p : Plugin) (vessel_guid : GUID) (parent_index : Index)
    (parent : Celestial.t) :
  celestials_ p !! parent_index = Some parent →
  (initializing_ p = false →
   is_Some (InsertOrKeepVessel vessel_guid parent_index p)) ∧
  ∀ inserted p',
    InsertOrKeepVessel vessel_guid parent_index p = Some (inserted, p') →
    vessel_guid ∈ kept_vessels_ p' ∧
    (∃ vessel,
       vessels_ p' !! vessel_guid = Some vessel ∧
       Vessel.parent vessel = parent_index ∧
       Vessel.trajectories_ vessel =
         match vessels_ p !! vessel_guid with
         | Some old => Vessel.trajectories_ old
         | None => Vessel.Uninitialized
         end) ∧
    (inserted = true ↔ vessels_ p !! vessel_guid = None) ∧
    (∀ guid, guid ≠ vessel_guid → vessels_ p' !! guid = vessels_ p !! guid) ∧
    kept_vessels_ p' = {[vessel_guid]} ∪ kept_vessels_ p.
Proof.
  intros Hparent. unfold InsertOrKeepVessel. rewrite Hparent. split.
  - intros ->. simpl. eauto.
  - intros inserted p' H. inv_bind H. injection H as <- <-. simpl.
    split; [set_solver|]. split; [|split; [|split]].
    + rewrite lookup_insert_eq. eexists; split; [done|]. split; [done|].
      by destruct (vessels_ p !! vessel_guid).
    + by rewrite bool_decide_eq_true.
    + intros guid Hne. by rewrite lookup_insert_ne.
    + done.
Qed.

(** ** Rendering *)

(** The apparent trajectory: each sample of the history through the first
    transform, then through the second one. *)
Definition apparent (transforms : Transforms) (history : Trajectory)
  : list (Instant * DegreesOfFreedom) :=
  (λ s, (s.1, second_ transforms s.1 (first_ transforms s.1 s.2)))
    <$> samples history.

(** The map from [Barycentric] to [World] that [RenderedVesselTrajectory]
    builds from the sun. *)
Definition to_world (p : Plugin) (sun_world_position : geometry.R3)
    (q : geometry.R3) : option geometry.R3 :=
  sun ← celestials_ p !! sun_ p;
  sun_prolongation ← Celestial.prolongation sun;
  sun_last ← Trajectory_last sun_prolongation;
  Some (geometry.AffineMap_apply
          (geometry.mkAffineMap
             (position sun_last.2) sun_world_position
             (geometry.Rotation_compose geometry.Rotation_Identity
                                        (PlanetariumRotation p))) q).

Lemma foldlM_snoc {A B} (f : A → B → option A) a l b :
  foldlM f a (l ++ [b]) = foldlM f a l ≫= λ a', f a' b.
Proof.
  revert a. induction l as [|x l IH]; intros a; simpl.
  - by destruct (f a b).
  - destruct (f a x); simpl; [apply IH | done].
Qed.

Lemma foldlM_app {A B} (f : A → B → option A) a l k :
  foldlM f a (l ++ k) = foldlM f a l ≫= λ a', foldlM f a' k.
Proof.
  revert a. induction l as [|x l IH]; intros a; simpl.
  - by destruct (foldlM f a k).
  - destruct (f a x); simpl; [apply IH | done].
Qed.

(** Appending the points of an iterator to a trajectory yields these points
    after those it had. *)
Lemma collect_from_Some points τ τ' :
  foldlM (λ τ (s : Instant * DegreesOfFreedom), Append s.1 s.2 τ) τ points
    = Some τ' →
  τ' = mkTrajectory (fork_point τ) (timeline τ ++ points).
Proof.
  revert τ. induction points as [|[t d] points IH]; intros τ; simpl.
  - intros [= <-]. destruct τ; simpl. by rewrite app_nil_r.
  - intros H. inv_bind H. apply Append_Some in E as [-> _].
    apply IH in H as ->. simpl. by rewrite <- app_assoc.
Qed.

Lemma collect_Some points τ :
  collect points = Some τ → samples τ = points.
Proof. unfold collect. by intros ->%collect_from_Some. Qed.

Lemma length_line_segments f initial rest :
  length (line_segments f initial rest) = length rest.
Proof.
  revert initial. induction rest as [|s rest IH]; intros initial; simpl;
    [done | by rewrite IH].
Qed.

Lemma line_segments_lookup f initial rest (i : nat) a b :
  (initial :: rest) !! i = Some a →
  (initial :: rest) !! S i = Some b →
  line_segments f initial rest !! i
    = Some (mkLineSegment (f (position a.2)) (f (position b.2))).
Proof.
  revert initial i. induction rest as [|s rest IH]; intros initial i; simpl.
  - by intros _ ?.
  - destruct i as [|i]; simpl.
    + by intros [= <-] [= <-].
    + intros Ha Hb. by apply IH.
Qed.

Lemma collect_from_is_Some points τ :
  Sorted Z.lt points.*1 →
  (∀ s t, Trajectory_last τ = Some s → head points.*1 = Some t → s.1 < t) →
  is_Some (foldlM (λ τ (s : Instant * DegreesOfFreedom), Append s.1 s.2 τ)
                  τ points).
Proof.
  revert τ. induction points as [|[t d] points IH]; intros τ Hsorted Hhd;
    simpl; [done|].
  destruct (Append_is_Some t d τ) as [τ' Hτ']; [by eauto|].
  rewrite Hτ'. simpl. apply IH.
  - by inversion Hsorted.
  - intros s t' Hs Ht'. rewrite (Append_last _ _ _ _ Hτ') in Hs.
    injection Hs as <-. simpl. inversion Hsorted as [|?? _ Hrel]; subst.
    destruct points as [|[??] ?]; simplify_eq/=. by inversion Hrel.
Qed.

Lemma collect_is_Some points :
  Sorted Z.lt points.*1 → is_Some (collect points).
Proof. intros ?. by apply collect_from_is_Some. Qed.

(** C7.  For an initialized vessel that is not synchronized
    [RenderedVesselTrajectory] returns the empty polygon.  For a
    synchronized vessel whose apparent trajectory (the history through both
    transforms) has [n] samples it returns [n - 1] line segments, the
    [i]-th one going from the world position of the [i]-th apparent sample
    to that of the next one, so that each segment begins where the previous
    one ends.  The call returns once initialization has ended, when the sun
    has a position and the vessel is initialized (the times of a history
    being strictly increasing). *)
Theorem RenderedVesselTrajectory_segments
    (p : Plugin) (vessel_guid : GUID) (transforms : Transforms)
    (sun_world_position : geometry.R3) (vessel : Vessel.t) :
  vessels_ p !! vessel_guid = Some vessel →
  (initializing_ p = false →
   is_Some (to_world p sun_world_position geometry.zero) →
   Vessel.is_initialized vessel = true →
   (∀ history, Vessel.history vessel = Some history →
               Sorted Z.lt (samples history).*1) →
   is_Some (RenderedVesselTrajectory vessel_guid transforms
                                     sun_world_position p)) ∧
  ∀ result,
  RenderedVesselTrajectory vessel_guid transforms sun_world_position p
    = Some result →
  Vessel.is_initialized vessel = true ∧
  (Vessel.is_synchronized vessel = false → result = []) ∧
  (∀ history, Vessel.history vessel = Some history →
     let points := apparent transforms history in
     length result = (length points - 1)%nat ∧
     (∀ (i : nat) a b, points !! i = Some a → points !! S i = Some b →
        ∃ begin_ end_,
          to_world p sun_world_position (position a.2) = Some begin_ ∧
          to_world p sun_world_position (position b.2) = Some end_ ∧
          result !! i = Some (mkLineSegment begin_ end_)) ∧
     (∀ (i : nat) s s', result !! i = Some s → result !! S i = Some s' →
        segment_end s = segment_begin s')).
Proof.
  intros Hvessel. split.
  { intros Hinit [w Hw] Hvi Hsorted.
    unfold RenderedVesselTrajectory, find_vessel_by_guid_or_die.
    unfold to_world in Hw.
    bind_inv Hw as sun Hsun. bind_inv Hw as sun_prolongation Hsp.
    bind_inv Hw as sun_last Hsl. clear Hw.
    rewrite Hvessel, Hinit. simpl. rewrite Hsp. simpl.
    rewrite Hsl. simpl. rewrite Hvi. simpl.
    destruct (Vessel.is_synchronized vessel) eqn:Hsync; simpl; [|by eexists].
    destruct (Vessel.history vessel) as [history|] eqn:Hh;
      [|by destruct vessel as [? []]].
    simpl.
    destruct (collect_is_Some (Transforms_first transforms history))
      as [intermediate Hint].
    { unfold Transforms_first. rewrite <- list_fmap_compose.
      erewrite list_fmap_ext; [by apply Hsorted | done]. }
    rewrite Hint. simpl. apply collect_Some in Hint as Hint'.
    destruct (collect_is_Some (Transforms_second transforms intermediate))
      as [apparent_trajectory Happ].
    { unfold Transforms_second. rewrite Hint'. unfold Transforms_first.
      rewrite <- !list_fmap_compose.
      erewrite list_fmap_ext; [by apply Hsorted | done]. }
    rewrite Happ. by eexists. }
  intros result.
  unfold RenderedVesselTrajectory, find_vessel_by_guid_or_die.
  rewrite Hvessel. intros H.
  check_inv H as Hinit. bind_inv H as sun Hsun.
  bind_inv H as sun_prolongation Hsp. bind_inv H as sun_last Hsl.
  inv_bind H. split; [done|].
  destruct (Vessel.is_synchronized vessel) eqn:Hsync; simpl in H.
  - split; [done|]. intros history Hh. rewrite Hh in H; simpl in H.
    destruct (collect (Transforms_first transforms history))
      as [intermediate|] eqn:Hint; [simpl in H | done].
    destruct (collect (Transforms_second transforms intermediate))
      as [apparent_trajectory|] eqn:Happ; [simpl in H | done].
    injection H as <-.
    apply collect_Some in Hint, Happ.
    assert (samples apparent_trajectory = apparent transforms history) as ->.
    { rewrite Happ. unfold Transforms_second. rewrite Hint.
      unfold Transforms_first, apparent. rewrite <- list_fmap_compose.
      by apply list_fmap_ext. }
    clear Hint Happ. simpl.
    assert (∀ q, to_world p sun_world_position q =
                 Some (geometry.AffineMap_apply
                         (geometry.mkAffineMap
                            (position sun_last.2) sun_world_position
                            (geometry.Rotation_compose geometry.Rotation_Identity
                               (PlanetariumRotation p))) q)) as Hw.
    { intros q. unfold to_world. rewrite Hsun; simpl. rewrite Hsp; simpl.
      by rewrite Hsl. }
    destruct (apparent transforms history) as [|initial rest] eqn:Hpoints.
    { split; [done|]. split; [by intros ??? [=]|]. by intros ??? [=]. }
    simpl. rewrite length_line_segments. split; [lia|]. split.
    + intros i a b Ha Hb. eexists _, _. rewrite !Hw.
      split; [done|]. split; [done|].
      by apply line_segments_lookup.
    + intros i s s' Hs Hs'.
      assert (S i < length rest)%nat as Hi.
      { apply lookup_lt_Some in Hs'. rewrite length_line_segments in Hs'. lia. }
      destruct (lookup_lt_is_Some_2 (initial :: rest) i) as [a Ha];
        [simpl; lia|].
      destruct (lookup_lt_is_Some_2 (initial :: rest) (S i)) as [b Hb];
        [simpl; lia|].
      destruct (lookup_lt_is_Some_2 (initial :: rest) (S (S i))) as [c Hc];
        [simpl; lia|].
      rewrite (line_segments_lookup _ _ _ _ _ _ Ha Hb) in Hs.
      rewrite (line_segments_lookup _ _ _ _ _ _ Hb Hc) in Hs'.
      by injection Hs as <-; injection Hs' as <-.
  - injection H as <-. split; [done|].
    intros history Hh. destruct vessel as [? []]; done.
Qed.

(** ** Cleaning up the vessels *)

(** What one turn of the loop of [CleanUpVessels] does once the invariants
    of the vessel have been checked. *)
Definition clean_up (p : Plugin) (vessel : GUID) : Plugin :=
  if bool_decide (vessel ∈ kept_vessels_ p) then
    set_kept_vessels (kept_vessels_ p ∖ {[vessel]}) p
  else
    set_vessels (delete vessel (vessels_ p))
      (set_dirty_vessels (dirty_vessels_ p ∖ {[vessel]})
         (set_unsynchronized_vessels
            (unsynchronized_vessels_ p ∖ {[vessel]}) p)).

Lemma CleanUpVessels_body_Some p it p' :
  CleanUpVessels_body p it = Some p' ↔
  CheckVesselInvariants it.1 it.2 p = Some () ∧ p' = clean_up p it.1.
Proof.
  unfold CleanUpVessels_body, clean_up.
  destruct (CheckVesselInvariants it.1 it.2 p) as [[]|]; simpl.
  - case_bool_decide; naive_solver.
  - naive_solver.
Qed.

Lemma CheckVesselInvariants_ext guid vessel p q :
  celestials_ p = celestials_ q → sun_ p = sun_ q →
  (guid ∈ unsynchronized_vessels_ p ↔ guid ∈ unsynchronized_vessels_ q) →
  CheckVesselInvariants guid vessel p = CheckVesselInvariants guid vessel q.
Proof.
  intros Hc Hs Hu. unfold CheckVesselInvariants, HistoryTime.
  rewrite Hc, Hs.
  by rewrite (bool_decide_ext _ _ Hu).
Qed.

(** The vessels a pass of the loop over [l] removes. *)
Definition removed_vessels (p : Plugin) (l : list GUID) : gset GUID :=
  list_to_set l ∖ kept_vessels_ p.

Lemma clean_up_loop p l p' :
  NoDup l.*1 →
  foldlM CleanUpVessels_body p l = Some p' →
  Forall (λ it, CheckVesselInvariants it.1 it.2 p = Some ()) l ∧
  (∀ guid, vessels_ p' !! guid =
           if decide (guid ∈ removed_vessels p l.*1) then None
           else vessels_ p !! guid) ∧
  kept_vessels_ p' = kept_vessels_ p ∖ list_to_set l.*1 ∧
  unsynchronized_vessels_ p' =
    unsynchronized_vessels_ p ∖ removed_vessels p l.*1 ∧
  dirty_vessels_ p' = dirty_vessels_ p ∖ removed_vessels p l.*1 ∧
  celestials_ p' = celestials_ p ∧ bubble_ p' = bubble_ p ∧
  initializing_ p' = initializing_ p ∧
  planetarium_rotation_ p' = planetarium_rotation_ p ∧
  current_time_ p' = current_time_ p ∧ sun_ p' = sun_ p.
Proof.
  unfold removed_vessels.
  revert p. induction l as [|[g v] l IH]; intros p Hnd; simpl.
  - intros [= <-]. split; [done|]. split.
    + intros guid. rewrite decide_False; [done | set_solver].
    + repeat split; set_solver.
  - intros H. bind_inv H as p1 Hp1.
    apply CleanUpVessels_body_Some in Hp1 as [Hcheck ->]. simpl in *.
    apply NoDup_cons in Hnd as [Hg Hnd].
    apply IH in H as (Hall & Hv & Hk & Hu & Hd & Hc & Hb & Hi & Hr & Ht & Hs);
      [|done].
    assert (g ∉ (list_to_set l.*1 : gset GUID)) as Hg'
      by (by rewrite elem_of_list_to_set).
    unfold clean_up in *. case_bool_decide as Hkept; simpl in *.
    + split.
      { constructor; [done|]. eapply Forall_impl; [exact Hall|].
        intros [g' v'] Hc'. simpl in *. rewrite <- Hc'.
        by apply CheckVesselInvariants_ext. }
      split.
      { intros guid. rewrite Hv.
        apply option_eq; intros w. repeat case_decide; set_solver. }
      rewrite Hk, Hu, Hd. repeat split; try done; set_solver.
    + split.
      { constructor; [done|]. apply Forall_forall. intros [g' v'] Hin.
        rewrite Forall_forall in Hall. specialize (Hall _ Hin).
        simpl in *. rewrite <- Hall. apply CheckVesselInvariants_ext; [done..|].
        simpl. assert (g' ≠ g); [|set_solver].
        intros ->. apply Hg. apply list_elem_of_fmap. by exists (g, v'). }
      split.
      { intros guid. rewrite Hv. destruct (decide (guid = g)) as [->|Hne].
        - rewrite lookup_delete_eq.
          repeat case_decide; try done; set_solver.
        - rewrite lookup_delete_ne by done.
          repeat case_decide; try done; set_solver. }
      rewrite Hk, Hu, Hd. repeat split; try done; set_solver.
Qed.


Lemma removed_vessels_all (p : Plugin) :
  removed_vessels p (map_to_list (vessels_ p)).*1
    = dom (vessels_ p) ∖ kept_vessels_ p.
Proof.
  unfold removed_vessels. f_equal. apply set_eq. intros g.
  rewrite elem_of_list_to_set, elem_of_dom, list_elem_of_fmap.
  split.
  - intros ([g' v] & -> & Hin). apply elem_of_map_to_list in Hin. by exists v.
  - intros [v Hv]. exists (g, v). by rewrite elem_of_map_to_list.
Qed.

(** The effect of [CleanUpVessels]: every vessel passes
    [CheckVesselInvariants], the vessels that are not kept are removed from
    the plugin and from its sets, and nothing else changes. *)
Lemma CleanUpVessels_Some p p' :
  CleanUpVessels p = Some p' →
  (∀ guid vessel, vessels_ p !! guid = Some vessel →
                  CheckVesselInvariants guid vessel p = Some ()) ∧
  (∀ guid, vessels_ p' !! guid =
           if decide (guid ∈ kept_vessels_ p) then vessels_ p !! guid
           else None) ∧
  kept_vessels_ p' = kept_vessels_ p ∖ dom (vessels_ p) ∧
  unsynchronized_vessels_ p' =
    unsynchronized_vessels_ p ∖ (dom (vessels_ p) ∖ kept_vessels_ p) ∧
  dirty_vessels_ p' =
    dirty_vessels_ p ∖ (dom (vessels_ p) ∖ kept_vessels_ p) ∧
  celestials_ p' = celestials_ p ∧ bubble_ p' = bubble_ p ∧
  initializing_ p' = initializing_ p ∧
  planetarium_rotation_ p' = planetarium_rotation_ p ∧
  current_time_ p' = current_time_ p ∧ sun_ p' = sun_ p.
Proof.
  unfold CleanUpVessels. intros H.
  apply clean_up_loop in H
    as (Hall & Hv & Hk & Hu & Hd & Hrest); [|apply NoDup_fst_map_to_list].
  rewrite removed_vessels_all in *.
  split.
  { intros g v Hgv. rewrite Forall_forall in Hall.
    apply (Hall (g, v)). by apply elem_of_map_to_list. }
  split.
  { intros g. rewrite Hv. destruct (vessels_ p !! g) as [v|] eqn:Hg.
    - apply (elem_of_dom_2 (D := gset GUID)) in Hg.
      repeat case_decide; try done; set_solver.
    - by repeat case_decide. }
  split; [|done].
  rewrite Hk. f_equal. apply set_eq. intros g.
  rewrite elem_of_list_to_set, elem_of_dom, list_elem_of_fmap. split.
  - intros ([g' v] & -> & Hin). apply elem_of_map_to_list in Hin. by exists v.
  - intros [v Hv']. exists (g, v). by rewrite elem_of_map_to_list.
Qed.


(** ** Appending through a reference *)

(** What no [Append] changes: who is there, with which parent, which
    trajectories exist, the sets and the scalars of the plugin. *)
Definition celestial_shape (c : Celestial.t)
  : MassiveBody * option Index * bool * bool :=
  (Celestial.body_ c, Celestial.parent_ c,
   bool_decide (is_Some (Celestial.history_ c)),
   bool_decide (is_Some (Celestial.prolongation_ c))).

Definition vessel_shape (v : Vessel.t) : Index * bool * bool :=
  (Vessel.parent_ v, Vessel.is_initialized v, Vessel.is_synchronized v).

Definition state_shape (s : PhysicsBubble.State)
  : gmap GUID (list PhysicsBubble.IdAndOwnedPart) *
    gmap GUID RelativeDegreesOfFreedom * bool :=
  (PhysicsBubble.vessels_ s, PhysicsBubble.from_centre_of_mass_ s,
   bool_decide (is_Some (PhysicsBubble.centre_of_mass_trajectory_ s))).

Definition bubble_shape (b : PhysicsBubble.t) :=
  (state_shape <$> PhysicsBubble.current_ b, PhysicsBubble.next_ b).

Definition shape (p : Plugin) :=
  (vessel_shape <$> vessels_ p, celestial_shape <$> celestials_ p,
   unsynchronized_vessels_ p, dirty_vessels_ p, kept_vessels_ p,
   bubble_shape (bubble_ p), initializing_ p, planetarium_rotation_ p,
   current_time_ p, sun_ p).

(** The time of the last point of a trajectory of the plugin. *)
Definition last_time (p : Plugin) (ref : TrajectoryRef) : option Instant :=
  bτ ← deref p ref; s ← Trajectory_last bτ.2; Some s.1.

Lemma HistoryTime_last_time p :
  HistoryTime p = last_time p (celestial_history (sun_ p)).
Proof.
  unfold HistoryTime, last_time; simpl.
  destruct (celestials_ p !! sun_ p) as [c|]; simpl; [|done].
  by destruct (Celestial.history c).
Qed.

Lemma shape_fields p q :
  shape p = shape q →
  unsynchronized_vessels_ p = unsynchronized_vessels_ q ∧
  dirty_vessels_ p = dirty_vessels_ q ∧
  kept_vessels_ p = kept_vessels_ q ∧
  bubble_shape (bubble_ p) = bubble_shape (bubble_ q) ∧
  initializing_ p = initializing_ q ∧
  planetarium_rotation_ p = planetarium_rotation_ q ∧
  current_time_ p = current_time_ q ∧ sun_ p = sun_ q.
Proof. unfold shape. intros H. repeat split; congruence. Qed.

Lemma shape_vessels p q guid :
  shape p = shape q →
  vessel_shape <$> vessels_ p !! guid = vessel_shape <$> vessels_ q !! guid.
Proof.
  unfold shape. intros [= H _]. by rewrite <- !lookup_fmap, H.
Qed.

Lemma shape_celestials p q index :
  shape p = shape q →
  celestial_shape <$> celestials_ p !! index
    = celestial_shape <$> celestials_ q !! index.
Proof.
  unfold shape. intros [= _ H _]. by rewrite <- !lookup_fmap, H.
Qed.


Lemma bubble_shape_fields b b' :
  bubble_shape b = bubble_shape b' →
  PhysicsBubble.empty b = PhysicsBubble.empty b' ∧
  PhysicsBubble.vessels b = PhysicsBubble.vessels b' ∧
  (∀ g, PhysicsBubble.contains g b = PhysicsBubble.contains g b') ∧
  (∀ g, PhysicsBubble.from_centre_of_mass g b
        = PhysicsBubble.from_centre_of_mass g b') ∧
  PhysicsBubble.next_ b = PhysicsBubble.next_ b'.
Proof.
  unfold bubble_shape, PhysicsBubble.empty, PhysicsBubble.vessels,
    PhysicsBubble.contains, PhysicsBubble.from_centre_of_mass.
  intros [= Hc Hn].
  destruct (PhysicsBubble.current_ b) as [[]|],
           (PhysicsBubble.current_ b') as [[]|]; simplify_eq/=; done.
Qed.

Lemma insert_fmap_same `{Countable K} {A B} (f : A → B) (m : gmap K A) k a a' :
  m !! k = Some a → f a' = f a → f <$> <[k := a']> m = f <$> m.
Proof.
  intros Hk Hf. rewrite fmap_insert, Hf. apply insert_id.
  by rewrite lookup_fmap, Hk.
Qed.

Lemma assign_shape ref τ p p' bτ :
  deref p ref = Some bτ → assign ref τ p = Some p' → shape p' = shape p.
Proof.
  destruct ref as [i|i|g|g|]; simpl; intros Hd Ha.
  - bind_inv Hd as c Hc. simpl in Ha. injection Ha as <-.
    bind_inv Hd as h Hh. unfold shape; simpl.
    erewrite insert_fmap_same; [done..|].
    unfold celestial_shape, Celestial.history in *; simpl. by rewrite Hh.
  - bind_inv Hd as c Hc. simpl in Ha. injection Ha as <-.
    bind_inv Hd as h Hh. unfold shape; simpl.
    erewrite insert_fmap_same; [done..|].
    unfold Celestial.prolongation in Hh. check_inv Hh as Hi.
    unfold celestial_shape; simpl. by rewrite Hh.
  - bind_inv Hd as v Hv. simpl in Ha.
    bind_inv Ha as v' Hv'. injection Ha as <-. unfold shape; simpl.
    erewrite insert_fmap_same; [done..|].
    unfold Vessel.set_history, Vessel.set_prolongation, vessel_shape,
      Vessel.history, Vessel.prolongation in *.
    by destruct v as [? []]; simplify_eq/=.
  - bind_inv Hd as v Hv. simpl in Ha.
    bind_inv Ha as v' Hv'. injection Ha as <-. unfold shape; simpl.
    erewrite insert_fmap_same; [done..|].
    unfold Vessel.set_history, Vessel.set_prolongation, vessel_shape,
      Vessel.history, Vessel.prolongation in *.
    by destruct v as [? []]; simplify_eq/=.
  - bind_inv Ha as b Hb. injection Ha as <-. unfold shape; simpl.
    bind_inv Hd as τ0 Hτ0.
    unfold PhysicsBubble.centre_of_mass_trajectory,
      PhysicsBubble.set_centre_of_mass_trajectory in *.
    destruct (PhysicsBubble.current_ (bubble_ p)) as [s0|] eqn:Hs;
      simplify_eq/=.
    unfold bubble_shape; simpl. rewrite Hs; simpl.
    unfold state_shape; simpl. by rewrite Hτ0.
Qed.

Lemma assign_deref_eq ref τ p p' b τ0 :
  deref p ref = Some (b, τ0) → assign ref τ p = Some p' →
  deref p' ref = Some (b, τ).
Proof.
  destruct ref as [i|i|g|g|]; simpl; intros Hd Ha.
  - bind_inv Hd as c Hc. simpl in Ha. injection Ha as <-.
    bind_inv Hd as h Hh. injection Hd as <- <-. simpl.
    by rewrite lookup_insert_eq.
  - bind_inv Hd as c Hc. simpl in Ha. injection Ha as <-.
    bind_inv Hd as h Hh. injection Hd as <- <-. simpl.
    rewrite lookup_insert_eq. simpl.
    unfold Celestial.prolongation, Celestial.is_initialized in *. simpl.
    by check_inv Hh as Hi.
  - bind_inv Hd as v Hv. simpl in Ha.
    bind_inv Ha as v' Hv'. injection Ha as <-. simpl.
    rewrite lookup_insert_eq. simpl.
    unfold Vessel.set_history, Vessel.set_prolongation, vessel_shape,
      Vessel.history, Vessel.prolongation in *.
    by destruct v as [? []]; simplify_eq/=.
  - bind_inv Hd as v Hv. simpl in Ha.
    bind_inv Ha as v' Hv'. injection Ha as <-. simpl.
    rewrite lookup_insert_eq. simpl.
    unfold Vessel.set_history, Vessel.set_prolongation, vessel_shape,
      Vessel.history, Vessel.prolongation in *.
    by destruct v as [? []]; simplify_eq/=.
  - bind_inv Ha as b' Hb. injection Ha as <-. simpl.
    unfold PhysicsBubble.centre_of_mass_trajectory,
      PhysicsBubble.set_centre_of_mass_trajectory in *.
    destruct (PhysicsBubble.current_ (bubble_ p)) as [s0|] eqn:Hs;
      simplify_eq/=.
    by destruct (PhysicsBubble.centre_of_mass_trajectory_ s0); simplify_eq/=.
Qed.

Lemma assign_deref_ne ref τ p p' ref' bτ :
  deref p ref = Some bτ →
  assign ref τ p = Some p' → ref' ≠ ref → deref p' ref' = deref p ref'.
Proof.
  intros Hd Ha Hne.
  destruct ref as [i|i|g|g|]; simpl in Ha, Hd.
  - bind_inv Ha as c Hc. injection Ha as <-. bind_inv Hd as h Hh.
    destruct ref' as [j|j|?|?|]; simpl; try done.
    + destruct (decide (i = j)) as [->|]; [done|]. by rewrite lookup_insert_ne.
    + destruct (decide (i = j)) as [->|]; [|by rewrite lookup_insert_ne].
      rewrite lookup_insert_eq, Hc. simpl.
      unfold Celestial.prolongation, Celestial.is_initialized,
        Celestial.history in *. simpl. by rewrite Hh.
  - bind_inv Ha as c Hc. injection Ha as <-.
    destruct ref' as [j|j|?|?|]; simpl; try done.
    + destruct (decide (i = j)) as [->|]; [|by rewrite lookup_insert_ne].
      rewrite lookup_insert_eq, Hc. done.
    + destruct (decide (i = j)) as [->|]; [done|]. by rewrite lookup_insert_ne.
  - bind_inv Ha as v Hv. bind_inv Ha as v' Hv'. injection Ha as <-.
    destruct ref' as [?|?|g'|g'|]; simpl; try done.
    + destruct (decide (g = g')) as [->|]; [done|]. by rewrite lookup_insert_ne.
    + destruct (decide (g = g')) as [->|]; [|by rewrite lookup_insert_ne].
      rewrite lookup_insert_eq, Hv. simpl.
      unfold Vessel.set_history, Vessel.prolongation in *.
      by destruct v as [? []]; simplify_eq/=.
  - bind_inv Ha as v Hv. bind_inv Ha as v' Hv'. injection Ha as <-.
    destruct ref' as [?|?|g'|g'|]; simpl; try done.
    + destruct (decide (g = g')) as [->|]; [|by rewrite lookup_insert_ne].
      rewrite lookup_insert_eq, Hv. simpl.
      unfold Vessel.set_prolongation, Vessel.history in *.
      by destruct v as [? []]; simplify_eq/=.
    + destruct (decide (g = g')) as [->|]; [done|]. by rewrite lookup_insert_ne.
  - bind_inv Ha as b Hb. injection Ha as <-.
    by destruct ref'.
Qed.


Lemma Append_at_Some ref t d p p' :
  Append_at ref t d p = Some p' →
  shape p' = shape p ∧
  (∀ ref', ref' ≠ ref → deref p' ref' = deref p ref') ∧
  ∃ b τ τ', deref p ref = Some (b, τ) ∧ Append t d τ = Some τ' ∧
            deref p' ref = Some (b, τ').
Proof.
  unfold Append_at. intros H. bind_inv H as bτ Hd. bind_inv H as τ' Hτ'.
  destruct bτ as [b τ]. split; [by eapply assign_shape|].
  split; [intros; by eapply assign_deref_ne|].
  eexists _, _, _. split; [done|]. split; [done|]. by eapply assign_deref_eq.
Qed.


(** A loop that appends a point at [t] to one trajectory per turn. *)
Lemma pass_Some {X} (f : Plugin → X → option Plugin)
    (ref : X → TrajectoryRef) (t : Instant) l p p' :
  (∀ p x p', f p x = Some p' → ∃ d, Append_at (ref x) t d p = Some p') →
  foldlM f p l = Some p' →
  shape p' = shape p ∧
  (∀ r, r ∉ ref <$> l → deref p' r = deref p r) ∧
  (∀ r, r ∈ ref <$> l →
     ∃ b τ d τ', deref p r = Some (b, τ) ∧ Append t d τ = Some τ' ∧
                 deref p' r = Some (b, τ')) ∧
  NoDup (ref <$> l).
Proof.
  intros Hf. revert p. induction l as [|x l IH]; intros p; simpl.
  - intros [= <-]. split; [done|]. split; [done|].
    split; [by intros r ?%elem_of_nil | constructor].
  - intros H. bind_inv H as p1 Hp1.
    apply Hf in Hp1 as [d Hp1].
    apply Append_at_Some in Hp1
      as (Hs1 & Hne1 & b & τ & τ' & Hd & Hτ' & Hd').
    apply IH in H as (Hs & Hout & Hin & Hnd).
    assert (ref x ∉ ref <$> l) as Hnotin.
    { intros (b2 & τ2 & d2 & τ2' & Hd2 & Hτ2 & _)%Hin.
      rewrite Hd' in Hd2. injection Hd2 as <- <-.
      apply Append_Some in Hτ2 as [_ Hlt].
      specialize (Hlt _ (Append_last _ _ _ _ Hτ')). simpl in Hlt. lia. }
    split; [congruence|]. split; [|split].
    + intros r [Hr1 Hr2]%not_elem_of_cons.
      rewrite Hout by done. by apply Hne1.
    + intros r [->|Hr]%elem_of_cons.
      * exists b, τ, d, τ'. rewrite Hout by done. done.
      * destruct (Hin _ Hr) as (b2 & τ2 & d2 & τ2' & Hd2 & Hτ2 & Hd2').
        exists b2, τ2, d2, τ2'. split; [|done].
        rewrite <- Hd2. symmetry. apply Hne1. by intros ->.
    + by constructor.
Qed.


Lemma fmap_snd_imap_pair {A} (l : list A) : (imap pair l).*2 = l.
Proof.
  rewrite fmap_imap. unfold compose. simpl.
  induction l as [|a l IH] using rev_ind; [done|].
  rewrite imap_app. simpl. by rewrite IH.
Qed.

(** The instant the histories or the prolongations reach. *)
Lemma Integrate_Some `{physics.Numerics} tmax Δt tmax_is_exact refs p p' :
  Integrate tmax Δt 0 tmax_is_exact refs p = Some p' →
  (refs = [] ∧ p' = p) ∨
  ∃ ref0 t0,
    head refs = Some ref0 ∧ last_time p ref0 = Some t0 ∧
    0 < Δt ∧ t0 ≤ tmax ∧
    let tf := final_instant t0 tmax Δt tmax_is_exact in
    shape p' = shape p ∧
    (∀ r, r ∉ refs → deref p' r = deref p r) ∧
    (∀ r, r ∈ refs →
       ∃ b τ d τ', deref p r = Some (b, τ) ∧ Append tf d τ = Some τ' ∧
                   deref p' r = Some (b, τ')) ∧
    NoDup refs.
Proof.
  unfold Integrate. intros Hi.
  bind_inv Hi as bodies_trajectories Hbt. bind_inv Hi as lasts Hlasts.
  destruct refs as [|ref0 refs].
  { left. simpl in Hbt. injection Hbt as <-. simpl in Hlasts.
    injection Hlasts as <-. by injection Hi as <-. }
  right. simpl in Hbt. bind_inv Hbt as bτ0 Hd0. bind_inv Hbt as bts Hbts.
  injection Hbt as <-. simpl in Hlasts.
  bind_inv Hlasts as s0 Hs0. bind_inv Hlasts as ls Hls.
  injection Hlasts as <-. destruct s0 as [t0 d0].
  check_inv Hi as Hcheck. apply andb_true_iff in Hcheck as [HΔ Ht0].
  apply bool_decide_eq_true in HΔ, Ht0.
  exists ref0, t0. split; [done|]. split.
  { unfold last_time. rewrite Hd0. simpl. by rewrite Hs0. }
  split; [done|]. split; [done|].
  cbn [emitted_instants foldlM] in Hi. bind_inv Hi as p1 Hp1.
  injection Hi as <-.
  eapply (pass_Some _ snd) in Hp1; [|by eauto].
  by rewrite fmap_snd_imap_pair in Hp1.
Qed.

(** ** The lists of trajectories handed to the integrator *)

Lemma elem_of_List_filter {A} (P : A → bool) (l : list A) (a : A) :
  a ∈ List.filter P l ↔ a ∈ l ∧ P a = true.
Proof. rewrite !list_elem_of_In. apply filter_In. Qed.

Lemma elem_of_map_refs `{Countable K} {A} (mk : K → TrajectoryRef)
    `{!Inj (=) (=) mk} (m : gmap K A) (k : K) :
  mk k ∈ (λ pair : K * A, mk pair.1) <$> map_to_list m ↔ is_Some (m !! k).
Proof.
  rewrite list_elem_of_fmap. split.
  - intros ([k' a] & Hk & Hin). simpl in Hk. apply (inj mk) in Hk as <-.
    apply elem_of_map_to_list in Hin. by exists a.
  - intros [a Ha]. exists (k, a). by rewrite elem_of_map_to_list.
Qed.

Lemma elem_of_filter_map_refs `{Countable K} {A} (mk : K → TrajectoryRef)
    `{!Inj (=) (=) mk} (P : K * A → bool) (m : gmap K A) (k : K) :
  mk k ∈ (λ pair : K * A, mk pair.1) <$> List.filter P (map_to_list m) ↔
  ∃ a, m !! k = Some a ∧ P (k, a) = true.
Proof.
  rewrite list_elem_of_fmap. split.
  - intros ([k' a] & Hk & Hin). simpl in Hk. apply (inj mk) in Hk as <-.
    apply elem_of_List_filter in Hin as [Hin HP].
    apply elem_of_map_to_list in Hin. by exists a.
  - intros (a & Ha & HP). exists (k, a). split; [done|].
    apply elem_of_List_filter. by rewrite elem_of_map_to_list.
Qed.

Lemma elem_of_filter_set_refs (mk : GUID → TrajectoryRef)
    `{!Inj (=) (=) mk} (P : GUID → bool) (s : gset GUID) (g : GUID) :
  mk g ∈ mk <$> List.filter P (elements s) ↔ g ∈ s ∧ P g = true.
Proof.
  rewrite list_elem_of_fmap. split.
  - intros (g' & Hg & Hin). apply (inj mk) in Hg as <-.
    apply elem_of_List_filter in Hin as [Hin HP].
    by apply elem_of_elements in Hin.
  - intros [Hin HP]. exists g. split; [done|].
    apply elem_of_List_filter. by rewrite elem_of_elements.
Qed.

Lemma elem_of_fmap_refs {A} (mk : A → TrajectoryRef) `{!Inj (=) (=) mk}
    (l : list A) (a : A) :
  mk a ∈ mk <$> l ↔ a ∈ l.
Proof.
  rewrite list_elem_of_fmap. split; [|by eauto].
  by intros (a' & Ha & Hin); apply (inj mk) in Ha as <-.
Qed.

#[local] Instance TrajectoryRef_eq_dec : EqDecision TrajectoryRef.
Proof. solve_decision. Defined.

#[local] Instance celestial_history_inj : Inj (=) (=) celestial_history.
Proof. by intros ?? [=]. Qed.
#[local] Instance celestial_prolongation_inj :
  Inj (=) (=) celestial_prolongation.
Proof. by intros ?? [=]. Qed.
#[local] Instance vessel_history_inj : Inj (=) (=) vessel_history.
Proof. by intros ?? [=]. Qed.
#[local] Instance vessel_prolongation_inj : Inj (=) (=) vessel_prolongation.
Proof. by intros ?? [=]. Qed.

(** Which kind of trajectory a reference names. *)
Definition is_history (ref : TrajectoryRef) : bool :=
  match ref with
  | celestial_history _ | vessel_history _ => true
  | _ => false
  end.

Lemma Forall_fmap_refs {A} (P : TrajectoryRef → Prop) (f : A → TrajectoryRef)
    (l : list A) :
  (∀ a, P (f a)) → Forall P (f <$> l).
Proof.
  intros HP. apply Forall_fmap, Forall_forall. intros a _. apply HP.
Qed.

Lemma PhysicsBubble_contains_vessels (g : GUID) (b : PhysicsBubble.t) :
  PhysicsBubble.contains g b = true ↔ g ∈ PhysicsBubble.vessels b.
Proof.
  unfold PhysicsBubble.contains, PhysicsBubble.vessels.
  destruct (PhysicsBubble.current_ b) as [s|].
  - rewrite bool_decide_eq_true, elem_of_dom, list_elem_of_fmap. split.
    + intros [parts Hg]. exists (g, parts). by rewrite elem_of_map_to_list.
    + intros ([g' parts] & -> & Hin). apply elem_of_map_to_list in Hin.
      by exists parts.
  - split; [done | by intros ?%elem_of_nil].
Qed.

Lemma PhysicsBubble_empty_contains (g : GUID) (b : PhysicsBubble.t) :
  PhysicsBubble.empty b = true → PhysicsBubble.contains g b = false.
Proof.
  unfold PhysicsBubble.empty, PhysicsBubble.contains.
  intros ->%bool_decide_eq_true. done.
Qed.

(** The views of a vessel and of a celestial the invariants speak of. *)
Definition history_time (v : Vessel.t) : option Instant :=
  τ ← Vessel.history v; s ← Trajectory_last τ; Some s.1.
Definition prolongation_time (v : Vessel.t) : option Instant :=
  τ ← Vessel.prolongation v; s ← Trajectory_last τ; Some s.1.
Definition celestial_history_time (c : Celestial.t) : option Instant :=
  τ ← Celestial.history c; s ← Trajectory_last τ; Some s.1.
Definition celestial_prolongation_time (c : Celestial.t) : option Instant :=
  τ ← Celestial.prolongation c; s ← Trajectory_last τ; Some s.1.


Lemma last_time_vessel_prolongation p g :
  last_time p (vessel_prolongation g) = vessels_ p !! g ≫= prolongation_time.
Proof.
  unfold last_time, prolongation_time; simpl.
  destruct (vessels_ p !! g) as [v|]; simpl; [|done].
  by destruct (Vessel.prolongation v).
Qed.

Lemma last_time_celestial_history p i :
  last_time p (celestial_history i)
    = celestials_ p !! i ≫= celestial_history_time.
Proof.
  unfold last_time, celestial_history_time; simpl.
  destruct (celestials_ p !! i) as [c|]; simpl; [|done].
  by destruct (Celestial.history c).
Qed.

Lemma last_time_celestial_prolongation p i :
  last_time p (celestial_prolongation i)
    = celestials_ p !! i ≫= celestial_prolongation_time.
Proof.
  unfold last_time, celestial_prolongation_time; simpl.
  destruct (celestials_ p !! i) as [c|]; simpl; [|done].
  by destruct (Celestial.prolongation c).
Qed.

Lemma HistoryTime_sun p :
  HistoryTime p = celestials_ p !! sun_ p ≫= celestial_history_time.
Proof. by rewrite HistoryTime_last_time, last_time_celestial_history. Qed.

(** What an appended reference and an untouched one say of [last_time]. *)
Lemma last_time_appended p p' r b τ t d τ' :
  deref p r = Some (b, τ) → Append t d τ = Some τ' →
  deref p' r = Some (b, τ') →
  last_time p' r = Some t ∧
  (∀ t0, last_time p r = Some t0 → t0 < t).
Proof.
  intros Hd Hτ' Hd'. unfold last_time. rewrite Hd, Hd'. simpl.
  rewrite (Append_last _ _ _ _ Hτ'). split; [done|].
  apply Append_Some in Hτ' as [_ Hlt].
  destruct (Trajectory_last τ) as [s|]; [|done].
  intros t0 [= <-]. by apply Hlt.
Qed.

Lemma last_time_frame p p' r :
  deref p' r = deref p r → last_time p' r = last_time p r.
Proof. unfold last_time. by intros ->. Qed.

(** [appended p p' ref t]: from [p] to [p'] the trajectory [ref] has
    received one point, at [t]. *)
Definition appended (p p' : Plugin) (ref : TrajectoryRef) (t : Instant)
  : Prop :=
  ∃ b τ d τ', deref p ref = Some (b, τ) ∧ Append t d τ = Some τ' ∧
              deref p' ref = Some (b, τ').

Lemma appended_last_time p p' r t :
  appended p p' r t →
  last_time p' r = Some t ∧ (∀ t0, last_time p r = Some t0 → t0 < t).
Proof. intros (b & τ & d & τ' & ? & ? & ?). by eapply last_time_appended. Qed.

Lemma appended_frame_l p0 p p' r t :
  deref p r = deref p0 r → appended p p' r t → appended p0 p' r t.
Proof. intros Heq (b & τ & d & τ' & ? & ? & ?). exists b, τ, d, τ'. by rewrite <- Heq. Qed.

Lemma appended_frame_r p p' p'' r t :
  deref p'' r = deref p' r → appended p p' r t → appended p p'' r t.
Proof. intros Heq (b & τ & d & τ' & ? & ? & ?). exists b, τ, d, τ'. by rewrite Heq. Qed.

(** The trajectories [EvolveProlongationsAndBubble] integrates. *)
Definition prolongation_refs (p : Plugin) : list TrajectoryRef :=
  ((λ pair : Index * Celestial.t, celestial_prolongation pair.1)
     <$> map_to_list (celestials_ p)) ++
  ((λ pair : GUID * Vessel.t, vessel_prolongation pair.1)
     <$> List.filter
           (λ pair : GUID * Vessel.t,
              negb (PhysicsBubble.contains pair.1 (bubble_ p)))
           (map_to_list (vessels_ p))) ++
  (if negb (PhysicsBubble.empty (bubble_ p))
   then [bubble_centre_of_mass_trajectory] else []).

Lemma elem_of_prolongation_refs p r :
  r ∈ prolongation_refs p ↔
  match r with
  | celestial_prolongation i => is_Some (celestials_ p !! i)
  | vessel_prolongation g =>
      is_Some (vessels_ p !! g) ∧ PhysicsBubble.contains g (bubble_ p) = false
  | bubble_centre_of_mass_trajectory => PhysicsBubble.empty (bubble_ p) = false
  | _ => False
  end.
Proof.
  unfold prolongation_refs. rewrite !elem_of_app.
  destruct r as [i|i|g|g|].
  - split; [|done]. intros [H|[H|H]].
    + by apply list_elem_of_fmap in H as (? & ? & _).
    + by apply list_elem_of_fmap in H as (? & ? & _).
    + destruct (negb _); [by apply list_elem_of_singleton in H|].
      by apply elem_of_nil in H.
  - rewrite (elem_of_map_refs celestial_prolongation). split; [|by left].
    intros [H|[H|H]]; [done|..].
    + by apply list_elem_of_fmap in H as (? & ? & _).
    + destruct (negb _); [by apply list_elem_of_singleton in H|].
      by apply elem_of_nil in H.
  - split; [|done]. intros [H|[H|H]].
    + by apply list_elem_of_fmap in H as (? & ? & _).
    + by apply list_elem_of_fmap in H as (? & ? & _).
    + destruct (negb _); [by apply list_elem_of_singleton in H|].
      by apply elem_of_nil in H.
  - rewrite (elem_of_filter_map_refs vessel_prolongation). simpl. split.
    + intros [H|[H|H]].
      * by apply list_elem_of_fmap in H as (? & ? & _).
      * destruct H as (v & Hv & Hc). split; [by eexists|].
        by apply negb_true_iff in Hc.
      * destruct (negb _); [by apply list_elem_of_singleton in H|].
        by apply elem_of_nil in H.
    + intros [[v Hv] Hc]. right; left. exists v. by rewrite Hc.
  - split.
    + intros [H|[H|H]].
      * by apply list_elem_of_fmap in H as (? & ? & _).
      * by apply list_elem_of_fmap in H as (? & ? & _).
      * destruct (PhysicsBubble.empty (bubble_ p)); [|done].
        by apply elem_of_nil in H.
    + intros ->. right; right. simpl. by apply list_elem_of_singleton.
Qed.

Section WithNumerics.

Context `{physics.Numerics} `{PhysicsBubble.Numerics}.

Lemma EvolveProlongationsAndBubble_unfold t p :
  EvolveProlongationsAndBubble t p =
    p ← Integrate t Δt_ 0 true (prolongation_refs p) p;
    if negb (PhysicsBubble.empty (bubble_ p)) then
      trajectory ← PhysicsBubble.centre_of_mass_trajectory (bubble_ p);
      last ← Trajectory_last trajectory;
      foldlM
        (λ p vessel,
           from_centre_of_mass ←
             PhysicsBubble.from_centre_of_mass vessel (bubble_ p);
           Append_at (vessel_prolongation vessel) t
                     (dof_plus last.2 from_centre_of_mass) p)
        p (PhysicsBubble.vessels (bubble_ p))
    else Some p.
Proof.
  unfold EvolveProlongationsAndBubble, prolongation_refs.
  destruct (negb (PhysicsBubble.empty (bubble_ p))); simpl.
  - by rewrite <- app_assoc.
  - by rewrite app_nil_r.
Qed.

(** After [EvolveProlongationsAndBubble] every prolongation, of a celestial
    or of a vessel, in the bubble or not, has received a point at [t], and
    no history has changed. *)
Lemma EvolveProlongationsAndBubble_Some t p p' :
  EvolveProlongationsAndBubble t p = Some p' →
  shape p' = shape p ∧
  (∀ i, deref p' (celestial_history i) = deref p (celestial_history i)) ∧
  (∀ g, deref p' (vessel_history g) = deref p (vessel_history g)) ∧
  (∀ i, is_Some (celestials_ p !! i) →
        appended p p' (celestial_prolongation i) t) ∧
  (∀ g, is_Some (vessels_ p !! g) →
        appended p p' (vessel_prolongation g) t).
Proof.
  rewrite EvolveProlongationsAndBubble_unfold. intros H1.
  bind_inv H1 as p1 HI.
  assert (shape p1 = shape p ∧
          (∀ r, r ∉ prolongation_refs p → deref p1 r = deref p r) ∧
          (∀ r, r ∈ prolongation_refs p → appended p p1 r t)) as (Hs1 & Hout1 & Hin1).
  { apply Integrate_Some in HI as [[Hnil ->]|(r0 & t0 & _ & _ & _ & _ & HI)].
    - split; [done|]. split; [done|]. rewrite Hnil. by intros r ?%elem_of_nil.
    - simpl in HI. destruct HI as (? & ? & ? & _). done. }
  clear HI.
  destruct (shape_fields _ _ Hs1) as (_ & _ & _ & Hb1 & _).
  destruct (bubble_shape_fields _ _ Hb1) as (Hempty & Hvessels & Hcontains & _).
  assert (shape p' = shape p1 ∧
          (∀ r, r ∉ vessel_prolongation <$> PhysicsBubble.vessels (bubble_ p) →
                deref p' r = deref p1 r) ∧
          (∀ r, r ∈ vessel_prolongation <$> PhysicsBubble.vessels (bubble_ p) →
                appended p1 p' r t)) as (Hs2 & Hout2 & Hin2).
  { rewrite <- Hvessels.
    destruct (negb (PhysicsBubble.empty (bubble_ p1))) eqn:He.
    - bind_inv H1 as trajectory Htr. bind_inv H1 as last Hlast.
      eapply (pass_Some _ vessel_prolongation) in H1.
      + destruct H1 as (? & ? & ? & _). done.
      + intros q x q' Hq. bind_inv Hq as fcom Hfcom. eauto.
    - injection H1 as <-. apply negb_false_iff in He.
      assert (PhysicsBubble.vessels (bubble_ p1) = []) as ->.
      { unfold PhysicsBubble.vessels, PhysicsBubble.empty in *.
        by apply bool_decide_eq_true in He as ->. }
      split; [done|]. split; [done|]. by intros r ?%elem_of_nil. }
  clear H1.
  split; [congruence|]. split; [|split; [|split]].
  - intros i. rewrite Hout2, Hout1; [done|..].
    + rewrite elem_of_prolongation_refs. tauto.
    + by intros (? & ? & _)%list_elem_of_fmap.
  - intros g. rewrite Hout2, Hout1; [done|..].
    + rewrite elem_of_prolongation_refs. tauto.
    + by intros (? & ? & _)%list_elem_of_fmap.
  - intros i Hi. eapply appended_frame_r.
    + apply Hout2. by intros (? & ? & _)%list_elem_of_fmap.
    + apply Hin1. by rewrite elem_of_prolongation_refs.
  - intros g Hg.
    destruct (PhysicsBubble.contains g (bubble_ p)) eqn:Hc.
    + eapply appended_frame_l.
      * apply Hout1. rewrite elem_of_prolongation_refs. rewrite Hc.
        by intros [_ ?].
      * apply Hin2. rewrite (elem_of_fmap_refs vessel_prolongation).
        by apply PhysicsBubble_contains_vessels.
    + eapply appended_frame_r.
      * apply Hout2. rewrite (elem_of_fmap_refs vessel_prolongation).
        rewrite <- PhysicsBubble_contains_vessels. by rewrite Hc.
      * apply Hin1. by rewrite elem_of_prolongation_refs.
Qed.

End WithNumerics.

(** The trajectories [EvolveHistories] integrates. *)
Definition history_refs (p : Plugin) : list TrajectoryRef :=
  ((λ pair : Index * Celestial.t, celestial_history pair.1)
     <$> map_to_list (celestials_ p)) ++
  ((λ pair : GUID * Vessel.t, vessel_history pair.1)
     <$> List.filter
           (λ pair : GUID * Vessel.t,
              Vessel.is_synchronized pair.2 &&
              negb (PhysicsBubble.contains pair.1 (bubble_ p)) &&
              negb (is_dirty pair.1 p))
           (map_to_list (vessels_ p))).

Lemma elem_of_history_refs p r :
  r ∈ history_refs p ↔
  match r with
  | celestial_history i => is_Some (celestials_ p !! i)
  | vessel_history g =>
      ∃ v, vessels_ p !! g = Some v ∧ Vessel.is_synchronized v = true ∧
           PhysicsBubble.contains g (bubble_ p) = false ∧
           g ∉ dirty_vessels_ p
  | _ => False
  end.
Proof.
  unfold history_refs. rewrite !elem_of_app.
  destruct r as [i|i|g|g|].
  - rewrite (elem_of_map_refs celestial_history). split; [|by left].
    intros [H|H]; [done|]. by apply list_elem_of_fmap in H as (? & ? & _).
  - split; [|done]. intros [H|H];
      by apply list_elem_of_fmap in H as (? & ? & _).
  - rewrite (elem_of_filter_map_refs vessel_history). simpl.
    unfold is_dirty. split.
    + intros [H|(v & Hv & HP)].
      * by apply list_elem_of_fmap in H as (? & ? & _).
      * apply andb_true_iff in HP as [HP Hd].
        apply andb_true_iff in HP as [Hs Hc].
        apply negb_true_iff in Hc, Hd. apply bool_decide_eq_false in Hd.
        by exists v.
    + intros (v & Hv & Hs & Hc & Hd). right. exists v. split; [done|].
      rewrite Hs, Hc. simpl. by rewrite bool_decide_eq_false_2.
  - split; [|done]. intros [H|H];
      by apply list_elem_of_fmap in H as (? & ? & _).
  - split; [|done]. intros [H|H];
      by apply list_elem_of_fmap in H as (? & ? & _).
Qed.

Lemma final_instant_false_bounds t0 tmax Δt :
  0 < Δt → t0 ≤ tmax →
  let tf := final_instant t0 tmax Δt false in
  t0 ≤ tf ∧ tf ≤ tmax ∧ tmax < tf + Δt ∧ (t0 + Δt ≤ tmax → t0 + Δt ≤ tf).
Proof.
  intros HΔ Ht. unfold final_instant. simpl.
  pose proof (Z.mul_div_le (tmax - t0) Δt HΔ).
  pose proof (Z.mul_succ_div_gt (tmax - t0) Δt HΔ).
  assert (0 ≤ (tmax - t0) / Δt) by (apply Z.div_pos; lia).
  split; [nia|]. split; [nia|]. split; [nia|].
  intros Hstep.
  assert (1 ≤ (tmax - t0) / Δt); [|nia].
  apply Z.div_le_lower_bound; lia.
Qed.

Section WithNumerics.

Context `{physics.Numerics} `{PhysicsBubble.Numerics}.

Lemma EvolveHistories_unfold t p :
  EvolveHistories t p =
    p ← Integrate t Δt_ 0 false (history_refs p) p;
    history_time ← HistoryTime p;
    CHECK (bool_decide (current_time_ p ≤ history_time));;
    Some p.
Proof. done. Qed.

(** After [EvolveHistories] the histories of the celestials and of the
    synchronized vessels that are neither in the bubble nor dirty have
    received a point at the new [HistoryTime()], a whole number of steps
    after the time they had, and nothing else has changed. *)
Lemma EvolveHistories_Some t p p' :
  EvolveHistories t p = Some p' →
  ∃ r0 t0 tf,
    r0 ∈ history_refs p ∧ last_time p r0 = Some t0 ∧ t0 ≤ t ∧
    tf = final_instant t0 t Δt_ false ∧
    shape p' = shape p ∧
    (∀ r, r ∉ history_refs p → deref p' r = deref p r) ∧
    (∀ r, r ∈ history_refs p → appended p p' r tf) ∧
    HistoryTime p' = Some tf ∧ current_time_ p ≤ tf.
Proof.
  rewrite EvolveHistories_unfold. intros H1.
  bind_inv H1 as p1 HI. bind_inv H1 as h Hh. check_inv H1 as Hc.
  injection H1 as <-. apply bool_decide_eq_true in Hc.
  apply Integrate_Some in HI
    as [[Hnil ->]|(r0 & t0 & Hhd & Ht0 & _ & Hle & Hs & Hout & Hin & _)].
  - exfalso. rewrite HistoryTime_sun in Hh.
    destruct (celestials_ p !! sun_ p) as [sun|] eqn:Hsun; [|done].
    assert (celestial_history (sun_ p) ∈ history_refs p) as Hin
      by (rewrite elem_of_history_refs; by eexists).
    rewrite Hnil in Hin. by apply elem_of_nil in Hin.
  - exists r0, t0, (final_instant t0 t Δt_ false).
    split; [by apply head_Some_elem_of|]. split; [done|]. split; [done|].
    split; [done|]. split; [done|]. split; [done|]. split; [done|].
    destruct (shape_fields _ _ Hs) as (_ & _ & _ & _ & _ & _ & Hct & Hsun).
    assert (HistoryTime p1 = Some (final_instant t0 t Δt_ false)) as Hh'.
    { rewrite HistoryTime_last_time in Hh.
      rewrite HistoryTime_last_time.
      destruct (decide (celestial_history (sun_ p1) ∈ history_refs p))
        as [Hi|Hi].
      + by destruct (appended_last_time _ _ _ _ (Hin _ Hi)) as [-> _].
      + exfalso. rewrite (last_time_frame _ _ _ (Hout _ Hi)) in Hh.
        apply Hi. rewrite elem_of_history_refs.
        rewrite last_time_celestial_history in Hh.
        by destruct (celestials_ p !! sun_ p1). }
    split; [done|]. rewrite Hh' in Hh. injection Hh as <-. by rewrite <- Hct.
Qed.

(** The states [AdvanceTime] goes through. *)
Lemma AdvanceTime_Some t planetarium_rotation p q :
  AdvanceTime t planetarium_rotation p = Some q →
  initializing_ p = false ∧ current_time_ p < t ∧
  ∃ p1 bubble history_time p5 p6,
    CleanUpVessels p = Some p1 ∧
    PhysicsBubble.Prepare (vessels_ p1) (PlanetariumRotation p1)
                          (current_time_ p1) t (bubble_ p1) = Some bubble ∧
    HistoryTime (set_bubble bubble p1) = Some history_time ∧
    (if bool_decide (Instant_plus history_time Δt_ < t) then
       ∃ p3 p4,
         EvolveHistories t (set_bubble bubble p1) = Some p3 ∧
         (if has_unsynchronized_vessels p3 || has_dirty_vessels p3 ||
             negb (PhysicsBubble.empty (bubble_ p3))
          then SynchronizeNewVesselsAndCleanDirtyVessels p3 = Some p4
          else p4 = p3) ∧
         ResetProlongations p4 = Some p5
     else p5 = set_bubble bubble p1) ∧
    EvolveProlongationsAndBubble t p5 = Some p6 ∧
    q = mkPlugin (vessels_ p6) (celestials_ p6) (unsynchronized_vessels_ p6)
                 (dirty_vessels_ p6) (kept_vessels_ p6) (bubble_ p6)
                 (initializing_ p6) planetarium_rotation t (sun_ p6).
Proof.
  unfold AdvanceTime. intros H1.
  check_inv H1 as Hi. check_inv H1 as Ht.
  apply negb_true_iff in Hi. apply bool_decide_eq_true in Ht.
  bind_inv H1 as p1 Hp1. bind_inv H1 as bubble Hb. bind_inv H1 as h Hh.
  bind_inv H1 as p5 Hp5. bind_inv H1 as p6 Hp6. injection H1 as <-.
  split; [done|]. split; [done|].
  exists p1, bubble, h, p5, p6. repeat split; try done.
  case_bool_decide.
  - bind_inv Hp5 as p3 Hp3. bind_inv Hp5 as p4 Hp4.
    exists p3, p4. split; [done|]. split; [|done].
    destruct (_ || _ || _); [done|]. by injection Hp4 as <-.
  - by injection Hp5 as <-.
Qed.

(** *** Loops over vessels *)

(** What a loop that updates vessels and the sets of vessels leaves
    alone. *)
Definition frame (p : Plugin) :=
  (celestials_ p, bubble_ p, kept_vessels_ p, initializing_ p,
   planetarium_rotation_ p, current_time_ p, sun_ p).

Lemma frame_fields p q :
  frame p = frame q →
  celestials_ p = celestials_ q ∧ bubble_ p = bubble_ q ∧
  kept_vessels_ p = kept_vessels_ q ∧ initializing_ p = initializing_ q ∧
  planetarium_rotation_ p = planetarium_rotation_ q ∧
  current_time_ p = current_time_ q ∧ sun_ p = sun_ q.
Proof. unfold frame. intros Hf. repeat split; congruence. Qed.

Lemma frame_HistoryTime p q : frame p = frame q → HistoryTime p = HistoryTime q.
Proof.
  intros (Hc & _ & _ & _ & _ & _ & Hs)%frame_fields.
  unfold HistoryTime. by rewrite Hc, Hs.
Qed.

Lemma foldlM_fmap {A B C} (f : A → C → option A) (g : B → C) a l :
  foldlM (λ a b, f a (g b)) a l = foldlM f a (g <$> l).
Proof.
  revert a. induction l as [|b l IH]; intros a; simpl; [done|].
  destruct (f a (g b)); simpl; [apply IH | done].
Qed.

(** A loop whose turn at the vessel [g] updates that vessel, as [R] says,
    and removes at most [g] from the sets of vessels. *)
Definition vessel_step (R : Plugin → GUID → Vessel.t → Vessel.t → Prop)
    (step : Plugin → GUID → option Plugin) : Prop :=
  ∀ p g p', step p g = Some p' →
    frame p' = frame p ∧
    (∀ g', g' ≠ g → vessels_ p' !! g' = vessels_ p !! g') ∧
    unsynchronized_vessels_ p' ⊆ unsynchronized_vessels_ p ∧
    unsynchronized_vessels_ p ∖ {[g]} ⊆ unsynchronized_vessels_ p' ∧
    dirty_vessels_ p' ⊆ dirty_vessels_ p ∧
    dirty_vessels_ p ∖ {[g]} ⊆ dirty_vessels_ p' ∧
    ∃ v v', vessels_ p !! g = Some v ∧ vessels_ p' !! g = Some v' ∧
            R p g v v'.

Lemma vessel_loop R step l p p' :
  vessel_step R step →
  (∀ p q g v v', frame p = frame q → R p g v v' → R q g v v') →
  NoDup l →
  foldlM step p l = Some p' →
  frame p' = frame p ∧
  (∀ g, g ∉ l → vessels_ p' !! g = vessels_ p !! g) ∧
  (∀ g, g ∈ l → ∃ v v', vessels_ p !! g = Some v ∧
                         vessels_ p' !! g = Some v' ∧ R p g v v') ∧
  unsynchronized_vessels_ p' ⊆ unsynchronized_vessels_ p ∧
  unsynchronized_vessels_ p ∖ list_to_set l ⊆ unsynchronized_vessels_ p' ∧
  dirty_vessels_ p' ⊆ dirty_vessels_ p ∧
  dirty_vessels_ p ∖ list_to_set l ⊆ dirty_vessels_ p'.
Proof.
  intros Hstep HR. revert p. induction l as [|g l IH]; intros p Hnd; simpl.
  - intros [= <-]. split; [done|]. split; [done|].
    split; [by intros g ?%elem_of_nil|]. set_solver.
  - intros H1. bind_inv H1 as p1 Hp1.
    apply NoDup_cons in Hnd as [Hg Hnd].
    apply Hstep in Hp1
      as (Hf1 & Hne1 & Hu1 & Hu1' & Hd1 & Hd1' & v & v' & Hv & Hv' & HRv).
    apply IH in H1 as (Hf & Hout & Hin & Hu & Hu' & Hd & Hd'); [|done].
    split; [congruence|]. split; [|split; [|repeat split]].
    + intros g' [Hne Hg']%not_elem_of_cons. rewrite Hout by done.
      by apply Hne1.
    + intros g' [->|Hg']%elem_of_cons.
      * exists v, v'. rewrite Hout by done. done.
      * destruct (Hin _ Hg') as (w & w' & Hw & Hw' & HRw).
        exists w, w'. split; [|split; [done|]].
        -- rewrite <- Hw. symmetry. apply Hne1. by intros ->.
        -- by eapply HR.
    + set_solver.
    + set_solver.
    + set_solver.
    + set_solver.
Qed.

Lemma Append_at_vessel_history g t d p p' :
  Append_at (vessel_history g) t d p = Some p' →
  ∃ parent h pr h',
    vessels_ p !! g = Some (Vessel.mk parent (Vessel.Synchronized h pr)) ∧
    Append t d h = Some h' ∧
    p' = set_vessels
           (<[g := Vessel.mk parent (Vessel.Synchronized h' pr)]> (vessels_ p))
           p.
Proof.
  unfold Append_at. intros H1.
  bind_inv H1 as bτ Hd. bind_inv H1 as h' Hh'. simpl in Hd, H1.
  bind_inv Hd as v Hv. bind_inv Hd as h Hh. injection Hd as <-.
  bind_inv H1 as v' Hv'. injection H1 as <-.
  unfold Vessel.history, Vessel.set_history in *.
  destruct v as [parent [|?|h0 pr]]; simplify_eq/=.
  by exists parent, h, pr, h'.
Qed.

(** *** Synchronization *)

(** The history of a vessel receives the point [(t, d)]: appended to the
    history if there is one, else the first point of a new history off
    which the prolongation is forked. *)
Definition history_extended (t : Instant) (d : DegreesOfFreedom)
    (v v' : Vessel.t) : Prop :=
  match Vessel.trajectories_ v with
  | Vessel.Synchronized h pr =>
      ∃ h', Append t d h = Some h' ∧
            v' = Vessel.mk (Vessel.parent_ v) (Vessel.Synchronized h' pr)
  | _ =>
      v' = Vessel.mk (Vessel.parent_ v)
             (Vessel.Synchronized (mkTrajectory None [(t, d)])
                                  (mkTrajectory (Some (t, d)) []))
  end.

Lemma history_extended_facts t d v v' :
  history_extended t d v v' →
  Vessel.parent_ v' = Vessel.parent_ v ∧
  Vessel.is_synchronized v' = true ∧
  history_time v' = Some t ∧
  (∀ t0, history_time v = Some t0 → t0 < t) ∧
  (Vessel.is_synchronized v = true →
   Vessel.prolongation v' = Vessel.prolongation v) ∧
  (Vessel.is_synchronized v = false → prolongation_time v' = Some t).
Proof.
  unfold history_extended, history_time, prolongation_time,
    Vessel.is_synchronized, Vessel.history, Vessel.prolongation.
  destruct v as [parent [|pr|h pr]]; simpl.
  - intros ->. simpl. by repeat split.
  - intros ->. simpl. by repeat split.
  - intros (h' & Hh' & ->). simpl.
    rewrite (Append_last _ _ _ _ Hh'). simpl. repeat split; try done.
    apply Append_Some in Hh' as [_ Hlt].
    destruct (Trajectory_last h) as [s|]; [|done]. simpl.
    intros t0 [= <-]. by apply Hlt.
Qed.

(** One turn of the loop of [SynchronizeBubbleHistories]. *)
Definition bubble_history_step (centre_of_mass : DegreesOfFreedom)
    (p : Plugin) (vessel : GUID) : option Plugin :=
  from_centre_of_mass ← PhysicsBubble.from_centre_of_mass vessel (bubble_ p);
  v ← vessels_ p !! vessel;
  history_time ← HistoryTime p;
  p ←
    (if Vessel.is_synchronized v then
       Append_at (vessel_history vessel) history_time
                 (dof_plus centre_of_mass from_centre_of_mass) p
     else
       v ← Vessel.CreateHistoryAndForkProlongation
             history_time (dof_plus centre_of_mass from_centre_of_mass) v;
       CHECK (bool_decide (vessel ∈ unsynchronized_vessels_ p));;
       Some (set_unsynchronized_vessels
               (unsynchronized_vessels_ p ∖ {[vessel]})
               (set_vessels (<[vessel := v]> (vessels_ p)) p)));
  CHECK (bool_decide (vessel ∈ dirty_vessels_ p));;
  Some (set_dirty_vessels (dirty_vessels_ p ∖ {[vessel]}) p).

Definition bubble_history_extended (centre_of_mass : DegreesOfFreedom)
    (p : Plugin) (g : GUID) (v v' : Vessel.t) : Prop :=
  ∃ history_time from_centre_of_mass,
    HistoryTime p = Some history_time ∧
    PhysicsBubble.from_centre_of_mass g (bubble_ p)
      = Some from_centre_of_mass ∧
    history_extended history_time
      (dof_plus centre_of_mass from_centre_of_mass) v v'.

Lemma bubble_history_step_spec centre_of_mass :
  vessel_step (bubble_history_extended centre_of_mass)
              (bubble_history_step centre_of_mass).
Proof.
  intros p g p'. unfold bubble_history_step. intros H1.
  bind_inv H1 as fcom Hfcom. bind_inv H1 as v Hv. bind_inv H1 as h Hh.
  bind_inv H1 as p1 Hp1. check_inv H1 as Hdirty. injection H1 as <-.
  destruct (Vessel.is_synchronized v) eqn:Hsync.
  - apply Append_at_vessel_history in Hp1
      as (parent & hist & pr & hist' & Hv1 & Hhist' & ->).
    simpl. split; [done|]. split; [by intros; rewrite lookup_insert_ne|].
    split; [done|]. split; [set_solver|]. split; [set_solver|].
    split; [done|]. rewrite Hv in Hv1. injection Hv1 as ->.
    eexists _, _. split; [done|]. rewrite lookup_insert_eq.
    split; [done|]. exists h, fcom. rewrite Hh, Hfcom.
    split; [done|]. split; [done|]. unfold history_extended. simpl.
    by exists hist'.
  - bind_inv Hp1 as v' Hv'. check_inv Hp1 as Hunsync. injection Hp1 as <-.
    apply Vessel_CreateHistoryAndForkProlongation_Some in Hv' as [_ ->].
    simpl. split; [done|]. split; [by intros; rewrite lookup_insert_ne|].
    split; [set_solver|]. split; [done|]. split; [set_solver|].
    split; [done|].
    eexists _, _. split; [done|]. rewrite lookup_insert_eq.
    split; [done|]. exists h, fcom. rewrite Hfcom.
    split; [done|]. split; [done|]. unfold history_extended.
    by destruct v as [? []].
Qed.

Lemma bubble_history_extended_frame centre_of_mass p q g v v' :
  frame p = frame q →
  bubble_history_extended centre_of_mass p g v v' →
  bubble_history_extended centre_of_mass q g v v'.
Proof.
  intros Hf (h & fcom & Hh & Hfcom & He). exists h, fcom.
  rewrite <- (frame_HistoryTime _ _ Hf).
  destruct (frame_fields _ _ Hf) as (_ & <- & _). done.
Qed.

(** One turn of the loop over [unsynchronized_vessels_], and of the loop
    over [dirty_vessels_], of
    [SynchronizeNewVesselsAndCleanDirtyVessels]. *)
Definition new_vessel_step (p : Plugin) (vessel : GUID) : option Plugin :=
  CHECK (negb (PhysicsBubble.contains vessel (bubble_ p)));;
  v ← vessels_ p !! vessel;
  history_time ← HistoryTime p;
  prolongation ← Vessel.prolongation v;
  last ← Trajectory_last prolongation;
  v ← Vessel.CreateHistoryAndForkProlongation history_time last.2 v;
  Some (set_dirty_vessels (dirty_vessels_ p ∖ {[vessel]})
          (set_vessels (<[vessel := v]> (vessels_ p)) p)).

Definition dirty_vessel_step (p : Plugin) (vessel : GUID) : option Plugin :=
  CHECK (negb (PhysicsBubble.contains vessel (bubble_ p)));;
  v ← vessels_ p !! vessel;
  history_time ← HistoryTime p;
  prolongation ← Vessel.prolongation v;
  last ← Trajectory_last prolongation;
  Append_at (vessel_history vessel) history_time last.2 p.

(** The history receives the last point of the prolongation, at
    [HistoryTime()]. *)
Definition tail_appended (synchronized : bool) (p : Plugin) (g : GUID)
    (v v' : Vessel.t) : Prop :=
  PhysicsBubble.contains g (bubble_ p) = false ∧
  Vessel.is_synchronized v = synchronized ∧
  ∃ history_time prolongation last,
    HistoryTime p = Some history_time ∧
    Vessel.prolongation v = Some prolongation ∧
    Trajectory_last prolongation = Some last ∧
    history_extended history_time last.2 v v'.

Lemma new_vessel_step_spec : vessel_step (tail_appended false) new_vessel_step.
Proof.
  intros p g p'. unfold new_vessel_step. intros H1.
  check_inv H1 as Hc. apply negb_true_iff in Hc.
  bind_inv H1 as v Hv. bind_inv H1 as h Hh. bind_inv H1 as pr Hpr.
  bind_inv H1 as last Hlast. bind_inv H1 as v' Hv'. injection H1 as <-.
  apply Vessel_CreateHistoryAndForkProlongation_Some in Hv' as [Hsync ->].
  simpl. split; [done|]. split; [by intros; rewrite lookup_insert_ne|].
  split; [done|]. split; [set_solver|]. split; [set_solver|].
  split; [done|].
  eexists _, _. split; [done|]. rewrite lookup_insert_eq.
  split; [done|]. split; [done|]. split; [done|].
  exists h, pr, last. repeat split; try done.
  unfold history_extended. by destruct v as [? []].
Qed.

Lemma dirty_vessel_step_spec : vessel_step (tail_appended true) dirty_vessel_step.
Proof.
  intros p g p'. unfold dirty_vessel_step. intros H1.
  check_inv H1 as Hc. apply negb_true_iff in Hc.
  bind_inv H1 as v Hv. bind_inv H1 as h Hh. bind_inv H1 as pr Hpr.
  bind_inv H1 as last Hlast.
  apply Append_at_vessel_history in H1
    as (parent & hist & pr' & hist' & Hv1 & Hhist' & ->).
  rewrite Hv in Hv1. injection Hv1 as ->.
  simpl. split; [done|]. split; [by intros; rewrite lookup_insert_ne|].
  split; [done|]. split; [set_solver|]. split; [done|].
  split; [set_solver|].
  eexists _, _. split; [done|]. rewrite lookup_insert_eq.
  split; [done|]. split; [done|]. split; [done|].
  exists h, pr, last. rewrite Hh. repeat split; try done.
  unfold history_extended. simpl. by exists hist'.
Qed.

Lemma tail_appended_frame synchronized p q g v v' :
  frame p = frame q →
  tail_appended synchronized p g v v' → tail_appended synchronized q g v v'.
Proof.
  intros Hf (Hc & Hs & h & pr & last & Hh & Hrest).
  rewrite (frame_HistoryTime _ _ Hf) in Hh.
  destruct (frame_fields _ _ Hf) as (_ & Hb & _). rewrite Hb in Hc.
  split; [done|]. split; [done|]. by exists h, pr, last.
Qed.

(** The trajectories [SynchronizeNewVesselsAndCleanDirtyVessels]
    integrates up to [HistoryTime()]. *)
Definition synchronization_refs (p : Plugin) : list TrajectoryRef :=
  ((λ pair : Index * Celestial.t, celestial_prolongation pair.1)
     <$> map_to_list (celestials_ p)) ++
  (vessel_prolongation
     <$> List.filter
           (λ vessel, negb (PhysicsBubble.contains vessel (bubble_ p)))
           (elements (unsynchronized_vessels_ p))) ++
  (vessel_prolongation
     <$> List.filter
           (λ vessel,
              negb (PhysicsBubble.contains vessel (bubble_ p)) &&
              from_option Vessel.is_synchronized false (vessels_ p !! vessel))
           (elements (dirty_vessels_ p))) ++
  (if negb (PhysicsBubble.empty (bubble_ p))
   then [bubble_centre_of_mass_trajectory] else []).

Lemma SynchronizeBubbleHistories_unfold p :
  SynchronizeBubbleHistories p =
    trajectory ← PhysicsBubble.centre_of_mass_trajectory (bubble_ p);
    last ← Trajectory_last trajectory;
    foldlM (bubble_history_step last.2) p (PhysicsBubble.vessels (bubble_ p)).
Proof. done. Qed.

Lemma SynchronizeNewVesselsAndCleanDirtyVessels_unfold p :
  SynchronizeNewVesselsAndCleanDirtyVessels p =
    history_time ← HistoryTime p;
    p ← Integrate history_time Δt_ 0 true (synchronization_refs p) p;
    p ← (if negb (PhysicsBubble.empty (bubble_ p))
         then SynchronizeBubbleHistories p else Some p);
    p ← foldlM new_vessel_step p (elements (unsynchronized_vessels_ p));
    p ← foldlM dirty_vessel_step (set_unsynchronized_vessels ∅ p)
               (elements (dirty_vessels_ (set_unsynchronized_vessels ∅ p)));
    Some (set_dirty_vessels ∅ p).
Proof.
  unfold SynchronizeNewVesselsAndCleanDirtyVessels, synchronization_refs.
  destruct (negb (PhysicsBubble.empty (bubble_ p))); simpl.
  - by rewrite <- !app_assoc.
  - by rewrite !app_nil_r, <- !app_assoc.
Qed.

Lemma not_elem_of_synchronization_refs_history p i g :
  (celestial_history i ∉ synchronization_refs p) ∧
  (vessel_history g ∉ synchronization_refs p).
Proof.
  unfold synchronization_refs. rewrite !elem_of_app.
  split; intros [Hi|[Hi|[Hi|Hi]]];
    try (by apply list_elem_of_fmap in Hi as (? & ? & _));
    (destruct (negb _); [by apply list_elem_of_singleton in Hi|];
     by apply elem_of_nil in Hi).
Qed.

(** What [SynchronizeNewVesselsAndCleanDirtyVessels] does to a vessel,
    from the state [q] reached by its integration: nothing, or it extends
    the history from the centre of mass of the bubble, or with the last
    point of the prolongation. *)
Definition synchronized_from (p q : Plugin) (history_time : Instant)
    (g : GUID) (v v' : Vessel.t) : Prop :=
  (v' = v ∧ (g ∉ unsynchronized_vessels_ p) ∧ (g ∉ dirty_vessels_ p) ∧
   PhysicsBubble.contains g (bubble_ p) = false) ∨
  (PhysicsBubble.contains g (bubble_ p) = true ∧
   ∃ trajectory last from_centre_of_mass,
     PhysicsBubble.centre_of_mass_trajectory (bubble_ q) = Some trajectory ∧
     Trajectory_last trajectory = Some last ∧
     PhysicsBubble.from_centre_of_mass g (bubble_ q)
       = Some from_centre_of_mass ∧
     history_extended history_time (dof_plus last.2 from_centre_of_mass)
                      v v') ∨
  (PhysicsBubble.contains g (bubble_ p) = false ∧
   (if Vessel.is_synchronized v then g ∈ dirty_vessels_ p
    else g ∈ unsynchronized_vessels_ p) ∧
   ∃ prolongation last,
     Vessel.prolongation v = Some prolongation ∧
     Trajectory_last prolongation = Some last ∧
     history_extended history_time last.2 v v').

Lemma SynchronizeNewVesselsAndCleanDirtyVessels_Some p p' :
  SynchronizeNewVesselsAndCleanDirtyVessels p = Some p' →
  ∃ history_time q,
    HistoryTime p = Some history_time ∧
    Integrate history_time Δt_ 0 true (synchronization_refs p) p = Some q ∧
    shape q = shape p ∧ HistoryTime q = Some history_time ∧
    frame p' = frame q ∧
    unsynchronized_vessels_ p' = ∅ ∧ dirty_vessels_ p' = ∅ ∧
    (∀ g, vessels_ q !! g = None → vessels_ p' !! g = None) ∧
    (∀ g v, vessels_ q !! g = Some v →
       ∃ v', vessels_ p' !! g = Some v' ∧
             synchronized_from p q history_time g v v').
Proof.
  rewrite SynchronizeNewVesselsAndCleanDirtyVessels_unfold. intros H1.
  bind_inv H1 as h Hh. bind_inv H1 as q Hq. bind_inv H1 as pB HpB.
  bind_inv H1 as pU HpU. bind_inv H1 as pD HpD. injection H1 as <-.
  exists h, q. split; [done|]. split; [done|].
  assert (shape q = shape p ∧ HistoryTime q = Some h) as [Hsq Hhq].
  { apply Integrate_Some in Hq as Hq'.
    destruct Hq' as [[_ ->]|(r0 & t0 & _ & _ & _ & _ & Hsq & Hout & _)];
      [done|].
    split; [done|]. rewrite <- Hh.
    destruct (shape_fields _ _ Hsq) as (_ & _ & _ & _ & _ & _ & _ & Hsun).
    rewrite !HistoryTime_last_time, Hsun. apply last_time_frame, Hout.
    apply not_elem_of_synchronization_refs_history; exact "". }
  split; [done|]. split; [done|].
  destruct (shape_fields _ _ Hsq) as (Hunsync & Hdirty & _ & Hbs & _).
  destruct (bubble_shape_fields _ _ Hbs) as (_ & _ & Hcontains & _).
  (* The bubble. *)
  set (B := PhysicsBubble.vessels (bubble_ q)).
  assert (frame pB = frame q ∧
          (∀ g, g ∉ B → vessels_ pB !! g = vessels_ q !! g) ∧
          (∀ g, g ∈ B → ∃ v v' trajectory last,
                vessels_ q !! g = Some v ∧ vessels_ pB !! g = Some v' ∧
                PhysicsBubble.centre_of_mass_trajectory (bubble_ q)
                  = Some trajectory ∧
                Trajectory_last trajectory = Some last ∧
                bubble_history_extended last.2 q g v v') ∧
          unsynchronized_vessels_ pB ⊆ unsynchronized_vessels_ q ∧
          unsynchronized_vessels_ q ∖ list_to_set B
            ⊆ unsynchronized_vessels_ pB ∧
          dirty_vessels_ pB ⊆ dirty_vessels_ q ∧
          dirty_vessels_ q ∖ list_to_set B ⊆ dirty_vessels_ pB)
    as (HfB & HoutB & HinB & HuB & HuB' & HdB & HdB').
  { destruct (negb (PhysicsBubble.empty (bubble_ q))) eqn:He.
    - rewrite SynchronizeBubbleHistories_unfold in HpB.
      bind_inv HpB as trajectory Htr. bind_inv HpB as last Hlast.
      eapply vessel_loop in HpB as (Hf & Hout & Hin & Hsets);
        [|apply bubble_history_step_spec
         |by intros; eapply bubble_history_extended_frame
         |apply NoDup_fst_map_to_list || idtac].
      + split; [done|]. split; [done|]. split; [|done].
        intros g Hg. destruct (Hin g Hg) as (v & v' & ? & ? & ?).
        by exists v, v', trajectory, last.
      + unfold PhysicsBubble.vessels.
        destruct (PhysicsBubble.current_ (bubble_ q));
          [apply NoDup_fst_map_to_list | constructor].
    - injection HpB as <-. apply negb_false_iff in He.
      assert (B = []) as ->.
      { unfold B, PhysicsBubble.vessels, PhysicsBubble.empty in *.
        by apply bool_decide_eq_true in He as ->. }
      split; [done|]. split; [done|].
      split; [by intros g ?%elem_of_nil|]. set_solver. }
  clear HpB.
  (* The new vessels. *)
  eapply vessel_loop in HpU
    as (HfU & HoutU & HinU & HuU & HuU' & HdU & HdU');
    [|apply new_vessel_step_spec
     |by intros; eapply tail_appended_frame
     |apply NoDup_elements].
  (* The dirty vessels. *)
  eapply vessel_loop in HpD
    as (HfD & HoutD & HinD & HuD & HuD' & HdD & HdD');
    [|apply dirty_vessel_step_spec
     |by intros; eapply tail_appended_frame
     |apply NoDup_elements].
  assert (frame pD = frame q) as HfDq.
  { etrans; [exact HfD|]. etrans; [|exact HfB]. etrans; [|exact HfU]. done. }
  simpl in *.
  split; [exact HfDq|]. split; [set_solver|]. split; [done|].
  destruct (frame_fields _ _ HfB) as (_ & HbB & _).
  destruct (frame_fields _ _ HfU) as (_ & HbU & _).
  assert (∀ g, vessels_ q !! g = vessels_ pB !! g ∨
               ∃ v v', vessels_ q !! g = Some v ∧ vessels_ pB !! g = Some v')
    as HcaseB.
  { intros g. destruct (decide (g ∈ B)) as [Hg|Hg].
    - right. destruct (HinB g Hg) as (v & v' & _ & _ & ? & ? & _).
      by exists v, v'.
    - left. symmetry. by apply HoutB. }
  split.
  { intros g Hg.
    assert (vessels_ pB !! g = None) as HgB.
    { destruct (HcaseB g) as [<-|(v & v' & Hv & _)]; congruence. }
    assert (vessels_ pU !! g = None) as HgU.
    { destruct (decide (g ∈ elements (unsynchronized_vessels_ pB))) as [Hi|Hi].
      - destruct (HinU g Hi) as (v & v' & Hv & _). congruence.
      - by rewrite HoutU. }
    destruct (decide (g ∈ elements (dirty_vessels_ pU))) as [Hi|Hi].
    - destruct (HinD g Hi) as (v & v' & Hv & _). simpl in Hv. congruence.
    - by rewrite HoutD. }
  intros g v Hv.
  assert (HistoryTime pB = Some h) as HhB'
    by (by rewrite (frame_HistoryTime _ _ HfB)).
  assert (HistoryTime (set_unsynchronized_vessels ∅ pU) = Some h) as HhU'.
  { rewrite <- HhB', <- (frame_HistoryTime _ _ HfU). done. }
  assert (∀ w w' : Vessel.t, ∀ d,
            history_time w = Some h → history_extended h d w w' → False)
    as Htwice.
  { intros w w' d Hw (_ & _ & _ & Hlt & _)%history_extended_facts.
    specialize (Hlt _ Hw). lia. }
  (* A vessel touched once is not touched again. *)
  assert (∀ w, vessels_ pU !! g = Some w → history_time w = Some h →
               vessels_ pD !! g = Some w) as HkeepD.
  { intros w Hw Hhw.
    destruct (decide (g ∈ elements (dirty_vessels_ pU))) as [Hi|Hi].
    - destruct (HinD g Hi)
        as (w1 & w2 & Hw1 & _ & _ & _ & hD & pr & lastD & HhD & _ & _ & He).
      simpl in Hw1. rewrite Hw in Hw1. injection Hw1 as <-.
      rewrite HhU' in HhD. injection HhD as <-.
      by destruct (Htwice _ _ _ Hhw He).
    - rewrite HoutD by done. done. }
  destruct (decide (g ∈ B)) as [HgB|HgB].
  - (* In the bubble. *)
    destruct (HinB g HgB)
      as (v0 & vB & trajectory & last & Hv0 & HvB & Htr & Hlast
          & hB & fcom & HhB & Hfcom & He).
    rewrite Hv in Hv0. injection Hv0 as <-.
    rewrite Hhq in HhB. injection HhB as <-.
    assert (PhysicsBubble.contains g (bubble_ q) = true) as Hc
      by (by apply PhysicsBubble_contains_vessels).
    destruct (history_extended_facts _ _ _ _ He) as (_ & _ & HhvB & _).
    assert (vessels_ pU !! g = Some vB) as HvU.
    { destruct (decide (g ∈ elements (unsynchronized_vessels_ pB))) as [Hi|Hi].
      - destruct (HinU g Hi) as (w1 & w2 & _ & _ & Hc' & _).
        rewrite HbB in Hc'. congruence.
      - by rewrite HoutU. }
    exists vB. split; [by apply HkeepD|].
    right; left. rewrite <- Hcontains. split; [done|].
    by exists trajectory, last, fcom.
  - (* Not in the bubble. *)
    assert (PhysicsBubble.contains g (bubble_ q) = false) as Hc.
    { destruct (PhysicsBubble.contains g (bubble_ q)) eqn:Hc; [|done].
      by apply PhysicsBubble_contains_vessels in Hc. }
    assert (vessels_ pB !! g = Some v) as HvB by (by rewrite HoutB).
    destruct (decide (g ∈ elements (unsynchronized_vessels_ pB))) as [HgU|HgU].
    + destruct (HinU g HgU)
        as (w1 & vU & Hw1 & HvU & _ & Hsync & hU & pr & lastU & HhU & Hpr
            & HlastU & He).
      rewrite HvB in Hw1. injection Hw1 as <-.
      rewrite HhB' in HhU. injection HhU as <-.
      destruct (history_extended_facts _ _ _ _ He) as (_ & _ & HhvU & _).
      exists vU. split; [by apply HkeepD|].
      right; right. rewrite <- Hcontains. split; [done|]. rewrite Hsync.
      split; [|by exists pr, lastU].
      apply elem_of_elements in HgU. set_solver.
    + assert (vessels_ pU !! g = Some v) as HvU by (by rewrite HoutU).
      destruct (decide (g ∈ elements (dirty_vessels_ pU))) as [HgD|HgD].
      * destruct (HinD g HgD)
          as (w1 & vD & Hw1 & HvD & _ & Hsync & hD & pr & lastD & HhD & Hpr
              & HlastD & He).
        simpl in Hw1. rewrite HvU in Hw1. injection Hw1 as <-.
        rewrite HhU' in HhD. injection HhD as <-.
        exists vD. split; [done|].
        right; right. rewrite <- Hcontains. split; [done|]. rewrite Hsync.
        split; [|by exists pr, lastD].
        apply elem_of_elements in HgD. set_solver.
      * exists v. split; [by rewrite HoutD|]. left. split; [done|].
        rewrite <- Hcontains.
        rewrite elem_of_elements in HgU, HgD.
        assert (g ∉ (list_to_set B : gset GUID)) as HgB'
          by (by rewrite elem_of_list_to_set).
        assert (list_to_set (elements (unsynchronized_vessels_ pB))
                  = unsynchronized_vessels_ pB) as HeqU
          by apply list_to_set_elements_L.
        rewrite HeqU in HdU'.
        split; [set_solver|]. split; [|done]. set_solver.
Qed.

(** *** Resetting the prolongations *)

Definition vessel_reset_step (p : Plugin) (g : GUID) : option Plugin :=
  v ← vessels_ p !! g;
  history_time ← HistoryTime p;
  v ← Vessel.ResetProlongation history_time v;
  Some (set_vessels (<[g := v]> (vessels_ p)) p).

Definition celestial_reset_step (p : Plugin) (i : Index) : option Plugin :=
  c ← celestials_ p !! i;
  history_time ← HistoryTime p;
  c ← Celestial.ResetProlongation history_time c;
  Some (set_celestials (<[i := c]> (celestials_ p)) p).

Lemma ResetProlongations_unfold p :
  ResetProlongations p =
    p ← foldlM vessel_reset_step p (map_to_list (vessels_ p)).*1;
    foldlM celestial_reset_step p (map_to_list (celestials_ p)).*1.
Proof.
  unfold ResetProlongations.
  rewrite <- (foldlM_fmap vessel_reset_step fst).
  destruct (foldlM _ p (map_to_list (vessels_ p))) as [p1|]; simpl; [|done].
  by rewrite <- (foldlM_fmap celestial_reset_step fst).
Qed.

(** The prolongation of a vessel is forked anew at [HistoryTime()]. *)
Definition vessel_reset (p : Plugin) (g : GUID) (v v' : Vessel.t) : Prop :=
  ∃ history_time h pr d,
    HistoryTime p = Some history_time ∧
    Vessel.trajectories_ v = Vessel.Synchronized h pr ∧
    Trajectory_find history_time h = Some d ∧
    v' = Vessel.mk (Vessel.parent_ v)
           (Vessel.Synchronized h (mkTrajectory (Some (history_time, d)) [])).

Definition celestial_reset (history_time : Instant) (c c' : Celestial.t)
  : Prop :=
  ∃ h d,
    Celestial.history_ c = Some h ∧
    Trajectory_find history_time h = Some d ∧
    c' = Celestial.mk (Celestial.body_ c) (Celestial.parent_ c) (Some h)
           (Some (mkTrajectory (Some (history_time, d)) [])).

Lemma vessel_reset_step_spec : vessel_step vessel_reset vessel_reset_step.
Proof.
  intros p g p'. unfold vessel_reset_step. intros H1.
  bind_inv H1 as v Hv. bind_inv H1 as h Hh. bind_inv H1 as v' Hv'.
  injection H1 as <-. simpl.
  split; [done|]. split; [by intros; rewrite lookup_insert_ne|].
  split; [done|]. split; [set_solver|]. split; [done|]. split; [set_solver|].
  exists v, v'. split; [done|]. rewrite lookup_insert_eq. split; [done|].
  unfold Vessel.ResetProlongation, Vessel.history in Hv'.
  destruct v as [parent [|?|hist pr]]; simplify_eq/=.
  bind_inv Hv' as pr' Hpr'. injection Hv' as <-.
  apply Fork_Some in Hpr' as (d & Hd & ->).
  by exists h, hist, pr, d.
Qed.

Lemma vessel_reset_frame p q g v v' :
  frame p = frame q → vessel_reset p g v v' → vessel_reset q g v v'.
Proof.
  intros Hf (h & hist & pr & d & Hh & Hrest).
  rewrite (frame_HistoryTime _ _ Hf) in Hh. by exists h, hist, pr, d.
Qed.

Lemma celestial_reset_step_Some p i p' :
  celestial_reset_step p i = Some p' →
  ∃ c c' history_time,
    celestials_ p !! i = Some c ∧ HistoryTime p = Some history_time ∧
    celestial_reset history_time c c' ∧
    p' = set_celestials (<[i := c']> (celestials_ p)) p.
Proof.
  unfold celestial_reset_step. intros H1.
  bind_inv H1 as c Hc. bind_inv H1 as h Hh. bind_inv H1 as c' Hc'.
  injection H1 as <-. exists c, c', h. split; [done|]. split; [done|].
  split; [|done]. unfold Celestial.ResetProlongation in Hc'.
  bind_inv Hc' as hist Hhist. bind_inv Hc' as pr Hpr.
  bind_inv Hc' as pr' Hpr'. injection Hc' as <-.
  apply Fork_Some in Hpr' as (d & Hd & ->). by exists hist, d.
Qed.

Lemma celestial_reset_HistoryTime p i c c' history_time :
  celestials_ p !! i = Some c → celestial_reset history_time c c' →
  HistoryTime (set_celestials (<[i := c']> (celestials_ p)) p) = HistoryTime p.
Proof.
  intros Hc (hist & d & Hhist & _ & ->). unfold HistoryTime. simpl.
  destruct (decide (i = sun_ p)) as [->|Hne].
  - rewrite lookup_insert_eq, Hc. simpl.
    unfold Celestial.history. simpl. by rewrite Hhist.
  - by rewrite lookup_insert_ne.
Qed.

Lemma celestial_reset_loop l p p' :
  NoDup l →
  foldlM celestial_reset_step p l = Some p' →
  vessels_ p' = vessels_ p ∧
  unsynchronized_vessels_ p' = unsynchronized_vessels_ p ∧
  dirty_vessels_ p' = dirty_vessels_ p ∧
  kept_vessels_ p' = kept_vessels_ p ∧ bubble_ p' = bubble_ p ∧
  initializing_ p' = initializing_ p ∧
  planetarium_rotation_ p' = planetarium_rotation_ p ∧
  current_time_ p' = current_time_ p ∧ sun_ p' = sun_ p ∧
  HistoryTime p' = HistoryTime p ∧
  (∀ i, i ∉ l → celestials_ p' !! i = celestials_ p !! i) ∧
  (∀ i, i ∈ l → ∃ c c' history_time,
        celestials_ p !! i = Some c ∧ HistoryTime p = Some history_time ∧
        celestial_reset history_time c c' ∧ celestials_ p' !! i = Some c').
Proof.
  revert p. induction l as [|i l IH]; intros p Hnd; simpl.
  - intros [= <-]. repeat split; try done. by intros i ?%elem_of_nil.
  - intros H1. bind_inv H1 as p1 Hp1.
    apply NoDup_cons in Hnd as [Hi Hnd].
    apply celestial_reset_step_Some in Hp1 as (c & c' & h & Hc & Hh & Hr & ->).
    apply IH in H1
      as (Hv & Hu & Hd & Hk & Hb & Hin & Hpr & Hct & Hs & HH & Hout & Hin');
      [|done].
    simpl in *. rewrite (celestial_reset_HistoryTime _ _ _ _ _ Hc Hr) in HH.
    repeat split; try done.
    + intros j [Hne Hj]%not_elem_of_cons. rewrite Hout by done.
      by rewrite lookup_insert_ne.
    + intros j [->|Hj]%elem_of_cons.
      * exists c, c', h. rewrite Hout by done.
        by rewrite lookup_insert_eq.
      * destruct (Hin' j Hj) as (cj & cj' & hj & Hcj & Hhj & Hrj & Hcj').
        rewrite (celestial_reset_HistoryTime _ _ _ _ _ Hc Hr) in Hhj.
        exists cj, cj', hj. rewrite lookup_insert_ne in Hcj; [done|].
        by intros ->.
Qed.

Lemma foldlM_preserves {A B} (P : A → Prop) (f : A → B → option A) a l a' :
  (∀ a b a', f a b = Some a' → P a → P a') →
  P a → foldlM f a l = Some a' → P a'.
Proof.
  intros Hf. revert a. induction l as [|b l IH]; intros a Ha; simpl.
  - by intros [= <-].
  - intros H1. bind_inv H1 as a1 Ha1. eapply IH; [|done]. by eapply Hf.
Qed.

Lemma elem_of_keys `{Countable K} {A} (m : gmap K A) (k : K) :
  k ∈ (map_to_list m).*1 ↔ is_Some (m !! k).
Proof.
  rewrite list_elem_of_fmap. split.
  - intros ([k' a] & -> & Hin). apply elem_of_map_to_list in Hin. by exists a.
  - intros [a Hk]. exists (k, a). by rewrite elem_of_map_to_list.
Qed.

(** After [ResetProlongations] every vessel and every celestial has its
    history, untouched, and a prolongation forked at [HistoryTime()]. *)
Lemma ResetProlongations_Some p p' :
  ResetProlongations p = Some p' →
  unsynchronized_vessels_ p' = unsynchronized_vessels_ p ∧
  dirty_vessels_ p' = dirty_vessels_ p ∧
  kept_vessels_ p' = kept_vessels_ p ∧ bubble_ p' = bubble_ p ∧
  initializing_ p' = initializing_ p ∧
  planetarium_rotation_ p' = planetarium_rotation_ p ∧
  current_time_ p' = current_time_ p ∧ sun_ p' = sun_ p ∧
  HistoryTime p' = HistoryTime p ∧
  (∀ g, vessels_ p !! g = None → vessels_ p' !! g = None) ∧
  (∀ g v, vessels_ p !! g = Some v →
          ∃ v', vessels_ p' !! g = Some v' ∧ vessel_reset p g v v') ∧
  (∀ i, celestials_ p !! i = None → celestials_ p' !! i = None) ∧
  (∀ i c, celestials_ p !! i = Some c →
          ∃ c' history_time,
            HistoryTime p = Some history_time ∧
            celestials_ p' !! i = Some c' ∧
            celestial_reset history_time c c').
Proof.
  rewrite ResetProlongations_unfold. intros H1. bind_inv H1 as p1 Hp1.
  assert (unsynchronized_vessels_ p1 = unsynchronized_vessels_ p ∧
          dirty_vessels_ p1 = dirty_vessels_ p) as [Hu1 Hd1].
  { eapply (foldlM_preserves
              (λ q, unsynchronized_vessels_ q = unsynchronized_vessels_ p ∧
                    dirty_vessels_ q = dirty_vessels_ p));
      [|done|exact Hp1].
    intros q g q' Hq HP. unfold vessel_reset_step in Hq.
    bind_inv Hq as v Hv. bind_inv Hq as h Hh. bind_inv Hq as v' Hv'.
    by injection Hq as <-. }
  eapply vessel_loop in Hp1 as (Hf1 & Hout1 & Hin1 & _);
    [|apply vessel_reset_step_spec
     |by intros; eapply vessel_reset_frame
     |apply NoDup_fst_map_to_list].
  destruct (frame_fields _ _ Hf1) as (Hc1 & Hb1 & Hk1 & Hi1 & Hr1 & Ht1 & Hs1).
  rewrite Hc1 in H1.
  apply celestial_reset_loop in H1
    as (Hv & Hu & Hd & Hk & Hb & Hin & Hpr & Hct & Hs & HH & Hout & Hin');
    [|apply NoDup_fst_map_to_list].
  rewrite (frame_HistoryTime _ _ Hf1) in HH.
  split; [congruence|]. split; [congruence|]. split; [congruence|].
  split; [congruence|]. split; [congruence|]. split; [congruence|].
  split; [congruence|]. split; [congruence|]. split; [done|].
  split; [|split; [|split]].
  - intros g Hg. rewrite Hv, Hout1; [done|].
    rewrite elem_of_keys, Hg. by intros [? ?].
  - intros g v Hg. destruct (Hin1 g) as (v0 & v' & Hv0 & Hv' & HR).
    { rewrite elem_of_keys. by eexists. }
    rewrite Hg in Hv0. injection Hv0 as <-. exists v'. by rewrite Hv.
  - intros i Hi. rewrite Hout, Hc1; [done|].
    rewrite elem_of_keys, Hi. by intros [? ?].
  - intros i c Hi. destruct (Hin' i) as (c0 & c' & h & Hc0 & Hh & HR & Hc').
    { rewrite elem_of_keys. by eexists. }
    rewrite Hc1, Hi in Hc0. injection Hc0 as <-.
    rewrite (frame_HistoryTime _ _ Hf1) in Hh. by exists c', h.
Qed.

(** *** The invariants of a vessel *)

(** What [CheckVesselInvariants] checks: the vessel has a prolongation that
    ends at or after [HistoryTime()]; it is in [unsynchronized_vessels_] if,
    and only if, it has no history; and its history, if it has one, ends at
    [HistoryTime()]. *)
Definition vessel_invariants (p : Plugin) (g : GUID) (v : Vessel.t) : Prop :=
  ∃ prolongation_end history_end,
    prolongation_time v = Some prolongation_end ∧
    HistoryTime p = Some history_end ∧
    history_end ≤ prolongation_end ∧
    (g ∈ unsynchronized_vessels_ p ↔ Vessel.is_synchronized v = false) ∧
    (Vessel.is_synchronized v = true → history_time v = Some history_end).

Lemma CheckVesselInvariants_Some p g v :
  CheckVesselInvariants g v p = Some () ↔ vessel_invariants p g v.
Proof.
  unfold CheckVesselInvariants, vessel_invariants, prolongation_time,
    history_time.
  destruct (Vessel.is_initialized v) eqn:Hi; simpl.
  2:{ split; [done|]. intros (tp & h & Hp & _).
      by destruct v as [? []]. }
  destruct (Vessel.prolongation v) as [pr|]; simpl;
    [|split; [done | by intros (? & ? & ? & _)]].
  destruct (Trajectory_last pr) as [[tp dp]|]; simpl;
    [|split; [done | by intros (? & ? & ? & _)]].
  destruct (HistoryTime p) as [h|]; simpl;
    [|split; [done | by intros (? & ? & _ & ? & _)]].
  destruct (bool_decide (h ≤ tp)) eqn:Hle; simpl;
    [apply bool_decide_eq_true in Hle | apply bool_decide_eq_false in Hle].
  2:{ split; [done|]. intros (? & ? & [= <-] & [= <-] & ? & _). lia. }
  destruct (bool_decide (g ∈ unsynchronized_vessels_ p)) eqn:Hu; simpl;
    [apply bool_decide_eq_true in Hu | apply bool_decide_eq_false in Hu].
  - destruct (Vessel.is_synchronized v) eqn:Hs; simpl.
    + split; [done|]. intros (? & ? & _ & _ & _ & [Hiff _] & _).
      by specialize (Hiff Hu).
    + split; [|done]. intros _. exists tp, h. by repeat split.
  - destruct (Vessel.is_synchronized v) eqn:Hs; simpl.
    2:{ split; [done|]. intros (? & ? & _ & _ & _ & [_ Hiff] & _).
        destruct Hu. by apply Hiff. }
    destruct (Vessel.history v) as [hist|]; simpl;
      [|split; [done|]; intros (? & ? & _ & _ & _ & _ & Hh);
        by specialize (Hh eq_refl)].
    destruct (Trajectory_last hist) as [[th dh]|]; simpl;
      [|split; [done|]; intros (? & ? & _ & _ & _ & _ & Hh);
        by specialize (Hh eq_refl)].
    destruct (bool_decide (th = h)) eqn:Heq; simpl;
      [apply bool_decide_eq_true in Heq | apply bool_decide_eq_false in Heq].
    + subst th. split; [|done]. intros _. exists tp, h.
      by repeat split.
    + split; [done|]. intros (? & ? & _ & [= <-] & _ & _ & Hh).
      specialize (Hh eq_refl). by injection Hh.
Qed.

(** *** The points the bubble gives to its vessels *)

Definition appended_with (p p' : Plugin) (ref : TrajectoryRef) (t : Instant)
    (d : DegreesOfFreedom) : Prop :=
  ∃ b τ τ', deref p ref = Some (b, τ) ∧ Append t d τ = Some τ' ∧
            deref p' ref = Some (b, τ').

Lemma pass_Some_with {X} (f : Plugin → X → option Plugin)
    (ref : X → TrajectoryRef) (t : Instant)
    (D : Plugin → X → DegreesOfFreedom → Prop) l p p' :
  (∀ p x p', f p x = Some p' →
             ∃ d, D p x d ∧ Append_at (ref x) t d p = Some p') →
  (∀ p p' x d, shape p' = shape p → D p' x d → D p x d) →
  foldlM f p l = Some p' →
  ∀ x, x ∈ l → ∃ d, D p x d ∧ appended_with p p' (ref x) t d.
Proof.
  intros Hf HD. revert p. induction l as [|x0 l IH]; intros p; simpl.
  - by intros _ x ?%elem_of_nil.
  - intros H1.
    assert (foldlM f p (x0 :: l) = Some p') as Hall by done.
    eapply (pass_Some f ref t) in Hall as (_ & _ & _ & Hnd);
      [|intros q x q' Hq; apply Hf in Hq as (d & _ & ?); eauto].
    rewrite fmap_cons in Hnd. apply NoDup_cons in Hnd as [Hx0 Hnd].
    bind_inv H1 as p1 Hp1.
    apply Hf in Hp1 as (d0 & HD0 & Hp1).
    apply Append_at_Some in Hp1
      as (Hs1 & Hne1 & b & τ & τ' & Hd & Hτ' & Hd').
    assert (foldlM f p1 l = Some p') as Hrest by done.
    eapply (pass_Some f ref t) in Hrest as (_ & Hout & _);
      [|intros q x q' Hq; apply Hf in Hq as (d & _ & ?); eauto].
    intros x [->|Hx]%elem_of_cons.
    + exists d0. split; [done|]. exists b, τ, τ'. by rewrite Hout.
    + destruct (IH _ H1 x Hx) as (d & HDx & b1 & τ1 & τ1' & Hd1 & Hτ1 & Hd1').
      exists d. split; [by eapply HD|]. exists b1, τ1, τ1'.
      split; [|done]. rewrite <- Hd1. symmetry. apply Hne1.
      intros Heq. apply Hx0. rewrite <- Heq. apply list_elem_of_fmap.
      by exists x.
Qed.

(** A vessel of the bubble receives, at [t], the last point of the
    trajectory of the centre of mass (integrated up to [t]) plus its
    offset. *)
Lemma EvolveProlongationsAndBubble_bubble t p p' g :
  EvolveProlongationsAndBubble t p = Some p' →
  PhysicsBubble.contains g (bubble_ p) = true →
  ∃ trajectory last from_centre_of_mass,
    PhysicsBubble.centre_of_mass_trajectory (bubble_ p') = Some trajectory ∧
    Trajectory_last trajectory = Some last ∧ last.1 = t ∧
    PhysicsBubble.from_centre_of_mass g (bubble_ p')
      = Some from_centre_of_mass ∧
    appended_with p p' (vessel_prolongation g) t
                  (dof_plus last.2 from_centre_of_mass).
Proof.
  rewrite EvolveProlongationsAndBubble_unfold. intros H1 Hc.
  bind_inv H1 as p1 HI.
  assert (PhysicsBubble.empty (bubble_ p) = false) as Hne.
  { destruct (PhysicsBubble.empty (bubble_ p)) eqn:He; [|done].
    by rewrite (PhysicsBubble_empty_contains _ _ He) in Hc. }
  apply Integrate_Some in HI
    as [[Hnil _]|(r0 & t0 & _ & _ & _ & _ & Hs1 & Hout1 & Hin1 & _)].
  { assert (bubble_centre_of_mass_trajectory ∈ prolongation_refs p) as Hin
      by (by rewrite elem_of_prolongation_refs).
    rewrite Hnil in Hin. by apply elem_of_nil in Hin. }
  simpl in Hin1.
  destruct (shape_fields _ _ Hs1) as (_ & _ & _ & Hb1 & _).
  destruct (bubble_shape_fields _ _ Hb1) as (Hempty & Hvessels & Hcontains & Hfcom & _).
  rewrite Hempty, Hne in H1. simpl in H1.
  bind_inv H1 as trajectory Htr. bind_inv H1 as last Hlast.
  assert (last.1 = t) as Hlt.
  { destruct (Hin1 bubble_centre_of_mass_trajectory)
      as (b & τ & d & τ' & _ & Hτ' & Hd');
      [by rewrite elem_of_prolongation_refs|].
    simpl in Hd'. rewrite Htr in Hd'. simpl in Hd'. injection Hd' as _ <-.
    rewrite (Append_last _ _ _ _ Hτ') in Hlast. by injection Hlast as <-. }
  assert (H2 := H1).
  eapply (pass_Some _ vessel_prolongation) in H2 as (Hs2 & Hout2 & _);
    [|intros q x q' Hq; bind_inv Hq as fcom Hfcom'; eauto].
  eapply (pass_Some_with _ vessel_prolongation t
            (λ q x d, ∃ fcom, PhysicsBubble.from_centre_of_mass x (bubble_ q)
                              = Some fcom ∧ d = dof_plus last.2 fcom))
    in H1 as (d & (fcom & Hfc & ->) & b & τ & τ' & Hd & Hτ' & Hd').
  - exists trajectory, last, fcom.
    destruct (shape_fields _ _ Hs2) as (_ & _ & _ & Hb2 & _).
    destruct (bubble_shape_fields _ _ Hb2) as (_ & _ & _ & Hfcom2 & _).
    split.
    { assert (deref p' bubble_centre_of_mass_trajectory
              = deref p1 bubble_centre_of_mass_trajectory) as Heq.
      { apply Hout2. by intros (? & ? & _)%list_elem_of_fmap. }
      simpl in Heq. rewrite Htr in Heq. simpl in Heq.
      by destruct (PhysicsBubble.centre_of_mass_trajectory (bubble_ p'));
        simplify_eq/=. }
    split; [done|]. split; [done|]. split; [by rewrite Hfcom2|].
    exists b, τ, τ'. split; [|done]. rewrite <- Hd. symmetry. apply Hout1.
    rewrite elem_of_prolongation_refs, Hc. by intros [_ ?].
  - intros q x q' Hq. bind_inv Hq as fcom Hfcom'. eauto.
  - intros q q' x d Hs (fcom & Hfc & ->). exists fcom. split; [|done].
    destruct (shape_fields _ _ Hs) as (_ & _ & _ & Hb & _).
    destruct (bubble_shape_fields _ _ Hb) as (_ & _ & _ & Hfcomq & _).
    by rewrite <- Hfcomq.
  - rewrite Hvessels. by apply PhysicsBubble_contains_vessels.
Qed.

(** ** What [AdvanceTime] establishes *)

Lemma appended_vessel_prolongation_time p p' g t v' :
  appended p p' (vessel_prolongation g) t →
  vessels_ p' !! g = Some v' → prolongation_time v' = Some t.
Proof.
  intros [Hl _]%appended_last_time Hv'.
  rewrite last_time_vessel_prolongation, Hv' in Hl. done.
Qed.

Lemma appended_celestial_prolongation_time p p' i t c' :
  appended p p' (celestial_prolongation i) t →
  celestials_ p' !! i = Some c' → celestial_prolongation_time c' = Some t.
Proof.
  intros [Hl _]%appended_last_time Hc'.
  rewrite last_time_celestial_prolongation, Hc' in Hl. done.
Qed.

Lemma shape_is_Some_vessels p q g :
  shape p = shape q → is_Some (vessels_ p !! g) → is_Some (vessels_ q !! g).
Proof.
  intros Hs%(shape_vessels _ _ g) [v Hv]. rewrite Hv in Hs.
  destruct (vessels_ q !! g); [by eexists|done].
Qed.

Lemma shape_is_Some_celestials p q i :
  shape p = shape q →
  is_Some (celestials_ p !! i) → is_Some (celestials_ q !! i).
Proof.
  intros Hs%(shape_celestials _ _ i) [c Hc]. rewrite Hc in Hs.
  destruct (celestials_ q !! i); [by eexists|done].
Qed.

(** C4.  When [AdvanceTime(t, planetarium_rotation)] returns, the current
    time is [t] and the prolongation of every vessel, in the bubble or
    not, and of every celestial ends at [t]; the last point of the
    prolongation of a vessel of the bubble is the last point of the
    trajectory of the centre of mass of the bubble, which is at [t] too,
    displaced by the offset of the vessel from the centre of mass. *)
Theorem AdvanceTime_prolongations_end_at_current_time
    t planetarium_rotation p q :
  AdvanceTime t planetarium_rotation p = Some q →
  current_time q = t ∧
  (∀ g v, vessels_ q !! g = Some v → prolongation_time v = Some t) ∧
  (∀ i c, celestials_ q !! i = Some c →
          celestial_prolongation_time c = Some t) ∧
  (∀ g, PhysicsBubble.contains g (bubble_ q) = true →
        ∃ trajectory last from_centre_of_mass v prolongation,
          PhysicsBubble.centre_of_mass_trajectory (bubble_ q)
            = Some trajectory ∧
          Trajectory_last trajectory = Some last ∧ last.1 = t ∧
          PhysicsBubble.from_centre_of_mass g (bubble_ q)
            = Some from_centre_of_mass ∧
          vessels_ q !! g = Some v ∧
          Vessel.prolongation v = Some prolongation ∧
          Trajectory_last prolongation
            = Some (t, dof_plus last.2 from_centre_of_mass)).
Proof.
  intros (_ & _ & p1 & bubble & h & p5 & p6 & _ & _ & _ & _ & H6 & ->)
    %AdvanceTime_Some.
  unfold current_time. simpl. split; [done|].
  destruct (EvolveProlongationsAndBubble_Some _ _ _ H6)
    as (Hs & _ & _ & Hc & Hv).
  split; [|split].
  - intros g v Hg. eapply appended_vessel_prolongation_time; [|done].
    apply Hv. eapply shape_is_Some_vessels; [done|by eexists].
  - intros i c Hi. eapply appended_celestial_prolongation_time; [|done].
    apply Hc. eapply shape_is_Some_celestials; [done|by eexists].
  - intros g Hg.
    destruct (shape_fields _ _ Hs) as (_ & _ & _ & Hb & _).
    destruct (bubble_shape_fields _ _ Hb) as (_ & _ & Hcontains & _).
    rewrite Hcontains in Hg.
    destruct (EvolveProlongationsAndBubble_bubble _ _ _ _ H6 Hg)
      as (trajectory & last & fcom & Htr & Hlast & Hlt & Hfcom
          & b & τ & τ' & _ & Hτ' & Hd').
    simpl in Hd'.
    destruct (vessels_ p6 !! g) as [v|] eqn:Hv6; [|done]. simpl in Hd'.
    destruct (Vessel.prolongation v) as [pr|] eqn:Hpr; [|done].
    injection Hd' as _ ->.
    exists trajectory, last, fcom, v, τ'. repeat split; try done.
    by apply Append_last in Hτ'.
Qed.

(** *** The history step *)

Lemma elem_of_synchronization_refs_vessel p g :
  vessel_prolongation g ∈ synchronization_refs p ↔
  PhysicsBubble.contains g (bubble_ p) = false ∧
  (g ∈ unsynchronized_vessels_ p ∨
   g ∈ dirty_vessels_ p ∧
   from_option Vessel.is_synchronized false (vessels_ p !! g) = true).
Proof.
  unfold synchronization_refs. rewrite !elem_of_app.
  rewrite !(elem_of_filter_set_refs vessel_prolongation). split.
  - intros [Hi|[[Hu Hc]|[[Hd Hc]|Hi]]].
    + by apply list_elem_of_fmap in Hi as (? & ? & _).
    + apply negb_true_iff in Hc. split; [done|by left].
    + apply andb_true_iff in Hc as [Hc Hs]. apply negb_true_iff in Hc.
      split; [done|by right].
    + destruct (negb _); [by apply list_elem_of_singleton in Hi|].
      by apply elem_of_nil in Hi.
  - intros [Hc [Hu|[Hd Hs]]].
    + right; left. by rewrite Hc.
    + right; right; left. by rewrite Hc, Hs.
Qed.

Lemma elem_of_synchronization_refs_celestial p i :
  celestial_prolongation i ∈ synchronization_refs p ↔
  is_Some (celestials_ p !! i).
Proof.
  unfold synchronization_refs. rewrite !elem_of_app.
  rewrite (elem_of_map_refs celestial_prolongation). split; [|by left].
  intros [Hi|[Hi|[Hi|Hi]]]; [done|..];
    try (by apply list_elem_of_fmap in Hi as (? & ? & _)).
  destruct (negb _); [by apply list_elem_of_singleton in Hi|].
  by apply elem_of_nil in Hi.
Qed.

(** A vessel is what its parent and its trajectories are. *)
Lemma vessel_deref_eq p q g v v' :
  shape p = shape q →
  vessels_ p !! g = Some v → vessels_ q !! g = Some v' →
  deref p (vessel_history g) = deref q (vessel_history g) →
  deref p (vessel_prolongation g) = deref q (vessel_prolongation g) →
  v = v'.
Proof.
  intros Hs%(shape_vessels _ _ g) Hv Hv' Hh Hp. simpl in Hh, Hp.
  rewrite Hv, Hv' in Hs, Hh, Hp. simpl in *.
  unfold vessel_shape, Vessel.is_initialized, Vessel.is_synchronized,
    Vessel.history, Vessel.prolongation in *.
  destruct v as [par [|pr|h pr]], v' as [par' [|pr'|h' pr']];
    by simplify_eq/=.
Qed.

(** The history of [v'] is that of [v] with one more point, [(t, d)], or
    begins with it if [v] had none. *)
Definition history_given (t : Instant) (d : DegreesOfFreedom)
    (v v' : Vessel.t) : Prop :=
  ∃ history' prolongation',
    Vessel.trajectories_ v' = Vessel.Synchronized history' prolongation' ∧
    Vessel.parent_ v' = Vessel.parent_ v ∧
    match Vessel.trajectories_ v with
    | Vessel.Synchronized history _ => Append t d history = Some history'
    | _ => history' = mkTrajectory None [(t, d)]
    end.

Lemma history_extended_given t d v v' :
  history_extended t d v v' → history_given t d v v'.
Proof.
  unfold history_extended, history_given.
  destruct v as [par [|pr|h pr]]; simpl.
  - intros ->. by eexists _, _.
  - intros ->. by eexists _, _.
  - intros (h' & Hh' & ->). by eexists _, _.
Qed.

(** What [EvolveHistories] does to a vessel. *)
Lemma EvolveHistories_vessel t p p' tf g v :
  EvolveHistories t p = Some p' → HistoryTime p' = Some tf →
  vessels_ p !! g = Some v →
  ∃ v', vessels_ p' !! g = Some v' ∧
    if Vessel.is_synchronized v &&
       negb (PhysicsBubble.contains g (bubble_ p)) && negb (is_dirty g p)
    then ∃ d, history_extended tf d v v'
    else v' = v.
Proof.
  intros H3 Hh' Hv.
  destruct (EvolveHistories_Some _ _ _ H3)
    as (r0 & t0 & tf' & _ & _ & _ & _ & Hs & Hout & Hin & Hh'' & _).
  rewrite Hh' in Hh''. injection Hh'' as <-.
  destruct (shape_is_Some_vessels p p' g) as [v' Hv'];
    [done|by eexists|].
  exists v'. split; [done|].
  assert (deref p' (vessel_prolongation g) = deref p (vessel_prolongation g))
    as Hpr by (apply Hout; rewrite elem_of_history_refs; tauto).
  destruct (_ && _ && _) eqn:Hcond.
  - apply andb_true_iff in Hcond as [Hcond Hd].
    apply andb_true_iff in Hcond as [Hsy Hc].
    apply negb_true_iff in Hc, Hd. apply bool_decide_eq_false in Hd.
    destruct (Hin (vessel_history g)) as (b & τ & d & τ' & Hτ & Hτ' & Hd').
    { rewrite elem_of_history_refs. by exists v. }
    exists d. simpl in Hτ, Hd', Hpr. rewrite Hv in Hτ, Hpr.
    rewrite Hv' in Hd', Hpr. simpl in *.
    pose proof (shape_vessels _ _ g Hs) as Hsh. rewrite Hv, Hv' in Hsh.
    unfold history_extended, vessel_shape, Vessel.is_initialized,
      Vessel.is_synchronized, Vessel.history, Vessel.prolongation in *.
    destruct v as [par [|pr|h pr]], v' as [par' [|pr'|h' pr']];
      simplify_eq/=. by exists τ'.
  - symmetry. eapply vessel_deref_eq; [by symmetry|done..| |by symmetry].
    symmetry. apply Hout. rewrite elem_of_history_refs.
    intros (v0 & Hv0 & Hsy & Hc & Hd). rewrite Hv in Hv0. injection Hv0 as <-.
    unfold is_dirty in Hcond.
    rewrite Hsy, Hc, bool_decide_eq_false_2 in Hcond; done.
Qed.

(** Where the point a synchronization gives to the history of a vessel
    comes from, in the state [q] its integration reaches: the centre of
    mass of the bubble and the offset of the vessel, or the last point of
    the prolongation of the vessel. *)
Definition synchronization_point (p q : Plugin) (g : GUID)
    (s : Instant * DegreesOfFreedom) : Prop :=
  if PhysicsBubble.contains g (bubble_ p) then
    ∃ trajectory last from_centre_of_mass,
      PhysicsBubble.centre_of_mass_trajectory (bubble_ q) = Some trajectory ∧
      Trajectory_last trajectory = Some last ∧
      PhysicsBubble.from_centre_of_mass g (bubble_ q)
        = Some from_centre_of_mass ∧
      s = (last.1, dof_plus last.2 from_centre_of_mass)
  else
    ∃ v prolongation,
      vessels_ q !! g = Some v ∧
      Vessel.prolongation v = Some prolongation ∧
      Trajectory_last prolongation = Some s.

(** What [SynchronizeNewVesselsAndCleanDirtyVessels] does to a vessel. *)
Lemma SynchronizeNewVesselsAndCleanDirtyVessels_vessel p p' history_time g v :
  SynchronizeNewVesselsAndCleanDirtyVessels p = Some p' →
  HistoryTime p = Some history_time →
  vessels_ p !! g = Some v →
  ∃ v' q,
    vessels_ p' !! g = Some v' ∧
    Integrate history_time Δt_ 0 true (synchronization_refs p) p = Some q ∧
    if negb (PhysicsBubble.contains g (bubble_ p)) &&
       negb (bool_decide (g ∈ unsynchronized_vessels_ p)) &&
       negb (is_dirty g p)
    then v' = v
    else ∃ d, history_given history_time d v v' ∧
              synchronization_point p q g (history_time, d).
Proof.
  intros H4 Hh Hv.
  destruct (SynchronizeNewVesselsAndCleanDirtyVessels_Some _ _ H4)
    as (h & q & Hh' & Hq & Hsq & Hhq & Hf & _ & _ & _ & Hvs).
  rewrite Hh in Hh'. injection Hh' as <-.
  destruct (shape_is_Some_vessels p q g) as [vI HvI];
    [done|by eexists|].
  destruct (Hvs _ _ HvI) as (v' & Hv' & Hsync).
  exists v', q. split; [done|]. split; [done|].
  apply Integrate_Some in Hq
    as [[Hnil _]|(r0 & t0 & _ & _ & _ & _ & _ & Hout & Hin & _)].
  { exfalso. rewrite HistoryTime_sun in Hh.
    destruct (celestials_ p !! sun_ p) as [sun|] eqn:Hsun; [|done].
    assert (celestial_prolongation (sun_ p) ∈ synchronization_refs p) as Hi
      by (rewrite elem_of_synchronization_refs_celestial; by eexists).
    rewrite Hnil in Hi. by apply elem_of_nil in Hi. }
  simpl in Hin.
  assert (deref q (vessel_history g) = deref p (vessel_history g)) as Hhist
    by (apply Hout, not_elem_of_synchronization_refs_history; exact 0).
  pose proof (shape_vessels _ _ g Hsq) as Hsh. rewrite Hv, HvI in Hsh.
  simpl in Hsh. injection Hsh as Hpar Hini Hsy.
  unfold is_dirty, synchronization_point.
  destruct Hsync as [(-> & Hu & Hd & Hc)
                    |[(Hc & trajectory & last & fcom & Htr & Hlast & Hfcom & Hext)
                     |(Hc & Hmem & pr & last & Hpr & Hlast & Hext)]];
    rewrite Hc; simpl.
  - rewrite !bool_decide_eq_false_2 by done. simpl.
    eapply vessel_deref_eq; [done..|].
    apply Hout. rewrite elem_of_synchronization_refs_vessel.
    intros [_ [?|[? _]]]; done.
  - assert (vI = v) as ->.
    { eapply vessel_deref_eq; [done..|].
      apply Hout. rewrite elem_of_synchronization_refs_vessel, Hc.
      by intros [? _]. }
    exists (dof_plus last.2 fcom).
    split; [by apply history_extended_given|].
    exists trajectory, last, fcom. repeat split; try done.
    destruct (Hin bubble_centre_of_mass_trajectory)
      as (b & τ & d & τ' & _ & Hτ' & Hd').
    { unfold synchronization_refs. rewrite !elem_of_app. do 3 right.
      destruct (PhysicsBubble.empty (bubble_ p)) eqn:He.
      - by rewrite (PhysicsBubble_empty_contains _ _ He) in Hc.
      - simpl. by apply list_elem_of_singleton. }
    simpl in Hd'. rewrite Htr in Hd'. simpl in Hd'. injection Hd' as _ <-.
    rewrite (Append_last _ _ _ _ Hτ') in Hlast. by injection Hlast as <-.
  - assert (negb (bool_decide (g ∈ unsynchronized_vessels_ p)) &&
            negb (bool_decide (g ∈ dirty_vessels_ p)) = false) as ->.
    { destruct (Vessel.is_synchronized vI).
      - rewrite (bool_decide_eq_true_2 (g ∈ dirty_vessels_ p)) by done.
        by rewrite andb_false_r.
      - by rewrite (bool_decide_eq_true_2 (g ∈ unsynchronized_vessels_ p)). }
    exists last.2.
    destruct (Hin (vessel_prolongation g)) as (b & τ & d & τ' & _ & Hτ' & Hd').
    { rewrite elem_of_synchronization_refs_vessel. split; [done|].
      rewrite Hv. simpl. rewrite <- Hsy.
      destruct (Vessel.is_synchronized vI); [by right|by left]. }
    simpl in Hd'. rewrite HvI in Hd'. simpl in Hd'. rewrite Hpr in Hd'.
    injection Hd' as _ <-.
    rewrite (Append_last _ _ _ _ Hτ') in Hlast. injection Hlast as <-.
    split; [|by exists vI, pr; rewrite (Append_last _ _ _ _ Hτ')].
    simpl in Hhist. rewrite Hv, HvI in Hhist. simpl in Hhist.
    apply history_extended_given in Hext.
    destruct Hext as (h' & pr' & Htraj & Hpar' & Hmatch).
    exists h', pr'. split; [done|].
    unfold vessel_shape, Vessel.is_initialized, Vessel.is_synchronized,
      Vessel.history in *.
    destruct v as [par [|pr0|h0 pr0]], vI as [parI [|prI|hI prI]];
      by simplify_eq/=.
Qed.

(** What a point appended through a reference does to its owner. *)
Lemma appended_vessel_prolongation p p' g t v :
  shape p' = shape p →
  deref p' (vessel_history g) = deref p (vessel_history g) →
  appended p p' (vessel_prolongation g) t →
  vessels_ p !! g = Some v →
  ∃ v' pr d pr',
    vessels_ p' !! g = Some v' ∧ Vessel.prolongation v = Some pr ∧
    Append t d pr = Some pr' ∧ Vessel.set_prolongation pr' v = Some v'.
Proof.
  intros Hs Hh (b & τ & d & τ' & Hτ & Hτ' & Hd') Hv.
  destruct (shape_is_Some_vessels p p' g) as [v' Hv'];
    [done|by eexists|].
  pose proof (shape_vessels _ _ g Hs) as Hsh. rewrite Hv, Hv' in Hsh.
  simpl in Hsh, Hτ, Hd', Hh. rewrite Hv in Hτ, Hh. rewrite Hv' in Hd', Hh.
  exists v', τ, d, τ'. split; [done|].
  unfold vessel_shape, Vessel.is_initialized, Vessel.is_synchronized,
    Vessel.history, Vessel.prolongation, Vessel.set_prolongation in *.
  destruct v as [par [|pr0|h0 pr0]], v' as [par' [|pr1|h1 pr1]];
    by simplify_eq/=.
Qed.

Lemma appended_celestial_prolongation p p' i t c :
  shape p' = shape p →
  deref p' (celestial_history i) = deref p (celestial_history i) →
  appended p p' (celestial_prolongation i) t →
  celestials_ p !! i = Some c →
  ∃ c' pr d pr',
    celestials_ p' !! i = Some c' ∧ Celestial.prolongation c = Some pr ∧
    Append t d pr = Some pr' ∧ c' = Celestial.set_prolongation pr' c.
Proof.
  intros Hs Hh (b & τ & d & τ' & Hτ & Hτ' & Hd') Hc.
  destruct (shape_is_Some_celestials p p' i) as [c' Hc'];
    [done|by eexists|].
  pose proof (shape_celestials _ _ i Hs) as Hsh. rewrite Hc, Hc' in Hsh.
  simpl in Hsh, Hτ, Hd', Hh. rewrite Hc in Hτ, Hh. rewrite Hc' in Hd', Hh.
  exists c', τ, d, τ'. split; [done|].
  unfold celestial_shape, Celestial.history, Celestial.prolongation,
    Celestial.is_initialized, Celestial.set_prolongation in *.
  destruct c as [b0 par [h0|] pr0], c' as [b1 par' [h1|] pr1];
    simplify_eq/=; try done.
  destruct pr0, pr1; by simplify_eq/=.
Qed.

Lemma appended_celestial_history p p' i t c :
  shape p' = shape p →
  deref p' (celestial_prolongation i) = deref p (celestial_prolongation i) →
  appended p p' (celestial_history i) t →
  celestials_ p !! i = Some c →
  ∃ c' h d h',
    celestials_ p' !! i = Some c' ∧ Celestial.history_ c = Some h ∧
    Append t d h = Some h' ∧ c' = Celestial.set_history h' c.
Proof.
  intros Hs Hpr (b & τ & d & τ' & Hτ & Hτ' & Hd') Hc.
  destruct (shape_is_Some_celestials p p' i) as [c' Hc'];
    [done|by eexists|].
  pose proof (shape_celestials _ _ i Hs) as Hsh. rewrite Hc, Hc' in Hsh.
  simpl in Hsh, Hτ, Hd', Hpr. rewrite Hc in Hτ, Hpr. rewrite Hc' in Hd', Hpr.
  exists c', τ, d, τ'. split; [done|].
  unfold celestial_shape, Celestial.history, Celestial.prolongation,
    Celestial.is_initialized, Celestial.set_history in *.
  destruct c as [b0 par [h0|] pr0], c' as [b1 par' [h1|] pr1];
    simplify_eq/=; try done.
Qed.

(** The synchronization [AdvanceTime] performs after the histories have
    been evolved, when there is something to synchronize. *)
Definition synchronization (p p' : Plugin) : Prop :=
  if has_unsynchronized_vessels p || has_dirty_vessels p ||
     negb (PhysicsBubble.empty (bubble_ p))
  then SynchronizeNewVesselsAndCleanDirtyVessels p = Some p'
  else p' = p.

Lemma synchronization_Some p p' history_time :
  HistoryTime p = Some history_time →
  synchronization p p' →
  HistoryTime p' = Some history_time ∧
  unsynchronized_vessels_ p' = ∅ ∧ dirty_vessels_ p' = ∅ ∧
  kept_vessels_ p' = kept_vessels_ p ∧
  bubble_shape (bubble_ p') = bubble_shape (bubble_ p) ∧
  initializing_ p' = initializing_ p ∧
  planetarium_rotation_ p' = planetarium_rotation_ p ∧
  current_time_ p' = current_time_ p ∧ sun_ p' = sun_ p ∧
  (∀ g, vessels_ p !! g = None → vessels_ p' !! g = None) ∧
  (∀ g v, vessels_ p !! g = Some v →
     ∃ v', vessels_ p' !! g = Some v' ∧
       if negb (PhysicsBubble.contains g (bubble_ p)) &&
          negb (bool_decide (g ∈ unsynchronized_vessels_ p)) &&
          negb (is_dirty g p)
       then v' = v
       else ∃ d q,
         history_given history_time d v v' ∧
         Integrate history_time Δt_ 0 true (synchronization_refs p) p
           = Some q ∧
         synchronization_point p q g (history_time, d)) ∧
  (∀ i, celestials_ p !! i = None → celestials_ p' !! i = None) ∧
  (∀ i c, celestials_ p !! i = Some c →
     ∃ c', celestials_ p' !! i = Some c' ∧
           Celestial.body_ c' = Celestial.body_ c ∧
           Celestial.parent_ c' = Celestial.parent_ c ∧
           Celestial.history_ c' = Celestial.history_ c).
Proof.
  intros Hh. unfold synchronization.
  destruct (_ || _ || _) eqn:Hcond.
  - intros H4.
    destruct (SynchronizeNewVesselsAndCleanDirtyVessels_Some _ _ H4)
      as (h & q & Hh' & Hq & Hsq & Hhq & Hf & Hu & Hd & Hnone & _).
    rewrite Hh in Hh'. injection Hh' as <-.
    destruct (frame_fields _ _ Hf) as (Hc4 & Hb4 & Hk4 & Hi4 & Hr4 & Hct4 & Hs4).
    destruct (shape_fields _ _ Hsq) as (_ & _ & Hkq & Hbq & Hiq & Hrq & Hctq & Hsunq).
    split; [by rewrite (frame_HistoryTime _ _ Hf)|].
    split; [done|]. split; [done|]. split; [congruence|].
    split; [congruence|]. split; [congruence|]. split; [congruence|].
    split; [congruence|]. split; [congruence|].
    split; [|split; [|split]].
    + intros g Hg. apply Hnone. pose proof (shape_vessels _ _ g Hsq) as Hsh.
      rewrite Hg in Hsh. by destruct (vessels_ q !! g).
    + intros g v Hv.
      destruct (SynchronizeNewVesselsAndCleanDirtyVessels_vessel
                  _ _ _ _ _ H4 Hh Hv) as (v' & q' & Hv' & Hq' & Hrest).
      exists v'. split; [done|].
      destruct (_ && _ && _); [done|].
      destruct Hrest as (d & Hgiven & Hpoint). by exists d, q'.
    + intros i Hi. rewrite Hc4. pose proof (shape_celestials _ _ i Hsq) as Hsh.
      rewrite Hi in Hsh. by destruct (celestials_ q !! i).
    + intros i c Hc. rewrite Hc4.
      destruct (shape_is_Some_celestials p q i) as [c' Hc'];
        [done|by eexists|].
      exists c'. split; [done|].
      pose proof (shape_celestials _ _ i Hsq) as Hsh.
      rewrite Hc, Hc' in Hsh. simpl in Hsh. injection Hsh as Hbody Hpar _ _.
      split; [done|]. split; [done|].
      apply Integrate_Some in Hq
        as [[_ ->]|(r0 & t0 & _ & _ & _ & _ & _ & Hout & _)];
        [congruence|].
      assert (deref q (celestial_history i) = deref p (celestial_history i))
        as Hhist
        by (apply Hout, not_elem_of_synchronization_refs_history; exact "").
      simpl in Hhist. rewrite Hc, Hc' in Hhist. simpl in Hhist.
      unfold Celestial.history in Hhist.
      destruct (Celestial.history_ c'), (Celestial.history_ c);
        by simplify_eq/=.
  - intros ->.
    apply orb_false_iff in Hcond as [Hcond Hb].
    apply orb_false_iff in Hcond as [Hu Hd].
    unfold has_unsynchronized_vessels, has_dirty_vessels in *.
    apply negb_false_iff, bool_decide_eq_true in Hu, Hd.
    apply negb_false_iff in Hb.
    repeat (split; [done|]). split; [|split; [done|eauto]].
    intros g v Hv. exists v. split; [done|].
    rewrite (PhysicsBubble_empty_contains _ _ Hb). unfold is_dirty.
    rewrite Hu, Hd. simpl. rewrite !bool_decide_eq_false_2; set_solver.
Qed.

(** What a history step followed by the evolution of the prolongations
    makes of a vessel and of a celestial: the history has one more point,
    at the new [HistoryTime()], and the prolongation is forked there and
    has one point, at [t]. *)
Definition vessel_stepped (history_time t : Instant) (d : DegreesOfFreedom)
    (v v' : Vessel.t) : Prop :=
  ∃ history' fork d',
    v' = Vessel.mk (Vessel.parent_ v)
           (Vessel.Synchronized history'
              (mkTrajectory (Some (history_time, fork)) [(t, d')])) ∧
    Trajectory_find history_time history' = Some fork ∧
    match Vessel.trajectories_ v with
    | Vessel.Synchronized history _ =>
        Append history_time d history = Some history'
    | _ => history' = mkTrajectory None [(history_time, d)]
    end.

Definition celestial_stepped (history_time t : Instant)
    (c c' : Celestial.t) : Prop :=
  ∃ history d history' fork d',
    Celestial.history_ c = Some history ∧
    Append history_time d history = Some history' ∧
    Trajectory_find history_time history' = Some fork ∧
    c' = Celestial.mk (Celestial.body_ c) (Celestial.parent_ c)
           (Some history')
           (Some (mkTrajectory (Some (history_time, fork)) [(t, d')])).

Lemma Append_fork t0 fork t d τ :
  Append t d (mkTrajectory (Some (t0, fork)) []) = Some τ →
  t0 < t ∧ τ = mkTrajectory (Some (t0, fork)) [(t, d)].
Proof.
  intros [-> Hlt]%Append_Some. split; [|done]. by apply (Hlt (t0, fork)).
Qed.

Lemma history_step_Some t p2 p3 p4 p5 p6 :
  (∀ g v, vessels_ p2 !! g = Some v →
          g ∈ unsynchronized_vessels_ p2 ↔ Vessel.is_synchronized v = false) →
  EvolveHistories t p2 = Some p3 →
  synchronization p3 p4 →
  ResetProlongations p4 = Some p5 →
  EvolveProlongationsAndBubble t p5 = Some p6 →
  ∃ history_time,
    HistoryTime p3 = Some history_time ∧
    HistoryTime p6 = Some history_time ∧
    (∀ h, HistoryTime p2 = Some h → h < history_time) ∧
    current_time_ p2 ≤ history_time ∧ history_time < t ∧
    t < history_time + Δt_ ∧
    unsynchronized_vessels_ p6 = ∅ ∧ dirty_vessels_ p6 = ∅ ∧
    kept_vessels_ p6 = kept_vessels_ p2 ∧
    bubble_shape (bubble_ p6) = bubble_shape (bubble_ p2) ∧
    initializing_ p6 = initializing_ p2 ∧ sun_ p6 = sun_ p2 ∧
    (∀ g, vessels_ p2 !! g = None → vessels_ p6 !! g = None) ∧
    (∀ g v, vessels_ p2 !! g = Some v →
       ∃ v' d,
         vessels_ p6 !! g = Some v' ∧ vessel_stepped history_time t d v v' ∧
         (g ∈ unsynchronized_vessels_ p2 ∨ g ∈ dirty_vessels_ p2 ∨
          PhysicsBubble.contains g (bubble_ p2) = true →
          ∃ q, Integrate history_time Δt_ 0 true (synchronization_refs p3) p3
                 = Some q ∧
               synchronization_point p3 q g (history_time, d))) ∧
    (∀ i, celestials_ p2 !! i = None → celestials_ p6 !! i = None) ∧
    (∀ i c, celestials_ p2 !! i = Some c →
       ∃ c', celestials_ p6 !! i = Some c' ∧
             celestial_stepped history_time t c c').
Proof.
  intros Hinv H3 H4 H5 H6.
  destruct (EvolveHistories_Some _ _ _ H3)
    as (r0 & t0 & tf & Hr0 & Ht0 & Hle & Htf & Hs3 & Hout3 & Hin3 & Hh3 & Hc3).
  destruct (final_instant_false_bounds t0 t Δt_) as (_ & Htf_le & Htf_gt & _);
    [done|done|].
  rewrite <- Htf in *. clear Htf.
  destruct (shape_fields _ _ Hs3)
    as (Hu3 & Hd3 & Hk3 & Hb3 & Hi3 & Hr3 & Hct3 & Hsun3).
  destruct (bubble_shape_fields _ _ Hb3) as (_ & _ & Hcontains3 & _).
  destruct (synchronization_Some _ _ _ Hh3 H4)
    as (Hh4 & Hu4 & Hd4 & Hk4 & Hb4 & Hi4 & Hr4 & Hct4 & Hsun4
        & Hnone4 & Hv4 & Hcnone4 & Hc4).
  destruct (ResetProlongations_Some _ _ H5)
    as (Hu5 & Hd5 & Hk5 & Hb5 & Hi5 & Hr5 & Hct5 & Hsun5 & Hh5
        & Hnone5 & Hv5 & Hcnone5 & Hc5).
  destruct (EvolveProlongationsAndBubble_Some _ _ _ H6)
    as (Hs6 & Hch6 & Hvh6 & Hcp6 & Hvp6).
  destruct (shape_fields _ _ Hs6)
    as (Hu6 & Hd6 & Hk6 & Hb6 & Hi6 & Hr6 & Hct6 & Hsun6).
  assert (HistoryTime p6 = Some tf) as Hh6.
  { rewrite <- Hh4, <- Hh5. rewrite !HistoryTime_last_time, Hsun6.
    apply last_time_frame, Hch6. }
  (* The celestials. *)
  assert (∀ i c, celestials_ p2 !! i = Some c →
            ∃ c', celestials_ p6 !! i = Some c' ∧
                  celestial_stepped tf t c c' ∧ tf < t)
    as Hcelestials.
  { intros i c Hc.
    destruct (appended_celestial_history p2 p3 i tf c)
      as (c3 & h & d & h' & Hc3' & Hhc & Hh' & ->); [done| | |done|].
    { apply Hout3. rewrite elem_of_history_refs. tauto. }
    { apply Hin3. rewrite elem_of_history_refs. by eexists. }
    destruct (Hc4 _ _ Hc3') as (c4 & Hc4' & Hbody4 & Hpar4 & Hhist4).
    destruct (Hc5 _ _ Hc4')
      as (c5 & h5 & Hh5' & Hc5' & hist & fork & Hhist & Hfork & ->).
    rewrite Hh4 in Hh5'. injection Hh5' as <-.
    rewrite Hhist4 in Hhist. simpl in Hhist. injection Hhist as <-.
    destruct (appended_celestial_prolongation p5 p6 i t _ Hs6 (Hch6 i)
                (Hcp6 i ltac:(by eexists)) Hc5')
      as (c6 & pr & d' & pr' & Hc6' & Hpr & Hpr' & ->).
    exists (Celestial.set_prolongation pr' (Celestial.mk
              (Celestial.body_ c4) (Celestial.parent_ c4) (Some h')
              (Some (mkTrajectory (Some (tf, fork)) [])))).
    split; [done|].
    unfold Celestial.prolongation, Celestial.is_initialized in Hpr.
    simpl in Hpr. injection Hpr as <-.
    apply Append_fork in Hpr' as [Hlt ->].
    split; [|done].
    exists h, d, h', fork, d'. repeat split; try done.
    unfold Celestial.set_prolongation. simpl in *. congruence. }
  assert (tf < t) as Hlt.
  { pose proof Hh3 as Hsun. rewrite HistoryTime_sun in Hsun.
    destruct (celestials_ p3 !! sun_ p3) as [sun3|] eqn:Hsun3'; [|done].
    pose proof (shape_celestials _ _ (sun_ p3) Hs3) as Hsh.
    rewrite Hsun3' in Hsh.
    destruct (celestials_ p2 !! sun_ p3) as [sun|] eqn:Hsun2; [|done].
    by destruct (Hcelestials _ _ Hsun2) as (_ & _ & _ & ?). }
  exists tf. split; [done|]. split; [done|].
  split.
  { intros h Hh. rewrite HistoryTime_last_time in Hh.
    destruct (appended_last_time p2 p3 (celestial_history (sun_ p2)) tf)
      as [_ Hlt']; [|by apply Hlt'].
    apply Hin3. rewrite elem_of_history_refs.
    rewrite last_time_celestial_history in Hh.
    by destruct (celestials_ p2 !! sun_ p2); [eexists|]. }
  split; [done|]. split; [done|]. split; [done|].
  split; [congruence|]. split; [congruence|]. split; [congruence|].
  split; [congruence|]. split; [congruence|]. split; [congruence|].
  split.
  { intros g Hg. pose proof (shape_vessels _ _ g Hs6) as Hsh.
    rewrite (Hnone5 g) in Hsh; [by destruct (vessels_ p6 !! g)|].
    apply Hnone4. pose proof (shape_vessels _ _ g Hs3) as Hsh3.
    rewrite Hg in Hsh3. by destruct (vessels_ p3 !! g). }
  split; [|split].
  - intros g v Hv.
    destruct (EvolveHistories_vessel _ _ _ tf g v H3 Hh3 Hv)
      as (v3 & Hv3 & Hcase3).
    destruct (Hv4 _ _ Hv3) as (v4 & Hv4' & Hcase4).
    assert (∃ d, history_given tf d v v4 ∧
              (g ∈ unsynchronized_vessels_ p2 ∨ g ∈ dirty_vessels_ p2 ∨
               PhysicsBubble.contains g (bubble_ p2) = true →
               ∃ q, Integrate tf Δt_ 0 true (synchronization_refs p3) p3
                      = Some q ∧
                    synchronization_point p3 q g (tf, d)))
      as (d & Hgiven & Horigin).
    { unfold is_dirty in *. rewrite Hcontains3, Hu3, Hd3 in Hcase4.
      assert (Vessel.is_synchronized v
              = negb (bool_decide (g ∈ unsynchronized_vessels_ p2))) as Hsy.
      { destruct (Hinv g v Hv) as [Hin Hni]. case_bool_decide; simpl.
        - by apply Hin.
        - destruct (Vessel.is_synchronized v); [done|]. by exfalso; auto. }
      rewrite Hsy in Hcase3.
      destruct (PhysicsBubble.contains g (bubble_ p2)) eqn:Hc,
        (bool_decide (g ∈ unsynchronized_vessels_ p2)) eqn:Hu,
        (bool_decide (g ∈ dirty_vessels_ p2)) eqn:Hd; simpl in *;
        try (destruct Hcase4 as (d & q & Hg & Hq & Hp); subst v3;
             exists d; split; [done|]; intros _; by exists q).
      subst v4. destruct Hcase3 as [d Hext]. exists d.
      split; [by apply history_extended_given|].
      apply bool_decide_eq_false in Hu, Hd. by intros [?|[?|?]]. }
    destruct (Hv5 _ _ Hv4')
      as (v5 & Hv5' & h' & hist & pr & fork & Hh' & Htraj & Hfork & ->).
    rewrite Hh4 in Hh'. injection Hh' as <-.
    destruct (appended_vessel_prolongation p5 p6 g t _ Hs6 (Hvh6 g)
                (Hvp6 g ltac:(by eexists)) Hv5')
      as (v6 & pr5 & d' & pr6 & Hv6 & Hpr5 & Hpr6 & Hset).
    simpl in Hpr5. injection Hpr5 as <-. apply Append_fork in Hpr6 as [_ ->].
    unfold Vessel.set_prolongation in Hset. simpl in Hset.
    injection Hset as <-.
    eexists _, d. split; [done|]. split; [|done].
    destruct Hgiven as (hist' & pr' & Htraj' & Hpar & Hmatch).
    rewrite Htraj in Htraj'. injection Htraj' as <- <-.
    exists hist, fork, d'. by rewrite Hpar.
  - intros i Hi. pose proof (shape_celestials _ _ i Hs6) as Hsh.
    rewrite (Hcnone5 i) in Hsh; [by destruct (celestials_ p6 !! i)|].
    apply Hcnone4. pose proof (shape_celestials _ _ i Hs3) as Hsh3.
    rewrite Hi in Hsh3. by destruct (celestials_ p3 !! i).
  - intros i c Hc. destruct (Hcelestials _ _ Hc) as (c' & ? & ? & _).
    by exists c'.
Qed.

(** What the evolution of the prolongations alone makes of a vessel and
    of a celestial: the prolongation has one more point, at [t]. *)
Definition vessel_prolonged (t : Instant) (v v' : Vessel.t) : Prop :=
  ∃ prolongation d prolongation',
    Vessel.prolongation v = Some prolongation ∧
    Append t d prolongation = Some prolongation' ∧
    Vessel.set_prolongation prolongation' v = Some v'.

Definition celestial_prolonged (t : Instant) (c c' : Celestial.t) : Prop :=
  ∃ prolongation d prolongation',
    Celestial.prolongation c = Some prolongation ∧
    Append t d prolongation = Some prolongation' ∧
    c' = Celestial.set_prolongation prolongation' c.

Lemma EvolveProlongationsAndBubble_owners t p p' :
  EvolveProlongationsAndBubble t p = Some p' →
  (∀ g, vessels_ p !! g = None → vessels_ p' !! g = None) ∧
  (∀ g v, vessels_ p !! g = Some v →
          ∃ v', vessels_ p' !! g = Some v' ∧ vessel_prolonged t v v') ∧
  (∀ i, celestials_ p !! i = None → celestials_ p' !! i = None) ∧
  (∀ i c, celestials_ p !! i = Some c →
          ∃ c', celestials_ p' !! i = Some c' ∧ celestial_prolonged t c c').
Proof.
  intros H6.
  destruct (EvolveProlongationsAndBubble_Some _ _ _ H6)
    as (Hs & Hch & Hvh & Hcp & Hvp).
  split; [|split; [|split]].
  - intros g Hg. pose proof (shape_vessels _ _ g Hs) as Hsh.
    rewrite Hg in Hsh. by destruct (vessels_ p' !! g).
  - intros g v Hv.
    destruct (appended_vessel_prolongation p p' g t v Hs (Hvh g)
                (Hvp g ltac:(by eexists)) Hv)
      as (v' & pr & d & pr' & ? & ? & ? & ?).
    exists v'. split; [done|]. by exists pr, d, pr'.
  - intros i Hi. pose proof (shape_celestials _ _ i Hs) as Hsh.
    rewrite Hi in Hsh. by destruct (celestials_ p' !! i).
  - intros i c Hc.
    destruct (appended_celestial_prolongation p p' i t c Hs (Hch i)
                (Hcp i ltac:(by eexists)) Hc)
      as (c' & pr & d & pr' & ? & ? & ? & ?).
    exists c'. split; [done|]. by exists pr, d, pr'.
Qed.

(** The two courses of [AdvanceTime], from the state [p1] the cleanup
    leaves and the bubble [Prepare] returns. *)
Lemma AdvanceTime_cases t planetarium_rotation p q :
  AdvanceTime t planetarium_rotation p = Some q →
  ∃ p1 bubble h,
    CleanUpVessels p = Some p1 ∧
    PhysicsBubble.Prepare (vessels_ p1) (PlanetariumRotation p1)
                          (current_time_ p1) t (bubble_ p1) = Some bubble ∧
    HistoryTime p = Some h ∧
    initializing_ q = false ∧ planetarium_rotation_ q = planetarium_rotation ∧
    current_time_ q = t ∧ sun_ q = sun_ p ∧
    kept_vessels_ q = kept_vessels_ p1 ∧
    bubble_shape (bubble_ q) = bubble_shape bubble ∧
    (∀ g, vessels_ p1 !! g = None → vessels_ q !! g = None) ∧
    (∀ i, celestials_ p !! i = None → celestials_ q !! i = None) ∧
    if bool_decide (Instant_plus h Δt_ < t) then
      ∃ p3 h',
        EvolveHistories t (set_bubble bubble p1) = Some p3 ∧
        HistoryTime p3 = Some h' ∧ HistoryTime q = Some h' ∧
        h < h' ∧ current_time_ p ≤ h' ∧ h' < t ∧ t < h' + Δt_ ∧
        unsynchronized_vessels_ q = ∅ ∧ dirty_vessels_ q = ∅ ∧
        (∀ g v, vessels_ p1 !! g = Some v →
           ∃ v' d,
             vessels_ q !! g = Some v' ∧ vessel_stepped h' t d v v' ∧
             (g ∈ unsynchronized_vessels_ p1 ∨ g ∈ dirty_vessels_ p1 ∨
              PhysicsBubble.contains g bubble = true →
              ∃ qI, Integrate h' Δt_ 0 true (synchronization_refs p3) p3
                      = Some qI ∧
                    synchronization_point p3 qI g (h', d))) ∧
        (∀ i c, celestials_ p !! i = Some c →
           ∃ c', celestials_ q !! i = Some c' ∧ celestial_stepped h' t c c')
    else
      HistoryTime q = Some h ∧
      unsynchronized_vessels_ q = unsynchronized_vessels_ p1 ∧
      dirty_vessels_ q = dirty_vessels_ p1 ∧
      (∀ g v, vessels_ p1 !! g = Some v →
         ∃ v', vessels_ q !! g = Some v' ∧ vessel_prolonged t v v') ∧
      (∀ i c, celestials_ p !! i = Some c →
         ∃ c', celestials_ q !! i = Some c' ∧ celestial_prolonged t c c').
Proof.
  intros (Hini & Hlt & p1 & bubble & h & p5 & p6 & H1 & Hb & Hh & Hstep
          & H6 & ->)%AdvanceTime_Some.
  destruct (CleanUpVessels_Some _ _ H1)
    as (Hcheck & Hv1 & Hk1 & Hu1 & Hd1 & Hc1 & Hb1 & Hi1 & Hr1 & Hct1 & Hsun1).
  assert (HistoryTime (set_bubble bubble p1) = HistoryTime p) as Hh2.
  { unfold HistoryTime. simpl. by rewrite Hc1, Hsun1. }
  rewrite Hh2 in Hh.
  exists p1, bubble, h. split; [done|]. split; [done|]. split; [done|].
  simpl.
  destruct (EvolveProlongationsAndBubble_Some _ _ _ H6)
    as (Hs6 & Hch6 & _).
  destruct (shape_fields _ _ Hs6)
    as (Hu6 & Hd6 & Hk6 & Hb6 & Hi6 & Hr6 & Hct6 & Hsun6).
  case_bool_decide as Hcase.
  - destruct Hstep as (p3 & p4 & H3 & H4 & H5).
    destruct (history_step_Some t (set_bubble bubble p1) p3 p4 p5 p6)
      as (h' & Hh3 & Hh6 & Hlt' & Hct & Hlt'' & Hgt & Hu & Hd & Hk & Hb'
          & Hi & Hsun & Hnone & Hvs & Hcnone & Hcs); try done.
    { intros g v Hv. simpl in *. rewrite Hu1. rewrite Hv1 in Hv.
      case_decide as Hkept; [|done].
      apply Hcheck, CheckVesselInvariants_Some in Hv as Hinv.
      destruct Hinv as (? & ? & _ & _ & _ & Hiff & _).
      rewrite <- Hiff. set_solver. }
    split; [simpl in *; congruence|]. split; [done|]. split; [done|].
    split; [simpl in *; congruence|]. split; [done|]. split; [done|].
    split; [done|]. split; [by rewrite <- Hc1|].
    exists p3, h'. split; [done|]. split; [done|].
    split; [done|]. split; [by apply Hlt'; rewrite Hh2|].
    split; [by rewrite <- Hct1|]. split; [done|]. split; [done|].
    split; [done|]. split; [done|]. split; [done|]. by rewrite <- Hc1.
  - subst p5.
    destruct (EvolveProlongationsAndBubble_owners _ _ _ H6)
      as (Hnone & Hvs & Hcnone & Hcs).
    split; [simpl in *; congruence|]. split; [done|]. split; [done|].
    split; [simpl in *; congruence|]. split; [done|]. split; [done|].
    split; [done|]. split; [by rewrite <- Hc1|].
    split.
    { rewrite <- Hh, <- Hh2. rewrite !HistoryTime_last_time, Hsun6.
      apply last_time_frame, Hch6. }
    split; [done|]. split; [done|]. split; [done|]. by rewrite <- Hc1.
Qed.

Lemma vessel_stepped_facts history_time' t d v v' :
  vessel_stepped history_time' t d v v' →
  Vessel.parent_ v' = Vessel.parent_ v ∧
  Vessel.is_initialized v' = true ∧ Vessel.is_synchronized v' = true ∧
  history_time v' = Some history_time' ∧ prolongation_time v' = Some t ∧
  (∃ history', Vessel.history v' = Some history' ∧
               Trajectory_last history' = Some (history_time', d)) ∧
  ∃ fork d', Vessel.prolongation v'
             = Some (mkTrajectory (Some (history_time', fork)) [(t, d')]).
Proof.
  intros (history' & fork & d' & -> & Hfork & Hmatch).
  assert (Trajectory_last history' = Some (history_time', d)) as Hlast.
  { destruct (Vessel.trajectories_ v); subst; try done.
    by eapply Append_last. }
  unfold history_time, prolongation_time. simpl. rewrite Hlast. simpl.
  repeat split; try done; by eauto.
Qed.

Lemma celestial_stepped_facts history_time' t c c' :
  celestial_stepped history_time' t c c' →
  Celestial.body_ c' = Celestial.body_ c ∧
  Celestial.parent_ c' = Celestial.parent_ c ∧
  celestial_history_time c' = Some history_time' ∧
  celestial_prolongation_time c' = Some t ∧
  ∃ fork d', Celestial.prolongation c'
             = Some (mkTrajectory (Some (history_time', fork)) [(t, d')]).
Proof.
  intros (history & d & history' & fork & d' & Hh & Hh' & Hfork & ->).
  unfold celestial_history_time, celestial_prolongation_time. simpl.
  rewrite (Append_last _ _ _ _ Hh'). simpl. repeat split; try done.
  by eauto.
Qed.

Lemma vessel_prolonged_facts t v v' :
  vessel_prolonged t v v' →
  Vessel.parent_ v' = Vessel.parent_ v ∧
  Vessel.is_initialized v' = true ∧
  Vessel.is_synchronized v' = Vessel.is_synchronized v ∧
  Vessel.history v' = Vessel.history v ∧
  prolongation_time v' = Some t ∧
  (∀ t0, prolongation_time v = Some t0 → t0 < t).
Proof.
  intros (pr & d & pr' & Hpr & Hpr' & Hset).
  unfold prolongation_time. rewrite Hpr. simpl.
  pose proof (Append_last _ _ _ _ Hpr') as Hlast.
  apply Append_Some in Hpr' as [_ Hlt].
  unfold Vessel.prolongation, Vessel.set_prolongation, Vessel.history,
    Vessel.is_initialized, Vessel.is_synchronized in *.
  destruct v as [par [|pr0|h0 pr0]]; simplify_eq/=; rewrite Hlast; simpl;
    (repeat split; try done);
    intros t0 Ht0; destruct (Trajectory_last pr) as [s|]; simplify_eq/=;
    by apply Hlt.
Qed.

Lemma celestial_prolonged_facts t c c' :
  celestial_prolonged t c c' →
  Celestial.body_ c' = Celestial.body_ c ∧
  Celestial.parent_ c' = Celestial.parent_ c ∧
  Celestial.history_ c' = Celestial.history_ c ∧
  celestial_history_time c' = celestial_history_time c ∧
  celestial_prolongation_time c' = Some t ∧
  (∀ t0, celestial_prolongation_time c = Some t0 → t0 < t).
Proof.
  intros (pr & d & pr' & Hpr & Hpr' & ->).
  pose proof (Append_last _ _ _ _ Hpr') as Hlast.
  apply Append_Some in Hpr' as [_ Hlt].
  unfold celestial_prolongation_time, celestial_history_time,
    Celestial.prolongation, Celestial.history, Celestial.is_initialized,
    Celestial.set_prolongation in *.
  destruct c as [b par [h|] pr0]; simplify_eq/=. rewrite Hlast. simpl.
  repeat split; try done.
  intros t0 Ht0. destruct (Trajectory_last pr) as [s|]; simplify_eq/=.
  by apply Hlt.
Qed.

(** The vessels and the celestials [AdvanceTime] returns are those the
    cleanup has left. *)
Lemma AdvanceTime_vessel_origin (p p1 q : Plugin) g v' :
  CleanUpVessels p = Some p1 →
  (∀ g, vessels_ p1 !! g = None → vessels_ q !! g = None) →
  vessels_ q !! g = Some v' →
  ∃ v, vessels_ p1 !! g = Some v ∧ vessels_ p !! g = Some v ∧
       g ∈ kept_vessels_ p.
Proof.
  intros H1 Hnone Hv'.
  destruct (CleanUpVessels_Some _ _ H1) as (_ & Hv1 & _).
  destruct (vessels_ p1 !! g) as [v|] eqn:Hv; [|by rewrite Hnone in Hv'].
  exists v. split; [done|]. rewrite Hv1 in Hv. by case_decide.
Qed.

Lemma AdvanceTime_celestial_origin (p q : Plugin) i (c' : Celestial.t) :
  (∀ i, celestials_ p !! i = None → celestials_ q !! i = None) →
  celestials_ q !! i = Some c' → ∃ c, celestials_ p !! i = Some c.
Proof.
  intros Hnone Hc'.
  destruct (celestials_ p !! i) as [c|] eqn:Hc; [by exists c|].
  by rewrite Hnone in Hc'.
Qed.

(** C1 (amended).  [AdvanceTime(t, planetarium_rotation)] advances the
    histories if, and only if, [HistoryTime() + Δt < t], strictly, the sum
    being the rounded sum of the code: when [HistoryTime() + Δt = t] no
    history step is performed.  With a step the new [HistoryTime()] is
    not before the current time of the call, the sets of unsynchronized
    and of dirty vessels are empty, and every vessel and every celestial
    has a history that ends at the new [HistoryTime()] and a prolongation
    forked there whose one point is at [t]; without a step [HistoryTime()]
    and every history are what they were. *)
Theorem AdvanceTime_advances_histories t planetarium_rotation p q h :
  AdvanceTime t planetarium_rotation p = Some q →
  HistoryTime p = Some h →
  ∃ h',
    HistoryTime q = Some h' ∧
    (h < h' ↔ Instant_plus h Δt_ < t) ∧
    (Instant_plus h Δt_ < t →
     current_time_ p ≤ h' ∧
     unsynchronized_vessels_ q = ∅ ∧ dirty_vessels_ q = ∅ ∧
     (∀ g v', vessels_ q !! g = Some v' →
        Vessel.is_synchronized v' = true ∧ history_time v' = Some h' ∧
        ∃ fork d',
          Vessel.prolongation v'
            = Some (mkTrajectory (Some (h', fork)) [(t, d')])) ∧
     (∀ i c', celestials_ q !! i = Some c' →
        celestial_history_time c' = Some h' ∧
        ∃ fork d',
          Celestial.prolongation c'
            = Some (mkTrajectory (Some (h', fork)) [(t, d')]))) ∧
    (¬ Instant_plus h Δt_ < t →
     h' = h ∧
     (∀ g v', vessels_ q !! g = Some v' →
        ∃ v, vessels_ p !! g = Some v ∧
             Vessel.history v' = Vessel.history v) ∧
     (∀ i c', celestials_ q !! i = Some c' →
        ∃ c, celestials_ p !! i = Some c ∧
             Celestial.history_ c' = Celestial.history_ c)).
Proof.
  intros HA Hh.
  destruct (AdvanceTime_cases _ _ _ _ HA)
    as (p1 & bubble & h0 & H1 & _ & Hh0 & _ & _ & _ & _ & _ & _ & Hnone
        & Hcnone & Hcase).
  rewrite Hh in Hh0. injection Hh0 as <-.
  case_bool_decide as Hstep.
  - destruct Hcase as (p3 & h' & _ & _ & Hh' & Hlt & Hct & Hlt' & Hgt & Hu
                       & Hd & Hvs & Hcs).
    exists h'. split; [done|]. split; [done|]. split; [|done].
    intros _. repeat (split; [done|]). split.
    + intros g v' Hv'.
      destruct (AdvanceTime_vessel_origin _ _ _ _ _ H1 Hnone Hv')
        as (v & Hv & _).
      destruct (Hvs _ _ Hv) as (v'' & d & Hv'' & Hstepped & _).
      rewrite Hv' in Hv''. injection Hv'' as <-.
      by destruct (vessel_stepped_facts _ _ _ _ _ Hstepped)
        as (_ & _ & ? & ? & _ & _ & ?).
    + intros i c' Hc'.
      destruct (AdvanceTime_celestial_origin _ _ _ _ Hcnone Hc') as [c Hc].
      destruct (Hcs _ _ Hc) as (c'' & Hc'' & Hstepped).
      rewrite Hc' in Hc''. injection Hc'' as <-.
      by destruct (celestial_stepped_facts _ _ _ _ Hstepped)
        as (_ & _ & ? & _ & ?).
  - destruct Hcase as (Hh' & _ & _ & Hvs & Hcs).
    exists h. split; [done|]. split; [lia|]. split; [done|].
    intros _. split; [done|]. split.
    + intros g v' Hv'.
      destruct (AdvanceTime_vessel_origin _ _ _ _ _ H1 Hnone Hv')
        as (v & Hv & Hvp & _).
      destruct (Hvs _ _ Hv) as (v'' & Hv'' & Hprolonged).
      rewrite Hv' in Hv''. injection Hv'' as <-.
      exists v. split; [done|].
      by destruct (vessel_prolonged_facts _ _ _ Hprolonged)
        as (_ & _ & _ & ? & _).
    + intros i c' Hc'.
      destruct (AdvanceTime_celestial_origin _ _ _ _ Hcnone Hc') as [c Hc].
      destruct (Hcs _ _ Hc) as (c'' & Hc'' & Hprolonged).
      rewrite Hc' in Hc''. injection Hc'' as <-.
      exists c. split; [done|].
      by destruct (celestial_prolonged_facts _ _ _ Hprolonged)
        as (_ & _ & ? & _).
Qed.

Lemma Trajectory_find_singleton t d fork :
  Trajectory_find t (mkTrajectory None [(t, d)]) = Some fork → fork = d.
Proof.
  unfold Trajectory_find. simpl. rewrite decide_True by done. simpl.
  by intros [= <-].
Qed.

(** C5 (amended).  After a call to [AdvanceTime] in which a history step
    was performed, the sets of unsynchronized and of dirty vessels are
    empty and every vessel has a history that ends at the new
    [HistoryTime()] and a prolongation forked there: a vessel that had no
    history has one that begins with that point, a vessel that had one has
    received that point after those it had.  For a vessel that was
    unsynchronized or dirty or is in the bubble, the point is, in the
    state the integration of the synchronization reaches, the last point
    of its prolongation if the vessel is outside the bubble, and the last
    point of the trajectory of the centre of mass of the bubble displaced
    by the offset of the vessel if it is in the bubble. *)
Theorem AdvanceTime_synchronizes t planetarium_rotation p q h :
  AdvanceTime t planetarium_rotation p = Some q →
  HistoryTime p = Some h → Instant_plus h Δt_ < t →
  unsynchronized_vessels_ q = ∅ ∧ dirty_vessels_ q = ∅ ∧
  ∃ p1 bubble p3 h',
    CleanUpVessels p = Some p1 ∧
    PhysicsBubble.Prepare (vessels_ p1) (PlanetariumRotation p1)
                          (current_time_ p1) t (bubble_ p1) = Some bubble ∧
    EvolveHistories t (set_bubble bubble p1) = Some p3 ∧
    HistoryTime q = Some h' ∧ h < h' ∧
    ∀ g v', vessels_ q !! g = Some v' →
      ∃ v d history' fork d',
        vessels_ p !! g = Some v ∧
        Vessel.history v' = Some history' ∧
        Trajectory_last history' = Some (h', d) ∧
        Vessel.prolongation v'
          = Some (mkTrajectory (Some (h', fork)) [(t, d')]) ∧
        Trajectory_find h' history' = Some fork ∧
        (Vessel.is_synchronized v = false →
         history' = mkTrajectory None [(h', d)] ∧ fork = d) ∧
        (∀ history, Vessel.history v = Some history →
                    Append h' d history = Some history') ∧
        (g ∈ unsynchronized_vessels_ p ∨ g ∈ dirty_vessels_ p ∨
         PhysicsBubble.contains g bubble = true →
         ∃ qI, Integrate h' Δt_ 0 true (synchronization_refs p3) p3
                 = Some qI ∧
               synchronization_point p3 qI g (h', d)).
Proof.
  intros HA Hh Hstep.
  destruct (AdvanceTime_cases _ _ _ _ HA)
    as (p1 & bubble & h0 & H1 & HP & Hh0 & _ & _ & _ & _ & _ & _ & Hnone
        & Hcnone & Hcase).
  rewrite Hh in Hh0. injection Hh0 as <-.
  rewrite bool_decide_eq_true_2 in Hcase by done.
  destruct Hcase as (p3 & h' & H3 & _ & Hh' & Hlt & Hct & Hlt' & Hgt & Hu
                     & Hd & Hvs & Hcs).
  split; [done|]. split; [done|].
  exists p1, bubble, p3, h'. repeat (split; [done|]).
  intros g v' Hv'.
  destruct (AdvanceTime_vessel_origin _ _ _ _ _ H1 Hnone Hv')
    as (v & Hv & Hvp & Hkept).
  destruct (Hvs _ _ Hv) as (v'' & d & Hv'' & Hstepped & Horigin).
  rewrite Hv' in Hv''. injection Hv'' as <-.
  destruct Hstepped as (history' & fork & d' & -> & Hfork & Hmatch).
  exists v, d, history', fork, d'. split; [done|]. split; [done|].
  assert (Trajectory_last history' = Some (h', d)) as Hlast.
  { destruct (Vessel.trajectories_ v); subst; try done.
    by eapply Append_last. }
  split; [done|]. split; [done|]. split; [done|].
  split; [|split].
  - unfold Vessel.is_synchronized. intros Hsy.
    destruct (Vessel.trajectories_ v); try done; subst;
      (split; [done|]); by eapply Trajectory_find_singleton.
  - unfold Vessel.history. intros history Hhist.
    destruct (Vessel.trajectories_ v); by simplify_eq/=.
  - intros Hor. apply Horigin.
    destruct (CleanUpVessels_Some _ _ H1) as (_ & _ & _ & Hu1 & Hd1 & _).
    rewrite Hu1, Hd1. apply (elem_of_dom_2 (D := gset GUID)) in Hvp.
    clear -Hor Hkept Hvp. set_solver.
Qed.

(** C8.  [AdvanceTime] begins with [CleanUpVessels]: the vessels that are
    not in [kept_vessels_] are removed, from the plugin and from the sets
    of unsynchronized and of dirty vessels, [kept_vessels_] is cleared of
    the vessels of the plugin (of all it holds, when it holds vessels of
    the plugin only), and a kept vessel, with its parent and its
    trajectories, and its membership in the two sets are as they were; the
    vessels [AdvanceTime] returns are those the cleanup has left. *)
Theorem AdvanceTime_cleans_up_vessels t planetarium_rotation p q :
  AdvanceTime t planetarium_rotation p = Some q →
  ∃ p1,
    CleanUpVessels p = Some p1 ∧
    (∀ g, g ∉ kept_vessels_ p → vessels_ p1 !! g = None) ∧
    (∀ g, g ∈ kept_vessels_ p → vessels_ p1 !! g = vessels_ p !! g) ∧
    kept_vessels_ p1 = kept_vessels_ p ∖ dom (vessels_ p) ∧
    (kept_vessels_ p ⊆ dom (vessels_ p) → kept_vessels_ p1 = ∅) ∧
    (∀ g, g ∈ unsynchronized_vessels_ p1 ↔
          g ∈ unsynchronized_vessels_ p ∧
          (is_Some (vessels_ p !! g) → g ∈ kept_vessels_ p)) ∧
    (∀ g, g ∈ dirty_vessels_ p1 ↔
          g ∈ dirty_vessels_ p ∧
          (is_Some (vessels_ p !! g) → g ∈ kept_vessels_ p)) ∧
    celestials_ p1 = celestials_ p ∧ bubble_ p1 = bubble_ p ∧
    initializing_ p1 = initializing_ p ∧
    planetarium_rotation_ p1 = planetarium_rotation_ p ∧
    current_time_ p1 = current_time_ p ∧ sun_ p1 = sun_ p ∧
    (∀ g, is_Some (vessels_ q !! g) ↔ is_Some (vessels_ p1 !! g)) ∧
    kept_vessels_ q = kept_vessels_ p1.
Proof.
  intros HA.
  destruct (AdvanceTime_cases _ _ _ _ HA)
    as (p1 & bubble & h & H1 & _ & _ & _ & _ & _ & _ & Hk & _ & Hnone
        & _ & Hcase).
  destruct (CleanUpVessels_Some _ _ H1)
    as (_ & Hv1 & Hk1 & Hu1 & Hd1 & Hc1 & Hb1 & Hi1 & Hr1 & Hct1 & Hsun1).
  exists p1. split; [done|].
  split; [by intros g Hg; rewrite Hv1, decide_False|].
  split; [by intros g Hg; rewrite Hv1, decide_True|].
  split; [done|]. split; [clear -Hk1; set_solver|].
  split.
  { intros g. rewrite Hu1, <- elem_of_dom. clear.
    destruct (decide (g ∈ kept_vessels_ p)); set_solver. }
  split.
  { intros g. rewrite Hd1, <- elem_of_dom. clear.
    destruct (decide (g ∈ kept_vessels_ p)); set_solver. }
  repeat (split; [done|]). split; [|done].
  intros g. split.
  - intros [v' Hv']. destruct (vessels_ p1 !! g) as [v|] eqn:Hg; [by eexists|].
    by rewrite (Hnone _ Hg) in Hv'.
  - intros [v Hv]. case_bool_decide.
    + destruct Hcase
        as (p3 & h' & _ & _ & _ & _ & _ & _ & _ & _ & _ & Hvs & _).
      destruct (Hvs _ _ Hv) as (v' & d & ? & _). by exists v'.
    + destruct Hcase as (_ & _ & _ & Hvs & _).
      destruct (Hvs _ _ Hv) as (v' & ? & _). by exists v'.
Qed.

(** ** Persistence *)

Lemma emplace_union `{Countable K} {A} (k : K) (a : A) (acc m : gmap K A) :
  emplace k a acc ∪ m = acc ∪ <[k := a]> m.
Proof.
  unfold emplace. apply map_eq. intros k'.
  destruct (acc !! k) as [a0|] eqn:Hk.
  - rewrite !lookup_union. destruct (decide (k = k')) as [<-|Hne].
    + rewrite Hk, lookup_insert_eq. by destruct (m !! k).
    + by rewrite lookup_insert_ne.
  - rewrite !lookup_union. destruct (decide (k = k')) as [<-|Hne].
    + rewrite !lookup_insert_eq, Hk. simpl. by destruct (m !! k).
    + by rewrite !lookup_insert_ne.
Qed.

(** A celestial as its message gives it back, before the parents are
    restored. *)
Definition without_parent (c : Celestial.t) : Celestial.t :=
  Celestial.mk (Celestial.body_ c) None (Celestial.history_ c)
               (Celestial.prolongation_ c).

Lemma Celestial_ReadFromMessage_WriteToMessage c m :
  Celestial_WriteToMessage c = Some m →
  Celestial_ReadFromMessage m = without_parent c.
Proof.
  unfold Celestial_WriteToMessage, Celestial_ReadFromMessage, without_parent.
  intros H1. check_inv H1 as Hi. bind_inv H1 as h Hh. bind_inv H1 as pr Hpr.
  by injection H1 as <-.
Qed.

Lemma Vessel_ReadFromMessage_WriteToMessage v m :
  Vessel_WriteToMessage v = Some m →
  Vessel.is_initialized v = true ∧
  Vessel_ReadFromMessage m (Vessel.parent v) = v.
Proof.
  unfold Vessel_WriteToMessage, Vessel_ReadFromMessage, Vessel.parent.
  intros H1. check_inv H1 as Hi. split; [done|].
  destruct v as [par [|pr|h pr]]; by simplify_eq/=.
Qed.

(** What [WriteToMessage] writes for a celestial and for a vessel. *)
Definition celestial_written (p : Plugin)
    (index_celestial : Index * Celestial.t)
    (message : serialization.Plugin_CelestialAndProperties) : Prop :=
  serialization.index message = index_celestial.1 ∧
  Celestial_ReadFromMessage (serialization.celestial message)
    = without_parent index_celestial.2 ∧
  serialization.celestial_parent_index message
    = Celestial.parent_ index_celestial.2 ∧
  ∀ parent, Celestial.parent_ index_celestial.2 = Some parent →
            is_Some (celestials_ p !! parent).

Definition vessel_written (p : Plugin) (guid_vessel : GUID * Vessel.t)
    (message : serialization.Plugin_VesselAndProperties) : Prop :=
  serialization.guid message = guid_vessel.1 ∧
  Vessel.is_initialized guid_vessel.2 = true ∧
  serialization.parent_index message = Vessel.parent guid_vessel.2 ∧
  Vessel_ReadFromMessage (serialization.vessel message)
                         (serialization.parent_index message)
    = guid_vessel.2 ∧
  serialization.dirty message = is_dirty guid_vessel.1 p ∧
  is_Some (celestials_ p !! Vessel.parent guid_vessel.2).

Lemma WriteToMessage_Some p m :
  WriteToMessage p = Some m →
  initializing_ p = false ∧
  Forall2 (celestial_written p) (map_to_list (celestials_ p))
          (serialization.celestials m) ∧
  Forall2 (vessel_written p) (map_to_list (vessels_ p))
          (serialization.vessels m) ∧
  PhysicsBubble_WriteToMessage
    (λ vessel, bool_decide (is_Some (vessels_ p !! vessel))) (bubble_ p)
    = Some (serialization.bubble m) ∧
  is_Some (celestials_ p !! sun_ p) ∧
  serialization.planetarium_rotation m = planetarium_rotation_ p ∧
  serialization.current_time m = current_time_ p ∧
  serialization.sun_index m = sun_ p.
Proof.
  unfold WriteToMessage. intros H1. check_inv H1 as Hi.
  apply negb_true_iff in Hi.
  bind_inv H1 as cs Hcs. bind_inv H1 as vs Hvs. bind_inv H1 as b Hb.
  bind_inv H1 as sun Hsun. injection H1 as <-. simpl.
  split; [done|]. split; [|split; [|by eauto]].
  - apply mapM_Some in Hcs. eapply Forall2_impl; [exact Hcs|].
    intros [i c] msg Hmsg. simpl in Hmsg.
    bind_inv Hmsg as cm Hcm. bind_inv Hmsg as par Hpar.
    injection Hmsg as <-. unfold celestial_written. simpl.
    split; [done|].
    split; [by apply Celestial_ReadFromMessage_WriteToMessage|].
    unfold Celestial.has_parent, Celestial.parent in Hpar.
    destruct (Celestial.parent_ c) as [parent|] eqn:Hparent; simpl in Hpar.
    + destruct (celestials_ p !! parent) eqn:Hp; simplify_eq/=.
      split; [done|]. intros ? [= <-]. by eexists.
    + simplify_eq/=. by split.
  - apply mapM_Some in Hvs. eapply Forall2_impl; [exact Hvs|].
    intros [g v] msg Hmsg. simpl in Hmsg.
    bind_inv Hmsg as vm Hvm. bind_inv Hmsg as par Hpar.
    injection Hmsg as <-. unfold vessel_written. simpl.
    apply Vessel_ReadFromMessage_WriteToMessage in Hvm as [? ?].
    repeat split; try done; by eexists.
Qed.

(** The first loop of [ReadFromMessage] over the celestials. *)
Lemma ReadFromMessage_celestials p l messages :
  Forall2 (celestial_written p) l messages →
  ∀ acc : gmap Index Celestial.t,
    foldl (λ celestials celestial_message,
             emplace (serialization.index celestial_message)
                     (Celestial_ReadFromMessage
                        (serialization.celestial celestial_message))
                     celestials)
          acc messages
    = acc ∪ (without_parent <$> list_to_map l).
Proof.
  induction 1 as [|[k c] message l messages (Hi & Hr & _) _ IH];
    intros acc; simpl.
  - by rewrite fmap_empty, (right_id_L ∅ (∪)).
  - simpl in *. by rewrite IH, Hi, Hr, emplace_union, fmap_insert.
Qed.

(** The second loop, which restores the parents. *)
Definition restore_parent (celestials : gmap Index Celestial.t)
    (celestial_message : serialization.Plugin_CelestialAndProperties)
  : option (gmap Index Celestial.t) :=
  match serialization.celestial_parent_index celestial_message with
  | Some parent_index =>
      celestial ← celestials !! serialization.index celestial_message;
      _ ← celestials !! parent_index;
      Some (<[serialization.index celestial_message :=
                Celestial.set_parent parent_index celestial]> celestials)
  | None => Some celestials
  end.

Lemma restore_parent_unfold celestials celestial_message :
  restore_parent celestials celestial_message =
    match serialization.celestial_parent_index celestial_message with
    | Some parent_index =>
        celestial ← celestials !! serialization.index celestial_message;
        _ ← celestials !! parent_index;
        Some (<[serialization.index celestial_message :=
                  Celestial.set_parent parent_index celestial]> celestials)
    | None => Some celestials
    end.
Proof. done. Qed.

Lemma ReadFromMessage_parents p l messages :
  (∀ k c, (k, c) ∈ l → celestials_ p !! k = Some c) →
  Forall2 (celestial_written p) l messages →
  ∀ (acc : gmap Index Celestial.t) (done : gset Index),
    (∀ k, celestials_ p !! k = None → acc !! k = None) →
    (∀ k c, celestials_ p !! k = Some c →
            acc !! k = Some (if decide (k ∈ done) then c
                             else without_parent c)) →
    ∃ acc',
      foldlM restore_parent acc messages = Some acc' ∧
      (∀ k, celestials_ p !! k = None → acc' !! k = None) ∧
      (∀ k c, celestials_ p !! k = Some c →
              acc' !! k = Some (if decide (k ∈ done ∨ k ∈ l.*1) then c
                                else without_parent c)).
Proof.
  intros Hl Hw. revert Hl.
  induction Hw as [|[k0 c0] message l messages (Hi & _ & Hpar & Hex) _ IH];
    intros Hl acc done_ Hnone Hsome; simpl.
  - exists acc. split; [done|]. split; [done|]. intros k c Hk.
    rewrite (Hsome _ _ Hk). simpl.
    repeat case_decide; try done; exfalso; set_solver.
  - simpl in *.
    assert (celestials_ p !! k0 = Some c0) as Hk0
      by (apply Hl; left).
    assert (∀ acc1 : gmap Index Celestial.t,
              (∀ k, celestials_ p !! k = None → acc1 !! k = None) →
              (∀ k c, celestials_ p !! k = Some c →
                      acc1 !! k = Some (if decide (k ∈ done_ ∪ {[k0]})
                                        then c else without_parent c)) →
              ∃ acc', foldlM restore_parent acc1 messages = Some acc' ∧
                (∀ k, celestials_ p !! k = None → acc' !! k = None) ∧
                (∀ k c, celestials_ p !! k = Some c →
                   acc' !! k
                   = Some (if decide (k ∈ done_ ∨ k ∈ k0 :: l.*1) then c
                           else without_parent c))) as Hnext.
    { intros acc1 Hnone1 Hsome1.
      destruct (IH (λ k c Hin, Hl k c (list_elem_of_further _ _ _ Hin))
                  acc1 (done_ ∪ {[k0]}) Hnone1 Hsome1)
        as (acc' & Hacc' & Hnone' & Hsome').
      exists acc'. split; [done|]. split; [done|]. intros k c Hk.
      rewrite (Hsome' _ _ Hk).
      repeat case_decide; try done; exfalso; set_solver. }
    rewrite restore_parent_unfold, Hpar.
    destruct (Celestial.parent_ c0) as [parent|] eqn:Hparent.
    + rewrite Hi, (Hsome _ _ Hk0). simpl.
      destruct (Hex parent eq_refl) as [cp Hcp].
      rewrite (Hsome _ _ Hcp). simpl.
      apply Hnext.
      * intros k Hk. rewrite lookup_insert_ne by congruence. by apply Hnone.
      * intros k c Hk. destruct (decide (k0 = k)) as [<-|Hne].
        -- rewrite lookup_insert_eq.
           rewrite (decide_True (P := k0 ∈ done_ ∪ {[k0]})) by set_solver.
           rewrite Hk0 in Hk. injection Hk as <-.
           unfold Celestial.set_parent, without_parent.
           destruct c0; simplify_eq/=. by case_decide.
        -- rewrite lookup_insert_ne, (Hsome _ _ Hk) by done.
           repeat case_decide; try done; exfalso; set_solver.
    + apply Hnext; [done|].
      intros k c Hk. rewrite (Hsome _ _ Hk).
      destruct (decide (k0 = k)) as [<-|Hne].
      * rewrite Hk0 in Hk. injection Hk as <-.
        rewrite (decide_True (P := k0 ∈ done_ ∪ {[k0]})) by set_solver.
        unfold without_parent. destruct c0; simplify_eq/=. by case_decide.
      * repeat case_decide; try done; exfalso; set_solver.
Qed.

(** The loop of [ReadFromMessage] over the vessels. *)
Definition restore_vessel (celestials : gmap Index Celestial.t)
    (acc : gmap GUID Vessel.t * gset GUID)
    (vessel_message : serialization.Plugin_VesselAndProperties)
  : option (gmap GUID Vessel.t * gset GUID) :=
  _ ← celestials !! serialization.parent_index vessel_message;
  let vessel :=
    Vessel_ReadFromMessage (serialization.vessel vessel_message)
      (serialization.parent_index vessel_message) in
  let dirty_vessels :=
    if serialization.dirty vessel_message
    then {[serialization.guid vessel_message]} ∪ acc.2
    else acc.2 in
  CHECK (bool_decide (acc.1 !! serialization.guid vessel_message = None));;
  Some (<[serialization.guid vessel_message := vessel]> acc.1, dirty_vessels).

Lemma restore_vessel_unfold celestials acc vessel_message :
  restore_vessel celestials acc vessel_message =
    _ ← celestials !! serialization.parent_index vessel_message;
    CHECK (bool_decide (acc.1 !! serialization.guid vessel_message = None));;
    Some (<[serialization.guid vessel_message :=
              Vessel_ReadFromMessage (serialization.vessel vessel_message)
                (serialization.parent_index vessel_message)]> acc.1,
          if serialization.dirty vessel_message
          then {[serialization.guid vessel_message]} ∪ acc.2
          else acc.2).
Proof. done. Qed.

Lemma ReadFromMessage_vessels p l messages :
  Forall2 (vessel_written p) l messages →
  NoDup l.*1 →
  ∀ (vessels : gmap GUID Vessel.t) (dirty_vessels : gset GUID),
    (∀ g, g ∈ l.*1 → vessels !! g = None) →
    ∃ dirty_vessels',
      foldlM (restore_vessel (celestials_ p)) (vessels, dirty_vessels)
             messages
      = Some (vessels ∪ list_to_map l, dirty_vessels') ∧
      ∀ g, g ∈ dirty_vessels' ↔
           g ∈ dirty_vessels ∨ g ∈ l.*1 ∧ g ∈ dirty_vessels_ p.
Proof.
  induction 1
    as [|[g0 v0] message l messages (Hg & _ & Hpar & Hv & Hd & Hex) _ IH];
    intros Hnd vessels dirty_vessels Hfresh; simpl.
  - exists dirty_vessels. rewrite (right_id_L ∅ (∪)). split; [done|].
    set_solver.
  - simpl in *. apply NoDup_cons in Hnd as [Hg0 Hnd].
    rewrite restore_vessel_unfold. simpl.
    rewrite Hv, Hd, Hpar. destruct Hex as [parent ->]. simpl.
    rewrite Hg, Hfresh by left. simpl.
    destruct (IH Hnd (<[g0 := v0]> vessels)
                (if is_dirty g0 p then {[g0]} ∪ dirty_vessels
                 else dirty_vessels)) as (dirty' & -> & Hdirty').
    { intros g Hin. rewrite lookup_insert_ne by (by intros <-).
      apply Hfresh. by right. }
    exists dirty'. split.
    + f_equal. f_equal. rewrite <- insert_union_l.
      by rewrite <- insert_union_r by (apply Hfresh; left).
    + intros g. rewrite Hdirty'. unfold is_dirty.
      case_bool_decide; set_solver.
Qed.

(** The set of unsynchronized vessels the deserializing constructor
    computes. *)
Lemma Plugin_restore_unsynchronized (l : list (GUID * Vessel.t))
    (acc : gset GUID) g :
  g ∈ foldl (λ (unsynchronized : gset GUID) (guid_vessel : GUID * Vessel.t),
               if negb (Vessel.is_synchronized guid_vessel.2)
               then {[guid_vessel.1]} ∪ unsynchronized
               else unsynchronized)
            acc l ↔
  g ∈ acc ∨ ∃ v, (g, v) ∈ l ∧ Vessel.is_synchronized v = false.
Proof.
  revert acc. induction l as [|[g0 v0] l IH]; intros acc; simpl.
  - split; [by left|]. intros [?|(v & ?%elem_of_nil & _)]; done.
  - rewrite IH. simpl. split.
    + intros [Hin|(v & Hin & Hs)].
      * destruct (Vessel.is_synchronized v0) eqn:Hs0; simpl in Hin;
          [by left|].
        apply elem_of_union in Hin as [->%elem_of_singleton|?]; [|by left].
        right. exists v0. split; [left|done].
      * right. exists v. split; [by right|done].
    + intros [Hin|(v & Hin & Hs)].
      * left. destruct (negb _); set_solver.
      * apply elem_of_cons in Hin as [[= -> ->]|Hin].
        -- left. rewrite Hs. simpl. set_solver.
        -- right. by exists v.
Qed.

(** [ReadFromMessage] gives back the plugin [WriteToMessage] was given,
    but for [kept_vessels_], which is not written and is empty in the
    plugin read, and for the two other sets of vessels: that of the
    unsynchronized ones is computed from the vessels and that of the dirty
    ones holds vessels of the plugin only. *)
Lemma ReadFromMessage_WriteToMessage p m :
  WriteToMessage p = Some m →
  ∃ unsynchronized dirty,
    ReadFromMessage m
    = Some (mkPlugin (vessels_ p) (celestials_ p) unsynchronized dirty ∅
                     (bubble_ p) false (planetarium_rotation_ p)
                     (current_time_ p) (sun_ p)) ∧
    (∀ g, g ∈ unsynchronized ↔
          ∃ v, vessels_ p !! g = Some v ∧ Vessel.is_synchronized v = false) ∧
    (∀ g, g ∈ dirty ↔ g ∈ dirty_vessels_ p ∧ is_Some (vessels_ p !! g)).
Proof.
  intros (Hi & Hcs & Hvs & Hb & [sun Hsun] & Hr & Hct & Hs)%WriteToMessage_Some.
  unfold ReadFromMessage.
  rewrite (ReadFromMessage_celestials p _ _ Hcs ∅).
  rewrite list_to_map_to_list, (left_id_L ∅ (∪)).
  destruct (ReadFromMessage_parents p _ _
              (λ k c Hin, proj1 (elem_of_map_to_list _ _ _) Hin) Hcs
              (without_parent <$> celestials_ p) ∅)
    as (celestials & Hcelestials & Hnone & Hsome).
  { intros k Hk. by rewrite lookup_fmap, Hk. }
  { intros k c Hk. rewrite lookup_fmap, Hk. simpl. by rewrite decide_False. }
  assert (celestials = celestials_ p) as ->.
  { apply map_eq. intros k.
    destruct (celestials_ p !! k) as [c|] eqn:Hk; [|by apply Hnone].
    rewrite (Hsome _ _ Hk), decide_True; [done|]. right.
    apply list_elem_of_fmap. exists (k, c).
    by rewrite elem_of_map_to_list. }
  unfold restore_parent in Hcelestials. rewrite Hcelestials. simpl.
  destruct (ReadFromMessage_vessels p _ _ Hvs (NoDup_fst_map_to_list _) ∅ ∅)
    as (dirty & Hvessels & Hdirty); [done|].
  rewrite list_to_map_to_list, (left_id_L ∅ (∪)) in Hvessels.
  unfold restore_vessel in Hvessels. rewrite Hvessels. simpl.
  unfold PhysicsBubble_WriteToMessage in Hb.
  check_inv Hb as Hcurrent. check_inv Hb as Hnext. injection Hb as Hb.
  unfold PhysicsBubble_ReadFromMessage. rewrite <- Hb. simpl.
  rewrite Hcurrent, Hnext. simpl.
  unfold Plugin_restore. rewrite Hs, Hsun. simpl.
  eexists _, dirty. split.
  - unfold EndInitialization. simpl. rewrite Hr, Hct.
    by destruct (bubble_ p).
  - split.
    + intros g. rewrite Plugin_restore_unsynchronized. split.
      * intros [?%elem_of_empty|(v & Hin & Hsy)]; [done|].
        exists v. by rewrite <- elem_of_map_to_list.
      * intros (v & Hv & Hsy). right. exists v.
        by rewrite elem_of_map_to_list.
    + intros g. rewrite Hdirty. split.
      * intros [?%elem_of_empty|[Hin Hd]]; [done|]. split; [done|].
        apply list_elem_of_fmap in Hin as ([g' v] & -> & Hin).
        apply elem_of_map_to_list in Hin. by eexists.
      * intros [Hd [v Hv]]. right. split; [|done].
        apply list_elem_of_fmap. exists (g, v).
        by rewrite elem_of_map_to_list.
Qed.

(** ** The invariants of the plugin *)

(** The plugins the host obtains once initialization has ended, through
    the calls that change the plugin, a plugin read from the message
    written by such a plugin being one of them. *)
Inductive reachable : Plugin → Prop :=
  | reachable_EndInitialization p :
      initialization p → reachable (EndInitialization p)
  | reachable_UpdateCelestialHierarchy p celestial_index parent_index p' :
      reachable p →
      UpdateCelestialHierarchy celestial_index parent_index p = Some p' →
      reachable p'
  | reachable_InsertOrKeepVessel p vessel_guid parent_index inserted p' :
      reachable p →
      InsertOrKeepVessel vessel_guid parent_index p = Some (inserted, p') →
      reachable p'
  | reachable_SetVesselStateOffset p vessel_guid from_parent p' :
      reachable p →
      SetVesselStateOffset vessel_guid from_parent p = Some p' →
      reachable p'
  | reachable_AdvanceTime p t planetarium_rotation p' :
      reachable p →
      AdvanceTime t planetarium_rotation p = Some p' →
      reachable p'
  | reachable_AddVesselToNextPhysicsBubble p vessel_guid parts p' :
      reachable p →
      AddVesselToNextPhysicsBubble vessel_guid parts p = Some p' →
      reachable p'
  | reachable_ReadFromMessage p message p' :
      reachable p →
      WriteToMessage p = Some message →
      ReadFromMessage message = Some p' →
      reachable p'.

(** What every such plugin satisfies. *)
Definition consistent (p : Plugin) : Prop :=
  initializing_ p = false ∧
  (∃ h, HistoryTime p = Some h ∧ h ≤ current_time_ p) ∧
  unsynchronized_vessels_ p ⊆ dom (vessels_ p) ∧
  dirty_vessels_ p ⊆ dom (vessels_ p) ∧
  kept_vessels_ p ⊆ dom (vessels_ p) ∧
  ∀ g v, vessels_ p !! g = Some v → Vessel.is_initialized v = true →
         vessel_invariants p g v.

Lemma initialization_state p :
  initialization p →
  initializing_ p = true ∧ vessels_ p = ∅ ∧
  unsynchronized_vessels_ p = ∅ ∧ dirty_vessels_ p = ∅ ∧
  kept_vessels_ p = ∅ ∧ HistoryTime p = Some (current_time_ p).
Proof.
  induction 1 as [t i μ θ p Hnew|p i μ j from_parent p' _ IH Hinsert].
  - unfold Plugin_new in Hnew.
    rewrite Celestial_CreateHistoryAndForkProlongation_eq in Hnew.
    injection Hnew as <-. unfold HistoryTime. simpl.
    by rewrite lookup_singleton_eq.
  - destruct IH as (Hi & Hv & Hu & Hd & Hk & Hh).
    apply InsertCelestial_Some in Hinsert
      as (parent & history & last & _ & _ & Hnone & _ & _ & ->).
    simpl. repeat (split; [done|]).
    rewrite HistoryTime_sun in *. simpl.
    destruct (decide (i = sun_ p)) as [->|Hne].
    + by rewrite Hnone in Hh.
    + by rewrite lookup_insert_ne.
Qed.

Lemma vessel_invariants_ext p p' g v :
  HistoryTime p' = HistoryTime p →
  (g ∈ unsynchronized_vessels_ p' ↔ g ∈ unsynchronized_vessels_ p) →
  vessel_invariants p g v → vessel_invariants p' g v.
Proof.
  intros Hh Hu (pe & he & Hpe & Hhe & Hle & Hiff & Hsy).
  exists pe, he. rewrite Hh, Hu. done.
Qed.

Lemma consistent_EndInitialization p :
  initialization p → consistent (EndInitialization p).
Proof.
  intros (_ & Hv & Hu & Hd & Hk & Hh)%initialization_state.
  unfold consistent. simpl. rewrite Hv, Hu, Hd, Hk.
  split; [done|]. split; [by exists (current_time_ p)|].
  repeat (split; [done|]). intros g v. by rewrite lookup_empty.
Qed.

Lemma consistent_UpdateCelestialHierarchy p celestial_index parent_index p' :
  consistent p →
  UpdateCelestialHierarchy celestial_index parent_index p = Some p' →
  consistent p'.
Proof.
  intros (Hi & (h & Hh & Hle) & Hu & Hd & Hk & Hinv) H1.
  unfold UpdateCelestialHierarchy in H1. check_inv H1 as Hchk1.
  bind_inv H1 as c Hc. bind_inv H1 as parent Hparent. injection H1 as <-.
  assert (HistoryTime
            (set_celestials
               (<[celestial_index := Celestial.set_parent parent_index c]>
                  (celestials_ p)) p) = HistoryTime p) as Hh'.
  { unfold HistoryTime. simpl.
    destruct (decide (celestial_index = sun_ p)) as [->|Hne].
    - by rewrite lookup_insert_eq, Hc.
    - by rewrite lookup_insert_ne. }
  split; [done|]. split; [exists h; by rewrite Hh'|].
  repeat (split; [done|]). intros g v Hv Hini.
  by apply (vessel_invariants_ext p), Hinv.
Qed.

Lemma vessel_invariants_set_parent p g v parent :
  vessel_invariants p g v →
  vessel_invariants p g (Vessel.set_parent parent v).
Proof. done. Qed.

Lemma consistent_InsertOrKeepVessel p vessel_guid parent_index inserted p' :
  consistent p →
  InsertOrKeepVessel vessel_guid parent_index p = Some (inserted, p') →
  consistent p'.
Proof.
  intros (Hi & (h & Hh & Hle) & Hu & Hd & Hk & Hinv) H1.
  unfold InsertOrKeepVessel in H1. check_inv H1 as Hchk2.
  bind_inv H1 as parent Hparent. injection H1 as _ <-.
  unfold consistent. simpl. rewrite dom_insert_L.
  split; [done|]. split; [by exists h|].
  split; [set_solver|]. split; [set_solver|]. split; [set_solver|].
  intros g v Hv Hini.
  destruct (decide (vessel_guid = g)) as [<-|Hne].
  - rewrite lookup_insert_eq in Hv. injection Hv as <-.
    destruct (vessels_ p !! vessel_guid) as [v|] eqn:Hv; [|done].
    apply vessel_invariants_set_parent.
    by apply (vessel_invariants_ext p), Hinv.
  - rewrite lookup_insert_ne in Hv by done.
    by apply (vessel_invariants_ext p), Hinv.
Qed.

Lemma consistent_SetVesselStateOffset p vessel_guid from_parent p' :
  consistent p →
  SetVesselStateOffset vessel_guid from_parent p = Some p' →
  consistent p'.
Proof.
  intros (Hi & (h & Hh & Hle) & Hu & Hd & Hk & Hinv) H1.
  unfold SetVesselStateOffset, find_vessel_by_guid_or_die in H1.
  check_inv H1 as Hchk3. bind_inv H1 as v0 Hv0. check_inv H1 as Hini0.
  bind_inv H1 as parent Hparent. bind_inv H1 as pr Hpr.
  bind_inv H1 as last Hlast. bind_inv H1 as v1 Hv1. check_inv H1 as Hnew.
  injection H1 as <-.
  unfold Vessel.CreateProlongation in Hv1. check_inv Hv1 as Hchk4.
  rewrite Append_new in Hv1. injection Hv1 as <-.
  apply (elem_of_dom_2 (D := gset GUID)) in Hv0 as Hdom.
  unfold consistent. simpl. rewrite dom_insert_L.
  split; [done|]. split; [by exists h|].
  split; [set_solver|]. split; [set_solver|]. split; [set_solver|].
  intros g v Hv Hini.
  destruct (decide (vessel_guid = g)) as [<-|Hne].
  - rewrite lookup_insert_eq in Hv. injection Hv as <-.
    exists (current_time_ p), h. repeat split; try done. set_solver.
  - rewrite lookup_insert_ne in Hv by done.
    apply (vessel_invariants_ext p); [done|set_solver|by apply Hinv].
Qed.

Lemma consistent_AddVesselToNextPhysicsBubble p vessel_guid parts p' :
  consistent p →
  AddVesselToNextPhysicsBubble vessel_guid parts p = Some p' →
  consistent p'.
Proof.
  intros (Hi & (h & Hh & Hle) & Hu & Hd & Hk & Hinv) H1.
  unfold AddVesselToNextPhysicsBubble, find_vessel_by_guid_or_die in H1.
  bind_inv H1 as v0 Hv0. bind_inv H1 as b Hb. injection H1 as <-.
  apply (elem_of_dom_2 (D := gset GUID)) in Hv0 as Hdom.
  unfold consistent. simpl.
  split; [done|]. split; [by exists h|].
  split; [done|]. split; [set_solver|]. split; [done|].
  intros g v Hv Hini. by apply (vessel_invariants_ext p), Hinv.
Qed.

Lemma consistent_ReadFromMessage p message p' :
  consistent p →
  WriteToMessage p = Some message →
  ReadFromMessage message = Some p' →
  consistent p'.
Proof.
  intros (Hi & (h & Hh & Hle) & Hu & Hd & Hk & Hinv) HW HR.
  destruct (ReadFromMessage_WriteToMessage _ _ HW)
    as (unsynchronized & dirty & HR' & Hunsync & Hdirty).
  rewrite HR in HR'. injection HR' as ->.
  unfold consistent. simpl.
  split; [done|]. split; [by exists h|].
  split.
  { intros g (v & Hv & _)%Hunsync. by apply elem_of_dom. }
  split.
  { intros g [_ Hg]%Hdirty. by apply elem_of_dom. }
  split; [set_solver|].
  intros g v Hv Hini.
  destruct (Hinv _ _ Hv Hini) as (pe & he & Hpe & Hhe & Hle' & Hiff & Hsy).
  exists pe, he. repeat split; try done; simpl.
  - intros (v0 & Hv0 & Hsy0)%Hunsync. by simplify_eq.
  - intros Hsy0. apply Hunsync. by exists v.
Qed.

Lemma consistent_AdvanceTime p t planetarium_rotation q :
  consistent p →
  AdvanceTime t planetarium_rotation p = Some q →
  consistent q.
Proof.
  intros (Hi & (h & Hh & Hle) & Hu & Hd & Hk & _) HA.
  destruct (AdvanceTime_Some _ _ _ _ HA) as (_ & Hlt & _).
  destruct (AdvanceTime_cases _ _ _ _ HA)
    as (p1 & bubble & h0 & H1 & HP & Hh0 & Hiq & Hrq & Hctq & Hsunq & Hkq
        & Hbq & Hnone & Hcnone & Hcase).
  rewrite Hh in Hh0. injection Hh0 as <-.
  destruct (CleanUpVessels_Some _ _ H1)
    as (Hcheck & Hv1 & Hk1 & Hu1 & Hd1 & _).
  assert (kept_vessels_ q = ∅) as Hkq'
    by (rewrite Hkq, Hk1; clear -Hk; set_solver).
  assert (∀ g, g ∈ kept_vessels_ p → g ∈ dom (vessels_ p) →
               g ∈ dom (vessels_ q)) as Hdom.
  { intros g Hkept [v Hv]%elem_of_dom.
    assert (vessels_ p1 !! g = Some v) as Hv1'
      by (by rewrite Hv1, decide_True).
    apply elem_of_dom. case_bool_decide.
    - destruct Hcase
        as (p3 & h' & _ & _ & _ & _ & _ & _ & _ & _ & _ & Hvs & _).
      destruct (Hvs _ _ Hv1') as (v' & d & ? & _). by exists v'.
    - destruct Hcase as (_ & _ & _ & Hvs & _).
      destruct (Hvs _ _ Hv1') as (v' & ? & _). by exists v'. }
  unfold consistent. rewrite Hkq'. split; [done|].
  case_bool_decide as Hstep.
  - destruct Hcase as (p3 & h' & _ & _ & Hh' & Hlt' & _ & Hlt'' & _ & Huq
                       & Hdq & Hvs & _).
    rewrite Huq, Hdq, Hctq.
    split; [exists h'; split; [done|lia]|].
    repeat (split; [done|]).
    intros g v' Hv' _.
    destruct (AdvanceTime_vessel_origin _ _ _ _ _ H1 Hnone Hv')
      as (v & Hv & _).
    destruct (Hvs _ _ Hv) as (v'' & d & Hv'' & Hstepped & _).
    rewrite Hv' in Hv''. injection Hv'' as <-.
    destruct (vessel_stepped_facts _ _ _ _ _ Hstepped)
      as (_ & _ & Hsy & Hht & Hpt & _).
    exists t, h'. rewrite Huq, Hsy.
    repeat split; try done; try lia; by intros ?%elem_of_empty.
  - destruct Hcase as (Hh' & Huq & Hdq & Hvs & _).
    rewrite Huq, Hdq, Hctq.
    split; [exists h; split; [done|lia]|].
    split.
    { rewrite Hu1. intros g [Hg Hng]%elem_of_difference.
      apply Hdom; [|by apply Hu].
      destruct (decide (g ∈ kept_vessels_ p)); [done|].
      exfalso. apply Hng. apply elem_of_difference. split; [by apply Hu|done]. }
    split.
    { rewrite Hd1. intros g [Hg Hng]%elem_of_difference.
      apply Hdom; [|by apply Hd].
      destruct (decide (g ∈ kept_vessels_ p)); [done|].
      exfalso. apply Hng. apply elem_of_difference. split; [by apply Hd|done]. }
    split; [done|].
    intros g v' Hv' _.
    destruct (AdvanceTime_vessel_origin _ _ _ _ _ H1 Hnone Hv')
      as (v & Hv & Hvp & Hkept).
    destruct (Hvs _ _ Hv) as (v'' & Hv'' & Hprolonged).
    rewrite Hv' in Hv''. injection Hv'' as <-.
    destruct (vessel_prolonged_facts _ _ _ Hprolonged)
      as (_ & _ & Hsy & Hhist & Hpt & _).
    apply Hcheck, CheckVesselInvariants_Some in Hvp as Hinv.
    destruct Hinv as (pe & he & _ & Hhe & _ & Hiff & Hsync).
    rewrite Hh in Hhe. injection Hhe as <-.
    exists t, h. rewrite Huq, Hsy. repeat split; try done; try lia.
    + rewrite Hu1. intros [Hg _]%elem_of_difference. by apply Hiff.
    + rewrite Hu1. intros Hns. apply elem_of_difference.
      split; [by apply Hiff|]. intros [_ ?]%elem_of_difference. done.
    + intros Hs. unfold history_time in *. rewrite Hhist. by apply Hsync.
Qed.

(** Every plugin the host obtains is consistent. *)
Lemma reachable_consistent p : reachable p → consistent p.
Proof.
  induction 1;
    eauto using consistent_EndInitialization,
      consistent_UpdateCelestialHierarchy, consistent_InsertOrKeepVessel,
      consistent_SetVesselStateOffset, consistent_AdvanceTime,
      consistent_AddVesselToNextPhysicsBubble, consistent_ReadFromMessage.
Qed.

(** The calls of the host that change a plugin whose initialization has
    ended, and a session of the host: a plugin with its sun, initialized at
    once, then a sequence of calls. *)
Inductive call : Type :=
  | call_UpdateCelestialHierarchy (celestial_index parent_index : Index)
  | call_InsertOrKeepVessel (vessel_guid : GUID) (parent_index : Index)
  | call_SetVesselStateOffset (vessel_guid : GUID)
                              (from_parent : RelativeDegreesOfFreedom)
  | call_AdvanceTime (t : Instant) (planetarium_rotation : Angle)
  | call_AddVesselToNextPhysicsBubble
      (vessel_guid : GUID) (parts : list PhysicsBubble.IdAndOwnedPart)
  | call_WriteToMessage_ReadFromMessage.

Definition perform (p : Plugin) (c : call) : option Plugin :=
  match c with
  | call_UpdateCelestialHierarchy celestial_index parent_index =>
      UpdateCelestialHierarchy celestial_index parent_index p
  | call_InsertOrKeepVessel vessel_guid parent_index =>
      snd <$> InsertOrKeepVessel vessel_guid parent_index p
  | call_SetVesselStateOffset vessel_guid from_parent =>
      SetVesselStateOffset vessel_guid from_parent p
  | call_AdvanceTime t planetarium_rotation =>
      AdvanceTime t planetarium_rotation p
  | call_AddVesselToNextPhysicsBubble vessel_guid parts =>
      AddVesselToNextPhysicsBubble vessel_guid parts p
  | call_WriteToMessage_ReadFromMessage =>
      WriteToMessage p ≫= ReadFromMessage
  end.

Definition session (initial_time : Instant) (sun_index : Index)
    (sun_gravitational_parameter : R) (planetarium_rotation : Angle)
    (calls : list call) : option Plugin :=
  p ← Plugin_new initial_time sun_index sun_gravitational_parameter
                 planetarium_rotation;
  foldlM perform (EndInitialization p) calls.

Lemma reachable_perform p c p' :
  reachable p → perform p c = Some p' → reachable p'.
Proof.
  intros Hp. destruct c; simpl; intros Hc.
  - by eapply reachable_UpdateCelestialHierarchy.
  - destruct (InsertOrKeepVessel vessel_guid parent_index p)
      as [[inserted p'']|] eqn:Hi; [|done].
    injection Hc as <-. by eapply reachable_InsertOrKeepVessel.
  - by eapply reachable_SetVesselStateOffset.
  - by eapply reachable_AdvanceTime.
  - by eapply reachable_AddVesselToNextPhysicsBubble.
  - destruct (WriteToMessage p) as [m|] eqn:Hm; [|done].
    by eapply reachable_ReadFromMessage.
Qed.

Lemma reachable_session initial_time sun_index sun_gravitational_parameter
    planetarium_rotation calls p :
  session initial_time sun_index sun_gravitational_parameter
          planetarium_rotation calls = Some p →
  reachable p.
Proof.
  unfold session. intros Hs. bind_inv Hs as p0 Hp0.
  assert (reachable (EndInitialization p0)) as Hr
    by (by eapply reachable_EndInitialization, initialization_new).
  revert Hr Hs. generalize (EndInitialization p0).
  induction calls as [|c calls IH]; intros q Hq; simpl.
  - by intros [= <-].
  - intros Hs. bind_inv Hs as q' Hq'. eapply IH; [|done].
    by eapply reachable_perform.
Qed.

(** C3.  Between two public calls on a plugin whose initialization has
    ended, every initialized vessel has a prolongation whose last time is
    at least [HistoryTime()], is in [unsynchronized_vessels_] if, and only
    if, it has no history, and, if it is synchronized, has a history whose
    last time is [HistoryTime()], the last time of the history of the
    sun. *)
Theorem reachable_vessel_invariants p g v :
  reachable p →
  vessels_ p !! g = Some v →
  Vessel.is_initialized v = true →
  initializing_ p = false ∧
  ∃ prolongation last history_time sun sun_history sun_last,
    Vessel.prolongation v = Some prolongation ∧
    Trajectory_last prolongation = Some last ∧
    HistoryTime p = Some history_time ∧
    celestials_ p !! sun_ p = Some sun ∧
    Celestial.history sun = Some sun_history ∧
    Trajectory_last sun_history = Some sun_last ∧
    history_time = sun_last.1 ∧
    history_time ≤ last.1 ∧
    (g ∈ unsynchronized_vessels_ p ↔ Vessel.history v = None) ∧
    (Vessel.is_synchronized v = true →
     ∃ history history_last,
       Vessel.history v = Some history ∧
       Trajectory_last history = Some history_last ∧
       history_last.1 = history_time).
Proof.
  intros (Hi & _ & _ & _ & _ & Hinv)%reachable_consistent Hv Hini.
  split; [done|].
  destruct (Hinv _ _ Hv Hini) as (pe & he & Hpe & Hhe & Hle & Hiff & Hsy).
  unfold prolongation_time in Hpe.
  destruct (Vessel.prolongation v) as [pr|] eqn:Hpr; [|done]. simpl in Hpe.
  destruct (Trajectory_last pr) as [last|] eqn:Hlast; [|done].
  injection Hpe as <-.
  pose proof Hhe as Hsun. unfold HistoryTime in Hsun.
  destruct (celestials_ p !! sun_ p) as [sun|] eqn:Hs; [|done].
  simpl in Hsun.
  destruct (Celestial.history sun) as [sh|] eqn:Hsh; [|done]. simpl in Hsun.
  destruct (Trajectory_last sh) as [sl|] eqn:Hsl; [|done].
  injection Hsun as <-.
  exists pr, last, sl.1, sun, sh, sl. repeat (split; [done|]).
  split.
  - rewrite Hiff. unfold Vessel.is_synchronized, Vessel.history.
    by destruct (Vessel.trajectories_ v).
  - intros Hs'. specialize (Hsy Hs'). unfold history_time in Hsy.
    destruct (Vessel.history v) as [hist|]; [|done]. simpl in Hsy.
    destruct (Trajectory_last hist) as [hl|] eqn:Hhl; [|done].
    injection Hsy as Hsy. by exists hist, hl.
Qed.

Lemma Forall2_elem_of_l {A B} (R : A → B → Prop) l k x :
  Forall2 R l k → x ∈ l → ∃ y, y ∈ k ∧ R x y.
Proof.
  induction 1 as [|a b l k HR _ IH]; [by intros ?%elem_of_nil|].
  intros [->|Hin]%elem_of_cons.
  - exists b. split; [left|done].
  - destruct (IH Hin) as (y & ? & ?). exists y. split; [by right|done].
Qed.

(** C2 (amended).  For a plugin the host has obtained and
    [WriteToMessage] accepts, [ReadFromMessage] of the message written is
    that plugin with [kept_vessels_] emptied: the current time, the
    planetarium rotation, the sun, the celestials and the vessels with
    their parents and trajectories, the sets of dirty and of
    unsynchronized vessels and the bubble are those of the plugin, but the
    vessels flagged to be kept no longer are.  When no vessel is flagged,
    as after [AdvanceTime], the plugin read is the plugin written, and so
    are the results of whatever is then done with them. *)
Theorem ReadFromMessage_WriteToMessage_reachable p message :
  reachable p →
  WriteToMessage p = Some message →
  ReadFromMessage message = Some (set_kept_vessels ∅ p) ∧
  (kept_vessels_ p = ∅ → ReadFromMessage message = Some p).
Proof.
  intros (Hi & _ & Hu & Hd & _ & Hinv)%reachable_consistent HW.
  destruct (ReadFromMessage_WriteToMessage _ _ HW)
    as (unsynchronized & dirty & HR & Hunsync & Hdirty).
  destruct (WriteToMessage_Some _ _ HW) as (_ & _ & Hvs & _).
  assert (∀ g v, vessels_ p !! g = Some v → Vessel.is_initialized v = true)
    as Hini.
  { intros g v Hv. apply elem_of_map_to_list in Hv.
    by destruct (Forall2_elem_of_l _ _ _ _ Hvs Hv) as (m & _ & _ & ? & _). }
  assert (unsynchronized = unsynchronized_vessels_ p) as ->.
  { apply set_eq. intros g. rewrite Hunsync. split.
    - intros (v & Hv & Hsy).
      destruct (Hinv _ _ Hv (Hini _ _ Hv)) as (? & ? & _ & _ & _ & Hiff & _).
      by apply Hiff.
    - intros Hg. destruct (proj1 (elem_of_dom _ _) (Hu _ Hg)) as [v Hv].
      exists v. split; [done|].
      destruct (Hinv _ _ Hv (Hini _ _ Hv)) as (? & ? & _ & _ & _ & Hiff & _).
      by apply Hiff. }
  assert (dirty = dirty_vessels_ p) as ->.
  { apply set_eq. intros g. rewrite Hdirty. split; [by intros [? _]|].
    intros Hg. split; [done|]. by apply elem_of_dom, Hd. }
  assert (ReadFromMessage message = Some (set_kept_vessels ∅ p)) as HR'
    by (by rewrite HR; unfold set_kept_vessels; rewrite Hi).
  split; [done|]. intros Hk. rewrite HR'. f_equal.
  unfold set_kept_vessels. rewrite <- Hk. by destruct p.
Qed.

(** ** When [AdvanceTime] returns *)

















(** *** The loops of the synchronization *)











(** *** [AdvanceTime] *)











End WithNumerics.

(** * Further properties of the plugin *)

(** ** The state of a vessel *)

(** What [SetVesselStateOffset] needs and does. *)
Lemma SetVesselStateOffset_Some vessel_guid from_parent p p' :
  SetVesselStateOffset vessel_guid from_parent p = Some p' ↔
  initializing_ p = false ∧
  ∃ vessel parent prolongation last,
    vessels_ p !! vessel_guid = Some vessel ∧
    Vessel.is_initialized vessel = false ∧
    celestials_ p !! Vessel.parent vessel = Some parent ∧
    Celestial.prolongation parent = Some prolongation ∧
    Trajectory_last prolongation = Some last ∧
    (vessel_guid ∉ unsynchronized_vessels_ p) ∧
    p' = set_unsynchronized_vessels
           ({[vessel_guid]} ∪ unsynchronized_vessels_ p)
           (set_vessels
              (<[vessel_guid :=
                   Vessel.mk (Vessel.parent_ vessel)
                     (Vessel.Unsynchronized
                        (mkTrajectory None
                           [(current_time_ p,
                             dof_plus last.2
                               (to_barycentric p from_parent))]))]>
                 (vessels_ p)) p).
Proof.
  unfold SetVesselStateOffset, find_vessel_by_guid_or_die. split.
  - intros H1. check_inv H1 as Hi. apply negb_true_iff in Hi.
    bind_inv H1 as vessel Hvessel. check_inv H1 as Hini.
    apply negb_true_iff in Hini.
    bind_inv H1 as parent Hparent. bind_inv H1 as prolongation Hpr.
    bind_inv H1 as last Hlast. bind_inv H1 as vessel' Hvessel'.
    check_inv H1 as Hnew. apply bool_decide_eq_true in Hnew.
    injection H1 as <-.
    unfold Vessel.CreateProlongation in Hvessel'.
    rewrite Hini, Append_new in Hvessel'. injection Hvessel' as <-.
    split; [done|]. by exists vessel, parent, prolongation, last.
  - intros (Hi & vessel & parent & prolongation & last & Hvessel & Hini
            & Hparent & Hpr & Hlast & Hnew & ->).
    rewrite Hi, Hvessel. simpl. rewrite Hini. simpl.
    rewrite Hparent. simpl. rewrite Hpr. simpl. rewrite Hlast. simpl.
    unfold Vessel.CreateProlongation. rewrite Hini, Append_new. simpl.
    by rewrite bool_decide_eq_true_2.
Qed.

(** X2.  [SetVesselStateOffset] is fatal during initialization, for a
    vessel that is not known and for a vessel that has its state already;
    in particular it can be called once only per vessel. *)
Theorem SetVesselStateOffset_once vessel_guid from_parent p :
  (initializing_ p = true →
   SetVesselStateOffset vessel_guid from_parent p = None) ∧
  (vessels_ p !! vessel_guid = None →
   SetVesselStateOffset vessel_guid from_parent p = None) ∧
  (∀ vessel, vessels_ p !! vessel_guid = Some vessel →
             Vessel.is_initialized vessel = true →
             SetVesselStateOffset vessel_guid from_parent p = None) ∧
  (∀ p', SetVesselStateOffset vessel_guid from_parent p = Some p' →
         ∀ from_parent',
           SetVesselStateOffset vessel_guid from_parent' p' = None).
Proof.
  split; [|split; [|split]].
  - intros Hi. unfold SetVesselStateOffset. by rewrite Hi.
  - intros Hnone. unfold SetVesselStateOffset, find_vessel_by_guid_or_die.
    rewrite Hnone. by destruct (initializing_ p).
  - intros vessel Hvessel Hini.
    unfold SetVesselStateOffset, find_vessel_by_guid_or_die.
    rewrite Hvessel. simpl. rewrite Hini. by destruct (initializing_ p).
  - intros p' (Hi & vessel & parent & prolongation & last & Hvessel & Hini
               & Hparent & Hpr & Hlast & Hnew & ->)%SetVesselStateOffset_Some
      from_parent'.
    unfold SetVesselStateOffset, find_vessel_by_guid_or_die. simpl.
    by rewrite Hi, lookup_insert_eq.
Qed.

(** X3.  [SetVesselStateOffset] makes the vessel an unsynchronized one:
    it is in [unsynchronized_vessels_], it has no history, and its
    prolongation has one point, at the current time; the parent of the
    vessel, the other vessels, the celestials, the sets of dirty and of
    kept vessels, the bubble and the time are what they were. *)
Theorem SetVesselStateOffset_unsynchronized
    vessel_guid from_parent p p' :
  SetVesselStateOffset vessel_guid from_parent p = Some p' →
  ∃ vessel vessel' d,
    vessels_ p !! vessel_guid = Some vessel ∧
    vessels_ p' !! vessel_guid = Some vessel' ∧
    Vessel.parent vessel' = Vessel.parent vessel ∧
    Vessel.is_initialized vessel' = true ∧
    Vessel.is_synchronized vessel' = false ∧
    Vessel.history vessel' = None ∧
    Vessel.prolongation vessel'
      = Some (mkTrajectory None [(current_time_ p, d)]) ∧
    unsynchronized_vessels_ p'
      = {[vessel_guid]} ∪ unsynchronized_vessels_ p ∧
    (∀ guid, guid ≠ vessel_guid →
             vessels_ p' !! guid = vessels_ p !! guid) ∧
    celestials_ p' = celestials_ p ∧
    dirty_vessels_ p' = dirty_vessels_ p ∧
    kept_vessels_ p' = kept_vessels_ p ∧ bubble_ p' = bubble_ p ∧
    current_time_ p' = current_time_ p ∧
    planetarium_rotation_ p' = planetarium_rotation_ p ∧
    sun_ p' = sun_ p.
Proof.
  intros (Hi & vessel & parent & prolongation & last & Hvessel & Hini
          & Hparent & Hpr & Hlast & Hnew & ->)%SetVesselStateOffset_Some.
  eexists vessel, _, _. simpl. rewrite lookup_insert_eq.
  split; [done|]. split; [done|]. repeat (split; [done|]).
  split; [|done]. intros guid Hne. by rewrite lookup_insert_ne.
Qed.

(** ** The times of the trajectories *)

(** Every celestial has a history that ends at [h] and a prolongation that
    ends at the current time, and its parent, if it has one, is a
    celestial of the plugin. *)
Definition celestials_up_to_date (h : Instant) (p : Plugin) : Prop :=
  ∀ i c, celestials_ p !! i = Some c →
    celestial_history_time c = Some h ∧
    celestial_prolongation_time c = Some (current_time_ p) ∧
    ∀ j, Celestial.parent c = Some j → is_Some (celestials_ p !! j).

(** The parent of every vessel is a celestial of the plugin; the
    prolongation of a vessel that has its state ends at the current time,
    and a vessel that has not is not in [unsynchronized_vessels_]. *)
Definition vessels_up_to_date (p : Plugin) : Prop :=
  ∀ g v, vessels_ p !! g = Some v →
    is_Some (celestials_ p !! Vessel.parent v) ∧
    (Vessel.is_initialized v = true →
     prolongation_time v = Some (current_time_ p)) ∧
    (Vessel.is_initialized v = false → g ∉ unsynchronized_vessels_ p).

Definition up_to_date (p : Plugin) : Prop :=
  ∃ h, HistoryTime p = Some h ∧ h ≤ current_time_ p ∧
       celestials_up_to_date h p ∧ vessels_up_to_date p.

Lemma initialization_celestials_up_to_date p :
  initialization p → celestials_up_to_date (current_time_ p) p.
Proof.
  induction 1 as [t i μ θ p Hnew|p i μ j from_parent p' _ IH Hinsert].
  - unfold Plugin_new in Hnew.
    rewrite Celestial_CreateHistoryAndForkProlongation_eq in Hnew.
    injection Hnew as <-. intros k c. simpl.
    intros [<- <-]%lookup_singleton_Some. by repeat split.
  - apply InsertCelestial_Some in Hinsert
      as (parent & history & last & _ & Hparent & Hnone & _ & _ & ->).
    intros k c. simpl. destruct (decide (i = k)) as [<-|Hne].
    + rewrite lookup_insert_eq. intros [= <-]. split; [done|].
      split; [done|]. simpl. intros ? [= <-].
      apply lookup_insert_is_Some. right. split; [|by eexists].
      intros <-. by rewrite Hparent in Hnone.
    + rewrite lookup_insert_ne by done. intros Hc.
      destruct (IH _ _ Hc) as (Hh & Hp & Hpar).
      split; [done|]. split; [done|]. intros j' [c' Hc']%Hpar.
      apply lookup_insert_is_Some.
      destruct (decide (i = j')); [by left|by right].
Qed.

Lemma up_to_date_EndInitialization p :
  initialization p → up_to_date (EndInitialization p).
Proof.
  intros Hinit.
  destruct (initialization_state _ Hinit) as (_ & Hv & _ & _ & _ & Hh).
  exists (current_time_ p).
  split; [done|]. split; [simpl; lia|].
  split; [exact (initialization_celestials_up_to_date _ Hinit)|].
  intros g v. simpl. by rewrite Hv, lookup_empty.
Qed.

Lemma up_to_date_UpdateCelestialHierarchy
    p celestial_index parent_index p' :
  up_to_date p →
  UpdateCelestialHierarchy celestial_index parent_index p = Some p' →
  up_to_date p'.
Proof.
  intros (h & Hh & Hle & Hcs & Hvs) H1.
  unfold UpdateCelestialHierarchy in H1. check_inv H1 as Hchk.
  bind_inv H1 as c Hc. bind_inv H1 as parent Hparent. injection H1 as <-.
  exists h. simpl.
  split.
  { rewrite <- Hh. unfold HistoryTime. simpl.
    destruct (decide (celestial_index = sun_ p)) as [->|Hne].
    - by rewrite lookup_insert_eq, Hc.
    - by rewrite lookup_insert_ne. }
  split; [done|].
  assert (∀ j, is_Some (celestials_ p !! j) →
               is_Some (<[celestial_index :=
                            Celestial.set_parent parent_index c]>
                          (celestials_ p) !! j)) as Hkeep.
  { intros j Hj. apply lookup_insert_is_Some.
    destruct (decide (celestial_index = j)); [by left|by right]. }
  split.
  - intros k c'. simpl.
    destruct (decide (celestial_index = k)) as [<-|Hne].
    + rewrite lookup_insert_eq. intros [= <-].
      destruct (Hcs _ _ Hc) as (Hht & Hpt & _).
      split; [done|]. split; [done|]. simpl. intros ? [= <-].
      apply Hkeep. by eexists.
    + rewrite lookup_insert_ne by done. intros Hc'.
      destruct (Hcs _ _ Hc') as (Hht & Hpt & Hpar).
      split; [done|]. split; [done|]. intros j Hj. by apply Hkeep, Hpar.
  - intros g v Hv. simpl in *. destruct (Hvs _ _ Hv) as (Hpar & Hpt & Hu).
    split; [by apply Hkeep|done].
Qed.

Lemma up_to_date_InsertOrKeepVessel p vessel_guid parent_index inserted p' :
  unsynchronized_vessels_ p ⊆ dom (vessels_ p) →
  up_to_date p →
  InsertOrKeepVessel vessel_guid parent_index p = Some (inserted, p') →
  up_to_date p'.
Proof.
  intros Hu (h & Hh & Hle & Hcs & Hvs) H1.
  unfold InsertOrKeepVessel in H1. check_inv H1 as Hchk.
  bind_inv H1 as parent Hparent. injection H1 as _ <-.
  exists h. split; [done|]. split; [done|].
  split; [done|]. intros g v. simpl.
  destruct (decide (vessel_guid = g)) as [<-|Hne].
  - rewrite lookup_insert_eq. intros [= <-]. simpl.
    split; [by eexists|].
    destruct (vessels_ p !! vessel_guid) as [v|] eqn:Hv; simpl.
    + destruct (Hvs _ _ Hv) as (_ & Hpt & Hnu). by split.
    + split; [done|]. intros _ Hin%Hu.
      by apply not_elem_of_dom in Hv.
  - rewrite lookup_insert_ne by done. apply Hvs.
Qed.

Lemma up_to_date_SetVesselStateOffset p vessel_guid from_parent p' :
  up_to_date p →
  SetVesselStateOffset vessel_guid from_parent p = Some p' →
  up_to_date p'.
Proof.
  intros (h & Hh & Hle & Hcs & Hvs)
    (Hi & vessel & parent & prolongation & last & Hvessel & Hini
     & Hparent & Hpr & Hlast & Hnew & ->)%SetVesselStateOffset_Some.
  exists h. split; [done|]. split; [done|].
  split; [done|]. intros g v. simpl.
  destruct (decide (vessel_guid = g)) as [<-|Hne].
  - rewrite lookup_insert_eq. intros [= <-]. simpl.
    split; [by eexists|]. by split.
  - rewrite lookup_insert_ne by done. intros Hv.
    destruct (Hvs _ _ Hv) as (Hpar & Hpt & Hnu).
    split; [done|]. split; [done|]. intros Hn [?%elem_of_singleton|?]%elem_of_union.
    + done.
    + by apply Hnu.
Qed.

Lemma up_to_date_AddVesselToNextPhysicsBubble p vessel_guid parts p' :
  up_to_date p →
  AddVesselToNextPhysicsBubble vessel_guid parts p = Some p' →
  up_to_date p'.
Proof.
  intros Hp H1.
  unfold AddVesselToNextPhysicsBubble, find_vessel_by_guid_or_die in H1.
  bind_inv H1 as v0 Hv0. bind_inv H1 as b Hb. by injection H1 as <-.
Qed.

Lemma up_to_date_ReadFromMessage p message p' :
  up_to_date p →
  WriteToMessage p = Some message →
  ReadFromMessage message = Some p' →
  up_to_date p'.
Proof.
  intros (h & Hh & Hle & Hcs & Hvs) HW HR.
  destruct (WriteToMessage_Some _ _ HW) as (_ & _ & Hwritten & _).
  destruct (ReadFromMessage_WriteToMessage _ _ HW)
    as (unsynchronized & dirty & HR' & _).
  rewrite HR in HR'. injection HR' as ->.
  exists h. split; [done|]. split; [done|].
  split; [done|]. intros g v Hv. simpl in *.
  destruct (Hvs _ _ Hv) as (Hpar & Hpt & _).
  split; [done|]. split; [done|]. intros Hn.
  apply elem_of_map_to_list in Hv.
  destruct (Forall2_elem_of_l _ _ _ _ Hwritten Hv) as (m & _ & _ & Hini & _).
  simpl in Hini. congruence.
Qed.

Section WithNumerics.

Context `{physics.Numerics} `{PhysicsBubble.Numerics}.

Lemma up_to_date_AdvanceTime p t planetarium_rotation q :
  up_to_date p →
  AdvanceTime t planetarium_rotation p = Some q →
  up_to_date q.
Proof.
  intros (h & Hh & Hle & Hcs & Hvs) HA.
  destruct (AdvanceTime_Some _ _ _ _ HA) as (_ & Hlt & _).
  destruct (AdvanceTime_cases _ _ _ _ HA)
    as (p1 & bubble & h0 & H1 & HP & Hh0 & Hiq & Hrq & Hctq & Hsunq & Hkq
        & Hbq & Hnone & Hcnone & Hcase).
  rewrite Hh in Hh0. injection Hh0 as <-.
  assert (∀ h',
    (∀ i c, celestials_ p !! i = Some c →
       ∃ c', celestials_ q !! i = Some c' ∧
             Celestial.parent_ c' = Celestial.parent_ c ∧
             celestial_history_time c' = Some h' ∧
             celestial_prolongation_time c' = Some t) →
    (∀ g v, vessels_ p1 !! g = Some v →
       ∃ v', vessels_ q !! g = Some v' ∧
             Vessel.parent_ v' = Vessel.parent_ v ∧
             Vessel.is_initialized v' = true ∧
             prolongation_time v' = Some t) →
    celestials_up_to_date h' q ∧ vessels_up_to_date q) as Hq.
  { intros h' Hcq Hvq. split.
    - intros i c' Hc'.
      destruct (AdvanceTime_celestial_origin _ _ _ _ Hcnone Hc') as [c Hc].
      destruct (Hcq _ _ Hc) as (c'' & Hc'' & Hpar & Hht & Hpt).
      rewrite Hc' in Hc''. injection Hc'' as <-.
      rewrite Hctq. split; [done|]. split; [done|].
      unfold Celestial.parent. rewrite Hpar. intros j Hj.
      destruct (Hcs _ _ Hc) as (_ & _ & Hparent).
      destruct (Hparent j Hj) as [cj Hcj].
      destruct (Hcq _ _ Hcj) as (cj' & Hcj' & _). by eexists.
    - intros g v' Hv'.
      destruct (AdvanceTime_vessel_origin _ _ _ _ _ H1 Hnone Hv')
        as (v & Hv1 & Hv & _).
      destruct (Hvq _ _ Hv1) as (v'' & Hv'' & Hpar & Hini & Hpt).
      rewrite Hv' in Hv''. injection Hv'' as <-.
      rewrite Hctq. unfold Vessel.parent. rewrite Hpar.
      destruct (Hvs _ _ Hv) as ([c Hc] & _).
      destruct (Hcq _ _ Hc) as (c' & Hc' & _).
      split; [by eexists|]. split; [done|]. congruence. }
  case_bool_decide as Hstep.
  - destruct Hcase as (p3 & h' & _ & _ & Hh' & Hlt' & _ & Hlt'' & Hgt & _
                       & _ & Hvq & Hcq).
    exists h'. rewrite Hctq.
    split; [done|]. split; [lia|]. apply Hq.
    + intros i c Hc. destruct (Hcq _ _ Hc) as (c' & Hc' & Hstepped).
      destruct (celestial_stepped_facts _ _ _ _ Hstepped)
        as (_ & Hpar & Hht & Hpt & _).
      by exists c'.
    + intros g v Hv. destruct (Hvq _ _ Hv) as (v' & d & Hv' & Hstepped & _).
      destruct (vessel_stepped_facts _ _ _ _ _ Hstepped)
        as (Hpar & Hini & _ & _ & Hpt & _).
      by exists v'.
  - destruct Hcase as (Hh' & _ & _ & Hvq & Hcq).
    exists h. rewrite Hctq.
    split; [done|]. split; [lia|]. apply Hq.
    + intros i c Hc. destruct (Hcq _ _ Hc) as (c' & Hc' & Hprolonged).
      destruct (celestial_prolonged_facts _ _ _ Hprolonged)
        as (_ & Hpar & _ & Hht & Hpt & _).
      exists c'. rewrite Hht. destruct (Hcs _ _ Hc) as (Hhc & _). done.
    + intros g v Hv. destruct (Hvq _ _ Hv) as (v' & Hv' & Hprolonged).
      destruct (vessel_prolonged_facts _ _ _ Hprolonged)
        as (Hpar & Hini & _ & _ & Hpt & _).
      by exists v'.
Qed.

(** Every plugin the host obtains is up to date. *)
Lemma reachable_up_to_date p : reachable p → up_to_date p.
Proof.
  induction 1 as [p Hinit|p i j p' Hp IH H1|p g i inserted p' Hp IH H1
                  |p g d p' Hp IH H1|p t θ p' Hp IH H1|p g parts p' Hp IH H1
                  |p m p' Hp IH HW HR].
  - by apply up_to_date_EndInitialization.
  - by eapply up_to_date_UpdateCelestialHierarchy.
  - eapply up_to_date_InsertOrKeepVessel; [|done..].
    by destruct (reachable_consistent _ Hp) as (_ & _ & Hu & _).
  - by eapply up_to_date_SetVesselStateOffset.
  - by eapply up_to_date_AdvanceTime.
  - by eapply up_to_date_AddVesselToNextPhysicsBubble.
  - by eapply up_to_date_ReadFromMessage.
Qed.

(** X4.  Whatever the host has done since the end of initialization, the
    histories are not ahead of the current time; the history of every
    celestial ends at [HistoryTime()]; the prolongation of every celestial
    and of every vessel that has its state ends at the current time; and
    the parent of every celestial that has one, and of every vessel, is a
    celestial of the plugin. *)
Theorem reachable_histories_and_prolongations p :
  reachable p →
  ∃ h,
    HistoryTime p = Some h ∧ h ≤ current_time p ∧
    (∀ i c, celestials_ p !! i = Some c →
       celestial_history_time c = Some h ∧
       celestial_prolongation_time c = Some (current_time p) ∧
       ∀ j, Celestial.parent c = Some j → is_Some (celestials_ p !! j)) ∧
    (∀ g v, vessels_ p !! g = Some v →
       is_Some (celestials_ p !! Vessel.parent v) ∧
       (Vessel.is_initialized v = true →
        prolongation_time v = Some (current_time p))).
Proof.
  intros (h & Hh & Hle & Hcs & Hvs)%reachable_up_to_date.
  exists h. split; [done|]. split; [done|].
  split; [done|]. intros g v Hv. destruct (Hvs _ _ Hv) as (? & ? & _).
  done.
Qed.







(** X6.  The flags that keep the vessels do not outlive [AdvanceTime]:
    when it returns no vessel is flagged, so that a second [AdvanceTime]
    with no [InsertOrKeepVessel] in between returns, if it does, a plugin
    without vessels. *)
Theorem AdvanceTime_twice_removes_vessels t planetarium_rotation p q :
  reachable p →
  AdvanceTime t planetarium_rotation p = Some q →
  kept_vessels_ q = ∅ ∧
  ∀ t' planetarium_rotation' q',
    AdvanceTime t' planetarium_rotation' q = Some q' → vessels_ q' = ∅.
Proof.
  intros (_ & _ & _ & _ & Hk & _)%reachable_consistent HA.
  destruct (AdvanceTime_cases _ _ _ _ HA)
    as (p1 & bubble & h & H1 & _ & _ & _ & _ & _ & _ & Hkq & _).
  destruct (CleanUpVessels_Some _ _ H1) as (_ & _ & Hk1 & _).
  assert (kept_vessels_ q = ∅) as Hempty
    by (rewrite Hkq, Hk1; clear -Hk; set_solver).
  split; [done|]. intros t' θ' q' HA'.
  destruct (AdvanceTime_cases _ _ _ _ HA')
    as (p1' & bubble' & h' & H1' & _ & _ & _ & _ & _ & _ & _ & _ & Hnone
        & _).
  destruct (CleanUpVessels_Some _ _ H1') as (_ & Hv1 & _).
  apply map_empty. intros g. apply Hnone. rewrite Hv1, Hempty.
  by rewrite decide_False by set_solver.
Qed.

(** X7.  On a plugin the host has obtained since the end of
    initialization, [VesselFromParent] returns for the vessels that have
    been given their state and is fatal for the others, and
    [CelestialFromParent] returns for the celestials that have a parent
    and is fatal for the others. *)
Theorem reachable_FromParent_is_Some p :
  reachable p →
  (∀ vessel_guid,
     is_Some (VesselFromParent vessel_guid p) ↔
     ∃ vessel, vessels_ p !! vessel_guid = Some vessel ∧
               Vessel.is_initialized vessel = true) ∧
  (∀ celestial_index,
     is_Some (CelestialFromParent celestial_index p) ↔
     ∃ celestial, celestials_ p !! celestial_index = Some celestial ∧
                  Celestial.has_parent celestial = true).
Proof.
  intros Hp.
  destruct (reachable_consistent _ Hp) as (Hi & _).
  destruct (reachable_up_to_date _ Hp) as (h & _ & _ & Hcs & Hvs).
  assert (∀ i c, celestials_ p !! i = Some c →
                 ∃ prolongation last,
                   Celestial.prolongation c = Some prolongation ∧
                   Trajectory_last prolongation = Some last) as Hlast.
  { intros i c Hc. destruct (Hcs _ _ Hc) as (_ & Hpt & _).
    unfold celestial_prolongation_time in Hpt.
    destruct (Celestial.prolongation c) as [pr|]; simplify_eq/=.
    destruct (Trajectory_last pr) as [s|] eqn:Hs; simplify_eq/=.
    by eexists _, _. }
  split.
  - intros g. unfold VesselFromParent, find_vessel_by_guid_or_die.
    rewrite Hi. simpl. split.
    + intros [r Hr]. bind_inv Hr as v Hv. check_inv Hr as Hini.
      by exists v.
    + intros (v & Hv & Hini). rewrite Hv. simpl. rewrite Hini. simpl.
      destruct (Hvs _ _ Hv) as ([c Hc] & Hpt & _).
      specialize (Hpt Hini). unfold prolongation_time in Hpt.
      destruct (Vessel.prolongation v) as [pr|]; simplify_eq/=.
      destruct (Trajectory_last pr) as [s|] eqn:Hs; simplify_eq/=.
      rewrite Hc. simpl.
      destruct (Hlast _ _ Hc) as (cpr & cs & -> & Hcs'). simpl.
      rewrite Hcs'. by eexists.
  - intros i. unfold CelestialFromParent. rewrite Hi. simpl. split.
    + intros [r Hr]. bind_inv Hr as c Hc. check_inv Hr as Hpar.
      by exists c.
    + intros (c & Hc & Hpar). rewrite Hc. simpl. rewrite Hpar. simpl.
      destruct (Hlast _ _ Hc) as (pr & s & -> & Hs). simpl.
      rewrite Hs. simpl.
      destruct (Hcs _ _ Hc) as (_ & _ & Hparent).
      unfold Celestial.has_parent in Hpar.
      apply bool_decide_eq_true in Hpar as [j Hj].
      unfold Celestial.parent in *. rewrite Hj. simpl.
      destruct (Hparent j Hj) as [cj Hcj]. rewrite Hcj. simpl.
      destruct (Hlast _ _ Hcj) as (prj & sj & -> & Hsj). simpl.
      rewrite Hsj. by eexists.
Qed.

(** X10.  [AdvanceTime] neither adds nor removes a celestial and changes
    neither the body nor the parent of one; the vessels it returns were
    vessels flagged to be kept, and each has the parent it had. *)
Theorem AdvanceTime_keeps_hierarchy t planetarium_rotation p q :
  AdvanceTime t planetarium_rotation p = Some q →
  (∀ i, is_Some (celestials_ q !! i) ↔ is_Some (celestials_ p !! i)) ∧
  (∀ i c c', celestials_ p !! i = Some c → celestials_ q !! i = Some c' →
             Celestial.body_ c' = Celestial.body_ c ∧
             Celestial.parent c' = Celestial.parent c) ∧
  (∀ g v', vessels_ q !! g = Some v' →
           ∃ v, vessels_ p !! g = Some v ∧ g ∈ kept_vessels_ p ∧
                Vessel.parent v' = Vessel.parent v) ∧
  sun_ q = sun_ p.
Proof.
  intros HA.
  destruct (AdvanceTime_cases _ _ _ _ HA)
    as (p1 & bubble & h & H1 & _ & _ & _ & _ & _ & Hsun & _ & _ & Hnone
        & Hcnone & Hcase).
  assert ((∀ i c, celestials_ p !! i = Some c →
             ∃ c', celestials_ q !! i = Some c' ∧
                   Celestial.body_ c' = Celestial.body_ c ∧
                   Celestial.parent_ c' = Celestial.parent_ c) ∧
          (∀ g v, vessels_ p1 !! g = Some v →
             ∃ v', vessels_ q !! g = Some v' ∧
                   Vessel.parent_ v' = Vessel.parent_ v)) as [Hcs Hvs].
  { case_bool_decide.
    - destruct Hcase as (p3 & h' & _ & _ & _ & _ & _ & _ & _ & _ & _ & Hvq
                         & Hcq).
      split.
      + intros i c Hc. destruct (Hcq _ _ Hc) as (c' & Hc' & Hstepped).
        destruct (celestial_stepped_facts _ _ _ _ Hstepped) as (? & ? & _).
        by exists c'.
      + intros g v Hv. destruct (Hvq _ _ Hv) as (v' & d & Hv' & Hstepped & _).
        destruct (vessel_stepped_facts _ _ _ _ _ Hstepped) as (? & _).
        by exists v'.
    - destruct Hcase as (_ & _ & _ & Hvq & Hcq).
      split.
      + intros i c Hc. destruct (Hcq _ _ Hc) as (c' & Hc' & Hprolonged).
        destruct (celestial_prolonged_facts _ _ _ Hprolonged)
          as (? & ? & _).
        by exists c'.
      + intros g v Hv. destruct (Hvq _ _ Hv) as (v' & Hv' & Hprolonged).
        destruct (vessel_prolonged_facts _ _ _ Hprolonged) as (? & _).
        by exists v'. }
  split; [|split; [|split; [|done]]].
  - intros i. split.
    + intros [c' Hc'].
      destruct (celestials_ p !! i) as [c|] eqn:Hc; [by eexists|].
      by rewrite Hcnone in Hc'.
    + intros [c Hc]. destruct (Hcs _ _ Hc) as (c' & Hc' & _). by eexists.
  - intros i c c' Hc Hc'. destruct (Hcs _ _ Hc) as (c'' & Hc'' & ? & ?).
    rewrite Hc' in Hc''. injection Hc'' as <-. done.
  - intros g v' Hv'.
    destruct (AdvanceTime_vessel_origin _ _ _ _ _ H1 Hnone Hv')
      as (v & Hv1 & Hv & Hkept).
    destruct (Hvs _ _ Hv1) as (v'' & Hv'' & Hpar).
    rewrite Hv' in Hv''. injection Hv'' as <-. by exists v.
Qed.

End WithNumerics.

(** ** Persistence *)

(** X8.  For a message whose sun index is the index of one of its
    celestials, a plugin that [ReadFromMessage] returns is not
    initializing, has the current time, the planetarium rotation and the
    sun of the message, flags no vessel as kept, and its unsynchronized
    vessels are exactly its vessels that are not synchronized.  (The
    constructor looks the sun up without a check: nothing is said of a
    message whose sun index names no celestial.) *)
Theorem ReadFromMessage_restores message p :
  serialization.sun_index message
    ∈ serialization.index <$> serialization.celestials message →
  ReadFromMessage message = Some p →
  initializing_ p = false ∧
  current_time p = serialization.current_time message ∧
  planetarium_rotation_ p = serialization.planetarium_rotation message ∧
  sun_ p = serialization.sun_index message ∧
  kept_vessels_ p = ∅ ∧
  ∀ g, g ∈ unsynchronized_vessels_ p ↔
       ∃ v, vessels_ p !! g = Some v ∧ Vessel.is_synchronized v = false.
Proof.
  unfold ReadFromMessage. intros _ HR.
  bind_inv HR as celestials Hcelestials.
  bind_inv HR as vessels_dirty Hvessels. bind_inv HR as bubble Hbubble.
  unfold Plugin_restore in HR. bind_inv HR as sun Hsun.
  injection HR as <-. simpl.
  split; [done|]. split; [done|]. split; [done|]. split; [done|].
  split; [done|].
  intros g. rewrite Plugin_restore_unsynchronized. split.
  - intros [?%elem_of_empty|(v & Hin & Hsy)]; [done|].
    exists v. by rewrite <- elem_of_map_to_list.
  - intros (v & Hv & Hsy). right. exists v. by rewrite elem_of_map_to_list.
Qed.

Lemma mapM_ext_elem_of {A B} (f g : A → option B) (l : list A) :
  (∀ x, x ∈ l → f x = g x) → mapM f l = mapM g l.
Proof.
  induction l as [|a l IH]; [done|]. intros Hfg. simpl.
  rewrite (Hfg a) by left. destruct (g a); [|done]. simpl.
  rewrite IH; [done|]. intros x Hx. apply Hfg. by right.
Qed.

(** [WriteToMessage] reads of the sets of vessels only whether the
    vessels of the plugin are dirty. *)
Lemma WriteToMessage_ext p unsynchronized dirty kept :
  (∀ g, is_Some (vessels_ p !! g) →
        (g ∈ dirty ↔ g ∈ dirty_vessels_ p)) →
  WriteToMessage
    (mkPlugin (vessels_ p) (celestials_ p) unsynchronized dirty kept
              (bubble_ p) (initializing_ p) (planetarium_rotation_ p)
              (current_time_ p) (sun_ p))
  = WriteToMessage p.
Proof.
  intros Hdirty. unfold WriteToMessage. simpl.
  destruct (initializing_ p); [done|]. simpl.
  destruct (mapM _ (map_to_list (celestials_ p))) as [celestials|]; [|done].
  simpl.
  erewrite mapM_ext_elem_of; [done|].
  intros [g v] Hgv. simpl. apply elem_of_map_to_list in Hgv.
  unfold is_dirty. simpl.
  by rewrite (bool_decide_ext (g ∈ dirty) (g ∈ dirty_vessels_ p))
    by (by apply Hdirty; eexists).
Qed.

(** X9.  The plugin read from the message a plugin has written writes
    that message again. *)
Theorem WriteToMessage_ReadFromMessage p message :
  WriteToMessage p = Some message →
  ∃ p', ReadFromMessage message = Some p' ∧
        WriteToMessage p' = Some message.
Proof.
  intros HW.
  destruct (ReadFromMessage_WriteToMessage _ _ HW)
    as (unsynchronized & dirty & HR & _ & Hdirty).
  eexists. split; [exact HR|].
  destruct (WriteToMessage_Some _ _ HW) as (Hi & _).
  rewrite <- HW, <- Hi. apply WriteToMessage_ext.
  intros g Hg. rewrite Hdirty. tauto.
Qed.

(** ** The hierarchy of the celestials *)

(** X11.  [UpdateCelestialHierarchy] returns if, and only if,
    initialization has ended and both celestials are known.  It gives the
    celestial its new parent, from which [CelestialFromParent] then
    measures, and changes nothing else: the body and the trajectories of
    the celestial, the other celestials, the vessels. *)
Theorem UpdateCelestialHierarchy_sets_parent
    celestial_index parent_index p :
  (is_Some (UpdateCelestialHierarchy celestial_index parent_index p) ↔
   initializing_ p = false ∧
   is_Some (celestials_ p !! celestial_index) ∧
   is_Some (celestials_ p !! parent_index)) ∧
  ∀ p', UpdateCelestialHierarchy celestial_index parent_index p = Some p' →
    (∃ celestial celestial',
       celestials_ p !! celestial_index = Some celestial ∧
       celestials_ p' !! celestial_index = Some celestial' ∧
       Celestial.parent celestial' = Some parent_index ∧
       Celestial.body_ celestial' = Celestial.body_ celestial ∧
       Celestial.history celestial' = Celestial.history celestial ∧
       Celestial.prolongation celestial'
         = Celestial.prolongation celestial) ∧
    (∀ index, index ≠ celestial_index →
              celestials_ p' !! index = celestials_ p !! index) ∧
    vessels_ p' = vessels_ p ∧ HistoryTime p' = HistoryTime p ∧
    current_time p' = current_time p ∧
    (∀ celestial parent prolongation parent_prolongation last parent_last,
       celestials_ p !! celestial_index = Some celestial →
       celestials_ p !! parent_index = Some parent →
       Celestial.prolongation celestial = Some prolongation →
       Celestial.prolongation parent = Some parent_prolongation →
       Trajectory_last prolongation = Some last →
       Trajectory_last parent_prolongation = Some parent_last →
       CelestialFromParent celestial_index p'
         = Some (to_alice_sun p (dof_minus last.2 parent_last.2))).
Proof.
  unfold UpdateCelestialHierarchy. split.
  - destruct (initializing_ p); simpl.
    + split; [by intros [? ?]|by intros [? _]].
    + destruct (celestials_ p !! celestial_index) as [c|]; simpl;
        [|split; [by intros [? ?]|by intros (_ & [? ?] & _)]].
      destruct (celestials_ p !! parent_index) as [parent|]; simpl;
        [|split; [by intros [? ?]|by intros (_ & _ & [? ?])]].
      split; [by eauto|by eexists].
  - intros p' H1. check_inv H1 as Hi. apply negb_true_iff in Hi.
    bind_inv H1 as c Hc. bind_inv H1 as parent Hparent.
    injection H1 as <-. simpl.
    split.
    { exists c, (Celestial.set_parent parent_index c).
      by rewrite lookup_insert_eq. }
    split; [by intros index Hne; rewrite lookup_insert_ne|].
    split; [done|]. split.
    { unfold HistoryTime. simpl.
      destruct (decide (celestial_index = sun_ p)) as [->|Hne].
      - by rewrite lookup_insert_eq, Hc.
      - by rewrite lookup_insert_ne. }
    split; [done|].
    intros c0 parent0 pr ppr last plast [= <-] [= <-] Hpr Hppr Hlast Hplast.
    unfold CelestialFromParent. simpl. rewrite Hi, lookup_insert_eq. simpl.
    assert (Celestial.prolongation (Celestial.set_parent parent_index c)
            = Some pr) as -> by done.
    simpl. rewrite Hlast. simpl.
    destruct (decide (celestial_index = parent_index)) as [->|Hne].
    + rewrite lookup_insert_eq. simpl.
      rewrite Hc in Hparent. injection Hparent as <-.
      assert (Celestial.prolongation (Celestial.set_parent parent_index c)
              = Some ppr) as -> by done.
      simpl. by rewrite Hplast.
    + rewrite lookup_insert_ne by done. rewrite Hparent. simpl.
      rewrite Hppr. simpl. by rewrite Hplast.
Qed.

(** While the plugin is initialized the sun, and the sun only, has no
    parent. *)
Lemma initialization_parents p :
  initialization p →
  ∀ i c, celestials_ p !! i = Some c →
         (Celestial.has_parent c = false ↔ i = sun_ p).
Proof.
  induction 1 as [t i μ θ p Hnew|p i μ j from_parent p' Hinit IH Hinsert].
  - unfold Plugin_new in Hnew.
    rewrite Celestial_CreateHistoryAndForkProlongation_eq in Hnew.
    injection Hnew as <-. intros k c. simpl.
    by intros [<- <-]%lookup_singleton_Some.
  - pose proof (initialization_state _ Hinit) as (_ & _ & _ & _ & _ & Hh).
    apply InsertCelestial_Some in Hinsert
      as (parent & history & last & _ & Hparent & Hnone & _ & _ & ->).
    intros k c. simpl. destruct (decide (i = k)) as [<-|Hne].
    + rewrite lookup_insert_eq. intros [= <-].
      split; [done|]. intros ->.
      unfold HistoryTime in Hh. by rewrite Hnone in Hh.
    + rewrite lookup_insert_ne by done. apply IH.
Qed.

(** X12.  [InsertCelestial] is fatal once initialization has ended, for a
    parent that is not known and for an index that is taken, so that no
    index is given twice; during initialization it returns for a new
    index under a known parent.  While the plugin is being initialized the
    sun is the one celestial without a parent, so that [CelestialFromParent]
    is fatal for the sun on the plugin [EndInitialization] returns (and
    until [UpdateCelestialHierarchy] gives the sun a parent). *)
Theorem InsertCelestial_during_initialization
    celestial_index gravitational_parameter parent_index from_parent p :
  (initializing_ p = false →
   InsertCelestial celestial_index gravitational_parameter parent_index
                   from_parent p = None) ∧
  (celestials_ p !! parent_index = None →
   InsertCelestial celestial_index gravitational_parameter parent_index
                   from_parent p = None) ∧
  (is_Some (celestials_ p !! celestial_index) →
   InsertCelestial celestial_index gravitational_parameter parent_index
                   from_parent p = None) ∧
  (∀ p', InsertCelestial celestial_index gravitational_parameter
                         parent_index from_parent p = Some p' →
         ∀ gravitational_parameter' parent_index' from_parent',
           InsertCelestial celestial_index gravitational_parameter'
                           parent_index' from_parent' p' = None) ∧
  (initialization p →
   (celestials_ p !! celestial_index = None →
    is_Some (celestials_ p !! parent_index) →
    is_Some (InsertCelestial celestial_index gravitational_parameter
                             parent_index from_parent p)) ∧
   (∀ i c, celestials_ p !! i = Some c →
           (Celestial.has_parent c = false ↔ i = sun_ p)) ∧
   CelestialFromParent (sun_ p) (EndInitialization p) = None).
Proof.
  split; [|split; [|split; [|split]]].
  - intros Hi. unfold InsertCelestial. by rewrite Hi.
  - intros Hnone. unfold InsertCelestial. rewrite Hnone.
    by destruct (initializing_ p).
  - intros [c Hc]. unfold InsertCelestial. rewrite Hc.
    destruct (initializing_ p); [|done]. simpl.
    by destruct (celestials_ p !! parent_index).
  - intros p' (parent & history & last & Hi & Hparent & Hnone & _ & _
               & ->)%InsertCelestial_Some μ' j' d'.
    unfold InsertCelestial. simpl. rewrite Hi, lookup_insert_eq. simpl.
    by destruct (<[celestial_index:=_]> (celestials_ p) !! j').
  - intros Hinit. split; [|split].
    + intros Hnone [parent Hparent].
      destruct (initialization_state _ Hinit) as (Hi & _).
      destruct (initialization_prolongations_at_histories _ Hinit _ _ Hparent)
        as (history & prolongation & Hh & _ & [last Hlast] & _).
      unfold InsertCelestial.
      rewrite Hi, Hparent, Hnone. simpl.
      unfold Celestial.history. rewrite Hh. simpl. rewrite Hlast. simpl.
      rewrite Celestial_CreateHistoryAndForkProlongation_eq. by eexists.
    + by apply initialization_parents.
    + unfold CelestialFromParent. simpl.
      destruct (celestials_ p !! sun_ p) as [sun|] eqn:Hsun; [|done]. simpl.
      by rewrite (proj2 (initialization_parents _ Hinit _ _ Hsun) eq_refl).
Qed.

(** ** Vessels in the world of the host *)

(** [Plugin::VesselWorldPosition]: the position of the vessel with GUID
    [vessel_guid] in [World], through the affine map that sends the
    position of its parent to [parent_world_position] and rotates by
    [Rotation<WorldSun, World>::Identity() * PlanetariumRotation()]. *)
Definition VesselWorldPosition (vessel_guid : GUID)
    (parent_world_position : geometry.R3) (p : Plugin)
  : option geometry.R3 :=
  vessel ← find_vessel_by_guid_or_die vessel_guid p;
  CHECK (Vessel.is_initialized vessel);;
  parent ← celestials_ p !! Vessel.parent vessel;
  parent_prolongation ← Celestial.prolongation parent;
  parent_last ← Trajectory_last parent_prolongation;
  let to_world :=
    geometry.mkAffineMap
      (position parent_last.2) parent_world_position
      (geometry.Rotation_compose geometry.Rotation_Identity
                                 (PlanetariumRotation p)) in
  prolongation ← Vessel.prolongation vessel;
  last ← Trajectory_last prolongation;
  Some (geometry.AffineMap_apply to_world (position last.2)).

Lemma Rotation_compose_Identity (r : geometry.Rotation) (v : geometry.R3) :
  geometry.Rotation_apply
    (geometry.Rotation_compose geometry.Rotation_Identity r) v
  = geometry.Rotation_apply r v.
Proof.
  unfold geometry.Rotation_apply, geometry.Rotation_compose. simpl.
  by rewrite Rplus_0_l.
Qed.

(** X13.  Where [VesselFromParent] returns, [VesselWorldPosition] returns
    too, and the vessel is in [World] at the position of its parent
    displaced by what [VesselFromParent] reports, seen through the
    looking glass: the y and z coordinates swapped. *)
Theorem VesselWorldPosition_VesselFromParent
    vessel_guid parent_world_position p from_parent :
  VesselFromParent vessel_guid p = Some from_parent →
  VesselWorldPosition vessel_guid parent_world_position p
    = Some (geometry.add
              (geometry.mkR3 (geometry.x (displacement from_parent))
                             (geometry.z (displacement from_parent))
                             (geometry.y (displacement from_parent)))
              parent_world_position).
Proof.
  unfold VesselFromParent, VesselWorldPosition, find_vessel_by_guid_or_die.
  intros H1. check_inv H1 as Hi. bind_inv H1 as vessel Hvessel.
  check_inv H1 as Hini. bind_inv H1 as prolongation Hpr.
  bind_inv H1 as last Hlast. bind_inv H1 as parent Hparent.
  bind_inv H1 as parent_prolongation Hppr.
  bind_inv H1 as parent_last Hplast. injection H1 as <-.
  simpl. rewrite Hini. simpl. rewrite Hparent. simpl. rewrite Hppr. simpl.
  rewrite Hplast. simpl. rewrite Hpr. simpl. rewrite Hlast. simpl.
  unfold geometry.AffineMap_apply. simpl.
  by rewrite Rotation_compose_Identity.
Qed.

(** ** The physics bubble *)

(** X14.  [AddVesselToNextPhysicsBubble] is fatal for a vessel that is
    not known; when it returns the vessel is dirty, and the vessels, the
    celestials, the sets of unsynchronized and of kept vessels, the time
    and the emptiness of the bubble are what they were. *)
Theorem AddVesselToNextPhysicsBubble_dirty vessel_guid parts p :
  (vessels_ p !! vessel_guid = None →
   AddVesselToNextPhysicsBubble vessel_guid parts p = None) ∧
  ∀ p', AddVesselToNextPhysicsBubble vessel_guid parts p = Some p' →
    is_dirty vessel_guid p' = true ∧ has_dirty_vessels p' = true ∧
    dirty_vessels_ p' = {[vessel_guid]} ∪ dirty_vessels_ p ∧
    vessels_ p' = vessels_ p ∧ celestials_ p' = celestials_ p ∧
    unsynchronized_vessels_ p' = unsynchronized_vessels_ p ∧
    kept_vessels_ p' = kept_vessels_ p ∧
    current_time p' = current_time p ∧
    PhysicsBubbleIsEmpty p' = PhysicsBubbleIsEmpty p.
Proof.
  unfold AddVesselToNextPhysicsBubble, find_vessel_by_guid_or_die. split.
  - by intros ->.
  - intros p' H1. bind_inv H1 as v Hv. bind_inv H1 as b Hb.
    injection H1 as <-.
    unfold PhysicsBubble.AddVesselToNext in Hb. check_inv Hb as Hfresh.
    injection Hb as <-.
    unfold is_dirty, has_dirty_vessels. simpl.
    split; [apply bool_decide_eq_true; set_solver|].
    split; [|done].
    apply negb_true_iff, bool_decide_eq_false. set_solver.
Qed.

(** ** Keeping a vessel *)

(** X15.  [InsertOrKeepVessel] returns if, and only if, initialization has
    ended and the parent is known, and calling it again with the same
    arguments changes nothing and returns false. *)
Theorem InsertOrKeepVessel_again vessel_guid parent_index p :
  (is_Some (InsertOrKeepVessel vessel_guid parent_index p) ↔
   initializing_ p = false ∧ is_Some (celestials_ p !! parent_index)) ∧
  ∀ inserted p',
    InsertOrKeepVessel vessel_guid parent_index p = Some (inserted, p') →
    InsertOrKeepVessel vessel_guid parent_index p' = Some (false, p').
Proof.
  unfold InsertOrKeepVessel. split.
  - destruct (initializing_ p); simpl.
    + split; [by intros [? ?]|by intros [? _]].
    + destruct (celestials_ p !! parent_index) as [parent|]; simpl.
      * split; [by eauto|by eexists].
      * split; [by intros [? ?]|by intros (_ & [? ?])].
  - intros inserted p' H1. check_inv H1 as Hi.
    bind_inv H1 as parent Hparent. injection H1 as _ <-. simpl.
    rewrite Hi, Hparent. simpl. rewrite lookup_insert_eq. simpl.
    rewrite insert_insert_eq.
    assert ({[vessel_guid]} ∪ ({[vessel_guid]} ∪ kept_vessels_ p)
            = {[vessel_guid]} ∪ kept_vessels_ p) as -> by set_solver.
    done.
Qed.

(** * The solar system of the tests
    ([testing_utilities/solar_system_body.hpp]) *)

Module SolarSystem.

(** The bodies [SolarSystem::parent] and [SolarSystem::name] know, by
    the names of their indices, whose values [solar_system.hpp], which
    is not part of the sources, gives.  The two functions take an [int]
    and are fatal for one that is the index of no body: what is said
    below is said of the bodies. *)
Inductive Index : Type :=
  | kSun | kJupiter | kSaturn | kNeptune | kUranus | kEarth | kVenus
  | kMars | kMercury | kGanymede | kTitan | kCallisto | kIo | kMoon
  | kEuropa | kTriton | kEris | kPluto | kTitania | kOberon | kRhea
  | kIapetus | kCharon | kAriel | kUmbriel | kDione | kTethys.

(** [SolarSystem::parent]; fatal for the Sun, which has no parent. *)
Definition parent (index : Index) : option Index :=
  match index with
  | kSun => None
  | kJupiter | kSaturn | kNeptune | kUranus | kEarth | kVenus | kMars
  | kMercury | kEris | kPluto => Some kSun
  | kGanymede | kCallisto | kIo | kEuropa => Some kJupiter
  | kTitan | kRhea | kIapetus | kDione | kTethys => Some kSaturn
  | kMoon => Some kEarth
  | kTriton => Some kNeptune
  | kTitania | kOberon | kAriel | kUmbriel => Some kUranus
  | kCharon => Some kPluto
  end.

(** [SolarSystem::name]: [BODY_NAME(name)] is
    [case k##name: return #name]. *)
Definition name (index : Index) : string :=
  match index with
  | kSun => "Sun" | kJupiter => "Jupiter" | kSaturn => "Saturn"
  | kNeptune => "Neptune" | kUranus => "Uranus" | kEarth => "Earth"
  | kVenus => "Venus" | kMars => "Mars" | kMercury => "Mercury"
  | kGanymede => "Ganymede" | kTitan => "Titan" | kCallisto => "Callisto"
  | kIo => "Io" | kMoon => "Moon" | kEuropa => "Europa"
  | kTriton => "Triton" | kEris => "Eris" | kPluto => "Pluto"
  | kTitania => "Titania" | kOberon => "Oberon" | kRhea => "Rhea"
  | kIapetus => "Iapetus" | kCharon => "Charon" | kAriel => "Ariel"
  | kUmbriel => "Umbriel" | kDione => "Dione" | kTethys => "Tethys"
  end.

End SolarSystem.

(** X16.  Of the bodies of the solar system, [SolarSystem::parent] is
    fatal for the Sun and returns for every other one a body that is not
    that body and that is the Sun or has the Sun as its parent: the
    bodies form a tree of depth two rooted at the Sun. *)
Theorem SolarSystem_parent_hierarchy (index : SolarSystem.Index) :
  SolarSystem.parent SolarSystem.kSun = None ∧
  (index ≠ SolarSystem.kSun →
   ∃ parent,
     SolarSystem.parent index = Some parent ∧ parent ≠ index ∧
     (parent = SolarSystem.kSun ∨
      SolarSystem.parent parent = Some SolarSystem.kSun)).
Proof.
  split; [done|]. intros Hne.
  destruct index; try done; simpl; eexists; (split; [done|]);
    (split; [done|]); by eauto.
Qed.

(** X17.  [SolarSystem::name] gives different names to different
    bodies. *)
Theorem SolarSystem_name_inj (index index' : SolarSystem.Index) :
  SolarSystem.name index = SolarSystem.name index' → index = index'.
Proof. destruct index, index'; simpl; intros Hname; by simplify_eq. Qed.

(** * Examples *)

(** The numerical side of the examples: bodies in free motion, the time
    elapsed being counted in whole seconds, and a bubble whose centre of
    mass is at rest at the origin, every vessel being at the centre of
    mass. *)
#[local] Instance free_motion : physics.Numerics :=
  {| flow initial t0 t Δt i :=
       match initial !! i with
       | Some (_, d) =>
           let elapsed := IZR ((t - t0) / Second) in
           mkDegreesOfFreedom
             (geometry.add (position d)
                (geometry.mkR3 (geometry.x (velocity d) * elapsed)
                               (geometry.y (velocity d) * elapsed)
                               (geometry.z (velocity d) * elapsed)))
             (velocity d)
       | None => mkDegreesOfFreedom geometry.zero geometry.zero
       end |}.

#[local] Instance bubble_at_origin : PhysicsBubble.Numerics :=
  {| PhysicsBubble.next_centre_of_mass _ _ _ _ _ _ :=
       mkDegreesOfFreedom geometry.zero geometry.zero;
     PhysicsBubble.next_from_centre_of_mass _ _ _ _ _ _ _ :=
       mkRelativeDegreesOfFreedom geometry.zero geometry.zero |}.

Definition offset : RelativeDegreesOfFreedom :=
  mkRelativeDegreesOfFreedom (geometry.mkR3 1 2 3) (geometry.mkR3 4 5 6).


(** [std::cos] and [std::sin] at angles so small that the binary64 numbers
    nearest to the cosine and to the sine are 1 and the angle, as they are
    at the angle 0 of the example. *)
#[local] Instance small_angles : rounded.Libm :=
  {| rounded.cos _ := 1%float; rounded.sin θ := θ |}.



(** The sun alone, at time 0. *)
Definition sun_alone : option Plugin := session 0 0 1 0 [].

(** The sun and a vessel that has not been given its state. *)
Definition vessel_without_state : option Plugin :=
  session 0 0 1 0 [call_InsertOrKeepVessel "v" 0].

(** The sun and a vessel that has been given its state, at time 0. *)
Definition with_vessel : option Plugin :=
  session 0 0 1 0
    [call_InsertOrKeepVessel "v" 0; call_SetVesselStateOffset "v" offset].

(** The same after a history step, at time 25 s: the vessel is
    synchronized. *)
Definition synchronized_vessel : option Plugin :=
  session 0 0 1 0
    [call_InsertOrKeepVessel "v" 0; call_SetVesselStateOffset "v" offset;
     call_AdvanceTime (25 * Second) 0].

(** The same after three history steps, the vessel being kept. *)
Definition three_steps : option Plugin :=
  session 0 0 1 0
    [call_InsertOrKeepVessel "v" 0; call_SetVesselStateOffset "v" offset;
     call_AdvanceTime (25 * Second) 0; call_InsertOrKeepVessel "v" 0;
     call_AdvanceTime (45 * Second) 0; call_InsertOrKeepVessel "v" 0;
     call_AdvanceTime (65 * Second) 0].

(** A new vessel that is to be in the bubble. *)
Definition vessel_in_next_bubble : option Plugin :=
  session 0 0 1 0
    [call_InsertOrKeepVessel "v" 0; call_SetVesselStateOffset "v" offset;
     call_AddVesselToNextPhysicsBubble "v" []].

(** A synchronized vessel, at time 15 s with its history at 10 s, that is
    to be in the bubble. *)
Definition synchronized_vessel_in_next_bubble : option Plugin :=
  session 0 0 1 0
    [call_InsertOrKeepVessel "v" 0; call_SetVesselStateOffset "v" offset;
     call_AdvanceTime (15 * Second) 0; call_InsertOrKeepVessel "v" 0;
     call_AddVesselToNextPhysicsBubble "v" []].

(** Two vessels at time 7 s, of which one only is kept. *)
Definition two_vessels_one_kept : option Plugin :=
  session 0 0 1 0
    [call_InsertOrKeepVessel "v" 0; call_SetVesselStateOffset "v" offset;
     call_InsertOrKeepVessel "w" 0; call_SetVesselStateOffset "w" offset;
     call_AdvanceTime (7 * Second) 0; call_InsertOrKeepVessel "v" 0].

Definition identity_transforms : Transforms :=
  mkTransforms (λ _ d, d) (λ _ d, d).

Ltac evaluated := vm_compute; reflexivity.
Ltac decided := apply (bool_decide_unpack _); vm_compute; exact I.

(** A history step: from the sun and a vessel at time 0 to time 25 s, the
    histories advance. *)
Lemma AdvanceTime_advances_histories_witness :
  ∃ p q,
    with_vessel = Some p ∧ AdvanceTime (25 * Second) 0 p = Some q ∧
    HistoryTime p = Some 0 ∧
    ∃ h', HistoryTime q = Some h' ∧
          (0 < h' ↔ Instant_plus 0 Δt_ < 25 * Second).
Proof.
  evar (p : Plugin). evar (q : Plugin). exists p, q.
  assert (Hp : with_vessel = Some p) by (subst p; evaluated).
  assert (Hq : AdvanceTime (25 * Second) 0 p = Some q) by (subst p q; evaluated).
  assert (Hh : HistoryTime p = Some 0) by evaluated.
  destruct (AdvanceTime_advances_histories _ _ _ _ _ Hq Hh)
    as (h' & Hh' & Hiff & _).
  split; [exact Hp|]. split; [exact Hq|]. split; [exact Hh|].
  exists h'. split; [exact Hh'|exact Hiff].
Defined.

(** To time 10 s, which is [HistoryTime() + Δt], from the sun alone at
    time 0: [AdvanceTime] returns and the histories have not advanced. *)
Lemma AdvanceTime_no_step_at_boundary :
  ∃ p q,
    sun_alone = Some p ∧ initializing_ p = false ∧
    current_time_ p < 10 * Second ∧
    HistoryTime p = Some 0 ∧ Instant_plus 0 Δt_ ≤ 10 * Second ∧
    AdvanceTime (10 * Second) 0 p = Some q ∧ HistoryTime q = Some 0 ∧
    (Celestial.history <$> celestials_ q !! 0)
      = (Celestial.history <$> celestials_ p !! 0).
Proof.
  evar (p : Plugin). evar (q : Plugin). exists p, q.
  assert (Hp : sun_alone = Some p) by (subst p; evaluated).
  assert (Hq : AdvanceTime (10 * Second) 0 p = Some q) by (subst p q; evaluated).
  split; [exact Hp|]. split; [evaluated|]. split; [by vm_compute|].
  split; [evaluated|]. split; [by vm_compute|]. split; [exact Hq|].
  split; evaluated.
Defined.

(** Where the sum [HistoryTime() + Δt] is rounded up to [t]: at 10^17 s,
    where consecutive [double]s are 16 s apart, [AdvanceTime] to the next
    [double] performs no history step although it is more than [Δt]
    away. *)
Example AdvanceTime_no_step_where_rounded :
  ∃ p q,
    session (of_double 0x1.6345785d8ap+56) 0 1 0 [] = Some p ∧
    HistoryTime p = Some (of_double 0x1.6345785d8ap+56) ∧
    of_double 0x1.6345785d8a001p+56
      = of_double 0x1.6345785d8ap+56 + 16 * Second ∧
    Instant_plus (of_double 0x1.6345785d8ap+56) Δt_
      = of_double 0x1.6345785d8a001p+56 ∧
    AdvanceTime (of_double 0x1.6345785d8a001p+56) 0 p = Some q ∧
    HistoryTime q = Some (of_double 0x1.6345785d8ap+56).
Proof.
  evar (p : Plugin). evar (q : Plugin). exists p, q.
  assert (Hp : session (of_double 0x1.6345785d8ap+56) 0 1 0 [] = Some p)
    by (subst p; evaluated).
  assert (Hq : AdvanceTime (of_double 0x1.6345785d8a001p+56) 0 p = Some q)
    by (subst p q; evaluated).
  split; [exact Hp|]. split; [evaluated|]. split; [evaluated|].
  split; [evaluated|]. split; [exact Hq|evaluated].
Qed.

(** After a history step no vessel is flagged: what is read from the
    message written is the plugin itself. *)
Lemma ReadFromMessage_WriteToMessage_reachable_witness :
  ∃ p message,
    synchronized_vessel = Some p ∧ reachable p ∧
    WriteToMessage p = Some message ∧ kept_vessels_ p = ∅ ∧
    ReadFromMessage message = Some p.
Proof.
  evar (p : Plugin). evar (message : serialization.Plugin).
  exists p, message.
  assert (Hp : synchronized_vessel = Some p) by (subst p; evaluated).
  assert (Hr : reachable p) by exact (reachable_session _ _ _ _ _ _ Hp).
  assert (Hm : WriteToMessage p = Some message)
    by (subst p message; evaluated).
  assert (Hk : kept_vessels_ p = ∅) by evaluated.
  split; [exact Hp|]. split; [exact Hr|]. split; [exact Hm|].
  split; [exact Hk|].
  exact (proj2 (ReadFromMessage_WriteToMessage_reachable p message Hr Hm) Hk).
Defined.

(** A vessel that is flagged to be kept when the plugin is written is not
    flagged in the plugin read: the next [AdvanceTime] keeps the vessel of
    the original, which then reports it, and removes that of the copy,
    which no longer knows it. *)
Lemma ReadFromMessage_forgets_kept_vessels :
  ∃ p message p' q q' from_parent,
    with_vessel = Some p ∧ initializing_ p = false ∧
    WriteToMessage p = Some message ∧ ReadFromMessage message = Some p' ∧
    AdvanceTime (7 * Second) 0 p = Some q ∧ AdvanceTime (7 * Second) 0 p' = Some q' ∧
    VesselFromParent "v" q = Some from_parent ∧
    VesselFromParent "v" q' = None ∧ vessels_ q' !! "v" = None.
Proof.
  evar (p : Plugin). evar (message : serialization.Plugin).
  evar (p' : Plugin). evar (q : Plugin). evar (q' : Plugin).
  evar (from_parent : RelativeDegreesOfFreedom).
  exists p, message, p', q, q', from_parent.
  assert (Hp : with_vessel = Some p) by (subst p; evaluated).
  assert (Hm : WriteToMessage p = Some message)
    by (subst p message; evaluated).
  assert (Hp' : ReadFromMessage message = Some p')
    by (subst message p'; evaluated).
  assert (Hq : AdvanceTime (7 * Second) 0 p = Some q) by (subst p q; evaluated).
  assert (Hq' : AdvanceTime (7 * Second) 0 p' = Some q') by (subst p' q'; evaluated).
  assert (Hf : VesselFromParent "v" q = Some from_parent)
    by (subst q from_parent; evaluated).
  split; [exact Hp|]. split; [evaluated|]. split; [exact Hm|].
  split; [exact Hp'|]. split; [exact Hq|]. split; [exact Hq'|].
  split; [exact Hf|]. split; evaluated.
Defined.

(** The vessel of a plugin after a history step. *)
Lemma reachable_vessel_invariants_witness :
  ∃ p v,
    synchronized_vessel = Some p ∧ reachable p ∧
    vessels_ p !! "v" = Some v ∧ Vessel.is_initialized v = true ∧
    initializing_ p = false ∧
    ∃ prolongation last history_time,
      Vessel.prolongation v = Some prolongation ∧
      Trajectory_last prolongation = Some last ∧
      HistoryTime p = Some history_time ∧ history_time ≤ last.1 ∧
      ("v" ∈ unsynchronized_vessels_ p ↔ Vessel.history v = None).
Proof.
  evar (p : Plugin). evar (v : Vessel.t). exists p, v.
  assert (Hp : synchronized_vessel = Some p) by (subst p; evaluated).
  assert (Hr : reachable p) by exact (reachable_session _ _ _ _ _ _ Hp).
  assert (Hv : vessels_ p !! "v" = Some v) by (subst p v; evaluated).
  assert (Hi : Vessel.is_initialized v = true) by evaluated.
  destruct (reachable_vessel_invariants p "v" v Hr Hv Hi)
    as (Hini & prolongation & last & history_time & sun & sun_history
        & sun_last & Hpr & Hlast & Hh & _ & _ & _ & _ & Hle & Hiff & _).
  split; [exact Hp|]. split; [exact Hr|]. split; [exact Hv|].
  split; [exact Hi|]. split; [exact Hini|].
  exists prolongation, last, history_time.
  split; [exact Hpr|]. split; [exact Hlast|]. split; [exact Hh|].
  split; [exact Hle|exact Hiff].
Defined.

(** A vessel in the bubble: after [AdvanceTime] to 7 s its prolongation
    ends at 7 s. *)
Lemma AdvanceTime_prolongations_end_at_current_time_witness :
  ∃ p q v,
    vessel_in_next_bubble = Some p ∧ AdvanceTime (7 * Second) 0 p = Some q ∧
    vessels_ q !! "v" = Some v ∧
    PhysicsBubble.contains "v" (bubble_ q) = true ∧
    current_time q = 7 * Second ∧ prolongation_time v = Some (7 * Second).
Proof.
  evar (p : Plugin). evar (q : Plugin). evar (v : Vessel.t). exists p, q, v.
  assert (Hp : vessel_in_next_bubble = Some p) by (subst p; evaluated).
  assert (Hq : AdvanceTime (7 * Second) 0 p = Some q) by (subst p q; evaluated).
  assert (Hv : vessels_ q !! "v" = Some v) by (subst q v; evaluated).
  destruct (AdvanceTime_prolongations_end_at_current_time _ _ _ _ Hq)
    as (Hc & Hvs & _).
  split; [exact Hp|]. split; [exact Hq|]. split; [exact Hv|].
  split; [evaluated|]. split; [exact Hc|exact (Hvs "v" v Hv)].
Defined.

(** A history step with an unsynchronized vessel. *)
Lemma AdvanceTime_synchronizes_witness :
  ∃ p q,
    with_vessel = Some p ∧ AdvanceTime (25 * Second) 0 p = Some q ∧
    HistoryTime p = Some 0 ∧ Instant_plus 0 Δt_ < 25 * Second ∧
    "v" ∈ unsynchronized_vessels_ p ∧
    unsynchronized_vessels_ q = ∅ ∧ dirty_vessels_ q = ∅.
Proof.
  evar (p : Plugin). evar (q : Plugin). exists p, q.
  assert (Hp : with_vessel = Some p) by (subst p; evaluated).
  assert (Hq : AdvanceTime (25 * Second) 0 p = Some q) by (subst p q; evaluated).
  assert (Hh : HistoryTime p = Some 0) by evaluated.
  assert (Hlt : Instant_plus 0 Δt_ < 25 * Second) by (by vm_compute).
  destruct (AdvanceTime_synchronizes _ _ _ _ _ Hq Hh Hlt) as (Hu & Hd & _).
  split; [exact Hp|]. split; [exact Hq|]. split; [exact Hh|].
  split; [exact Hlt|]. split; [decided|]. split; [exact Hu|exact Hd].
Defined.

(** A dirty synchronized vessel of the bubble, at time 15 s with its
    history at 10 s: [AdvanceTime] to 25 s performs a history step to
    20 s.  The point its history receives is at 20 s, that of the centre of
    mass of the bubble; the last point of its prolongation is at 15 s,
    before the call and in the state the integration of the
    synchronization reaches. *)
Lemma AdvanceTime_bubble_vessel_history_is_not_prolongation_tail :
  ∃ p q v prolongation tail p1 bubble p3 qI vI v' history' appended
    trajectory centre_of_mass from_centre_of_mass,
    synchronized_vessel_in_next_bubble = Some p ∧
    "v" ∈ dirty_vessels_ p ∧ vessels_ p !! "v" = Some v ∧
    Vessel.is_synchronized v = true ∧
    Vessel.prolongation v = Some prolongation ∧
    Trajectory_last prolongation = Some tail ∧ tail.1 = 15 * Second ∧
    HistoryTime p = Some (10 * Second) ∧
    AdvanceTime (25 * Second) 0 p = Some q ∧
    HistoryTime q = Some (20 * Second) ∧
    CleanUpVessels p = Some p1 ∧
    PhysicsBubble.Prepare (vessels_ p1) (PlanetariumRotation p1)
                          (current_time_ p1) (25 * Second) (bubble_ p1)
      = Some bubble ∧
    EvolveHistories (25 * Second) (set_bubble bubble p1) = Some p3 ∧
    Integrate (20 * Second) Δt_ 0 true (synchronization_refs p3) p3
      = Some qI ∧
    vessels_ qI !! "v" = Some vI ∧
    prolongation_time vI = Some (15 * Second) ∧
    PhysicsBubble.centre_of_mass_trajectory (bubble_ qI) = Some trajectory ∧
    Trajectory_last trajectory = Some centre_of_mass ∧
    PhysicsBubble.from_centre_of_mass "v" (bubble_ qI)
      = Some from_centre_of_mass ∧
    vessels_ q !! "v" = Some v' ∧
    Vessel.history v' = Some history' ∧
    Trajectory_last history' = Some appended ∧
    appended = (20 * Second, dof_plus centre_of_mass.2 from_centre_of_mass).
Proof.
  evar (p : Plugin). evar (q : Plugin). evar (v : Vessel.t).
  evar (prolongation : Trajectory). evar (tail : (Instant * DegreesOfFreedom)%type).
  evar (p1 : Plugin). evar (bubble : PhysicsBubble.t). evar (p3 : Plugin).
  evar (qI : Plugin). evar (vI : Vessel.t). evar (v' : Vessel.t).
  evar (history' : Trajectory). evar (appended : (Instant * DegreesOfFreedom)%type).
  evar (trajectory : Trajectory).
  evar (centre_of_mass : (Instant * DegreesOfFreedom)%type).
  evar (from_centre_of_mass : RelativeDegreesOfFreedom).
  exists p, q, v, prolongation, tail, p1, bubble, p3, qI, vI, v', history',
    appended, trajectory, centre_of_mass, from_centre_of_mass.
  assert (Hp : synchronized_vessel_in_next_bubble = Some p)
    by (subst p; evaluated).
  assert (Hv : vessels_ p !! "v" = Some v) by (subst p v; evaluated).
  assert (Hpr : Vessel.prolongation v = Some prolongation)
    by (subst v prolongation; evaluated).
  assert (Htail : Trajectory_last prolongation = Some tail)
    by (subst prolongation tail; evaluated).
  assert (Hq : AdvanceTime (25 * Second) 0 p = Some q) by (subst p q; evaluated).
  assert (H1 : CleanUpVessels p = Some p1) by (subst p p1; evaluated).
  assert (HP : PhysicsBubble.Prepare (vessels_ p1) (PlanetariumRotation p1)
                 (current_time_ p1) (25 * Second) (bubble_ p1) = Some bubble)
    by (subst p1 bubble; evaluated).
  assert (H3 : EvolveHistories (25 * Second) (set_bubble bubble p1)
               = Some p3)
    by (subst p1 bubble p3; evaluated).
  assert (HI : Integrate (20 * Second) Δt_ 0 true (synchronization_refs p3)
                 p3 = Some qI) by (subst p3 qI; evaluated).
  assert (HvI : vessels_ qI !! "v" = Some vI) by (subst qI vI; evaluated).
  assert (Ht : PhysicsBubble.centre_of_mass_trajectory (bubble_ qI)
               = Some trajectory) by (subst qI trajectory; evaluated).
  assert (Hc : Trajectory_last trajectory = Some centre_of_mass)
    by (subst trajectory centre_of_mass; evaluated).
  assert (Hf : PhysicsBubble.from_centre_of_mass "v" (bubble_ qI)
               = Some from_centre_of_mass)
    by (subst qI from_centre_of_mass; evaluated).
  assert (Hv' : vessels_ q !! "v" = Some v') by (subst q v'; evaluated).
  assert (Hh' : Vessel.history v' = Some history')
    by (subst v' history'; evaluated).
  assert (Ha : Trajectory_last history' = Some appended)
    by (subst history' appended; evaluated).
  split; [exact Hp|]. split; [decided|]. split; [exact Hv|].
  split; [evaluated|]. split; [exact Hpr|]. split; [exact Htail|].
  split; [evaluated|]. split; [evaluated|]. split; [exact Hq|].
  split; [evaluated|]. split; [exact H1|]. split; [exact HP|].
  split; [exact H3|]. split; [exact HI|]. split; [exact HvI|].
  split; [evaluated|]. split; [exact Ht|]. split; [exact Hc|].
  split; [exact Hf|]. split; [exact Hv'|]. split; [exact Hh'|].
  split; [exact Ha|]. evaluated.
Defined.



(** The trajectory of a vessel whose history has three points is rendered
    as two segments. *)
Lemma RenderedVesselTrajectory_segments_witness :
  ∃ p v history result,
    three_steps = Some p ∧ vessels_ p !! "v" = Some v ∧
    Vessel.history v = Some history ∧
    RenderedVesselTrajectory "v" identity_transforms geometry.zero p
      = Some result ∧
    length result = 2%nat.
Proof.
  evar (p : Plugin). evar (v : Vessel.t). evar (history : Trajectory).
  evar (result : list LineSegment). exists p, v, history, result.
  assert (Hp : three_steps = Some p) by (subst p; evaluated).
  assert (Hv : vessels_ p !! "v" = Some v) by (subst p v; evaluated).
  assert (Hh : Vessel.history v = Some history)
    by (subst v history; evaluated).
  assert (Hr : RenderedVesselTrajectory "v" identity_transforms
                 geometry.zero p = Some result)
    by (subst p result; evaluated).
  destruct (RenderedVesselTrajectory_segments
              p "v" identity_transforms geometry.zero v Hv) as [_ Hs].
  destruct (Hs result Hr) as (_ & _ & Hhistory).
  destruct (Hhistory history Hh) as (Hlen & _).
  split; [exact Hp|]. split; [exact Hv|]. split; [exact Hh|].
  split; [exact Hr|].
  rewrite Hlen. evaluated.
Defined.

(** Of two vessels of which one is kept, [AdvanceTime] removes the
    other. *)
Lemma AdvanceTime_cleans_up_vessels_witness :
  ∃ p q p1,
    two_vessels_one_kept = Some p ∧ AdvanceTime (9 * Second) 0 p = Some q ∧
    CleanUpVessels p = Some p1 ∧
    is_Some (vessels_ p !! "w") ∧ vessels_ p1 !! "w" = None ∧
    vessels_ p1 !! "v" = vessels_ p !! "v" ∧ kept_vessels_ p1 = ∅ ∧
    (is_Some (vessels_ q !! "w") ↔ is_Some (vessels_ p1 !! "w")).
Proof.
  evar (p : Plugin). evar (q : Plugin). exists p, q.
  assert (Hp : two_vessels_one_kept = Some p) by (subst p; evaluated).
  assert (Hq : AdvanceTime (9 * Second) 0 p = Some q) by (subst p q; evaluated).
  destruct (AdvanceTime_cleans_up_vessels _ _ _ _ Hq)
    as (p1 & H1 & Hremoved & Hkept & _ & Hcleared & _ & _ & _ & _ & _ & _
        & _ & _ & Hq1 & _).
  exists p1.
  split; [exact Hp|]. split; [exact Hq|]. split; [exact H1|].
  split; [decided|].
  split; [apply Hremoved; decided|].
  split; [apply Hkept; decided|].
  split; [apply Hcleared; decided|exact (Hq1 "w")].
Defined.



(** A vessel inserted under the sun is kept and has the sun as parent. *)
Lemma InsertOrKeepVessel_keeps_and_sets_parent_witness :
  ∃ p parent p' vessel,
    sun_alone = Some p ∧ celestials_ p !! 0 = Some parent ∧
    InsertOrKeepVessel "v" 0 p = Some (true, p') ∧
    "v" ∈ kept_vessels_ p' ∧
    vessels_ p' !! "v" = Some vessel ∧ Vessel.parent vessel = 0.
Proof.
  evar (p : Plugin). evar (parent : Celestial.t). evar (p' : Plugin).
  assert (Hp : sun_alone = Some p) by (subst p; evaluated).
  assert (Hc : celestials_ p !! 0 = Some parent)
    by (subst p parent; evaluated).
  assert (Hi : InsertOrKeepVessel "v" 0 p = Some (true, p'))
    by (subst p p'; evaluated).
  destruct (InsertOrKeepVessel_keeps_and_sets_parent p "v" 0 parent Hc)
    as [_ Hs].
  destruct (Hs true p' Hi) as (Hk & (vessel & Hv & Hpar & _) & _).
  exists p, parent, p', vessel.
  split; [exact Hp|]. split; [exact Hc|]. split; [exact Hi|].
  split; [exact Hk|]. split; [exact Hv|exact Hpar].
Defined.

(** ** Examples of the further properties *)

Lemma SetVesselStateOffset_unsynchronized_witness :
  ∃ p p' vessel',
    vessel_without_state = Some p ∧
    SetVesselStateOffset "v" offset p = Some p' ∧
    vessels_ p' !! "v" = Some vessel' ∧
    Vessel.is_synchronized vessel' = false ∧
    unsynchronized_vessels_ p' = {["v"]} ∪ unsynchronized_vessels_ p.
Proof.
  evar (p : Plugin). evar (p' : Plugin).
  assert (Hp : vessel_without_state = Some p) by (subst p; evaluated).
  assert (Hp' : SetVesselStateOffset "v" offset p = Some p')
    by (subst p p'; evaluated).
  destruct (SetVesselStateOffset_unsynchronized _ _ _ _ Hp')
    as (vessel & vessel' & d & _ & Hv' & _ & _ & Hsy & _ & _ & Hu & _).
  exists p, p', vessel'.
  split; [exact Hp|]. split; [exact Hp'|]. split; [exact Hv'|].
  split; [exact Hsy|exact Hu].
Defined.

Lemma reachable_histories_and_prolongations_witness :
  ∃ p h,
    synchronized_vessel = Some p ∧ reachable p ∧
    HistoryTime p = Some h ∧ h ≤ current_time p.
Proof.
  evar (p : Plugin).
  assert (Hp : synchronized_vessel = Some p) by (subst p; evaluated).
  assert (Hr : reachable p) by exact (reachable_session _ _ _ _ _ _ Hp).
  destruct (reachable_histories_and_prolongations p Hr)
    as (h & Hh & Hle & _).
  exists p, h. split; [exact Hp|]. split; [exact Hr|].
  split; [exact Hh|exact Hle].
Defined.


Lemma AdvanceTime_twice_removes_vessels_witness :
  ∃ p q q',
    with_vessel = Some p ∧ reachable p ∧
    AdvanceTime (7 * Second) 0 p = Some q ∧ is_Some (vessels_ q !! "v") ∧
    kept_vessels_ q = ∅ ∧
    AdvanceTime (9 * Second) 0 q = Some q' ∧ vessels_ q' = ∅.
Proof.
  evar (p : Plugin). evar (q : Plugin). evar (q' : Plugin). exists p, q, q'.
  assert (Hp : with_vessel = Some p) by (subst p; evaluated).
  assert (Hr : reachable p) by exact (reachable_session _ _ _ _ _ _ Hp).
  assert (Hq : AdvanceTime (7 * Second) 0 p = Some q) by (subst p q; evaluated).
  assert (Hq' : AdvanceTime (9 * Second) 0 q = Some q') by (subst q q'; evaluated).
  destruct (AdvanceTime_twice_removes_vessels _ _ _ _ Hr Hq) as [Hk Hq''].
  split; [exact Hp|]. split; [exact Hr|]. split; [exact Hq|].
  split; [decided|]. split; [exact Hk|]. split; [exact Hq'|].
  exact (Hq'' _ _ _ Hq').
Defined.

Lemma reachable_FromParent_is_Some_witness :
  ∃ p,
    with_vessel = Some p ∧ reachable p ∧
    is_Some (VesselFromParent "v" p) ∧ CelestialFromParent 0 p = None.
Proof.
  evar (p : Plugin). exists p.
  assert (Hp : with_vessel = Some p) by (subst p; evaluated).
  assert (Hr : reachable p) by exact (reachable_session _ _ _ _ _ _ Hp).
  destruct (reachable_FromParent_is_Some p Hr) as [Hv Hc].
  split; [exact Hp|]. split; [exact Hr|]. split.
  - apply Hv. eexists. split; evaluated.
  - evaluated.
Defined.

Lemma ReadFromMessage_restores_witness :
  ∃ p message p',
    with_vessel = Some p ∧ WriteToMessage p = Some message ∧
    serialization.sun_index message
      ∈ serialization.index <$> serialization.celestials message ∧
    ReadFromMessage message = Some p' ∧
    initializing_ p' = false ∧ kept_vessels_ p' = ∅ ∧
    "v" ∈ unsynchronized_vessels_ p'.
Proof.
  evar (p : Plugin). evar (message : serialization.Plugin).
  evar (p' : Plugin). exists p, message, p'.
  assert (Hp : with_vessel = Some p) by (subst p; evaluated).
  assert (Hm : WriteToMessage p = Some message)
    by (subst p message; evaluated).
  assert (Hp' : ReadFromMessage message = Some p')
    by (subst message p'; evaluated).
  assert (Hs : serialization.sun_index message
                 ∈ serialization.index <$> serialization.celestials message)
    by decided.
  destruct (ReadFromMessage_restores _ _ Hs Hp')
    as (Hi & _ & _ & _ & Hk & Hu).
  split; [exact Hp|]. split; [exact Hm|]. split; [exact Hs|].
  split; [exact Hp'|].
  split; [exact Hi|]. split; [exact Hk|].
  apply Hu. eexists. split; evaluated.
Defined.

Lemma WriteToMessage_ReadFromMessage_witness :
  ∃ p message p',
    with_vessel = Some p ∧ WriteToMessage p = Some message ∧
    ReadFromMessage message = Some p' ∧ WriteToMessage p' = Some message.
Proof.
  evar (p : Plugin). evar (message : serialization.Plugin).
  assert (Hp : with_vessel = Some p) by (subst p; evaluated).
  assert (Hm : WriteToMessage p = Some message)
    by (subst p message; evaluated).
  destruct (WriteToMessage_ReadFromMessage _ _ Hm) as (p' & Hp' & Hm').
  exists p, message, p'.
  split; [exact Hp|]. split; [exact Hm|]. split; [exact Hp'|exact Hm'].
Defined.

Lemma AdvanceTime_keeps_hierarchy_witness :
  ∃ p q,
    two_vessels_one_kept = Some p ∧ AdvanceTime (25 * Second) 0 p = Some q ∧
    (is_Some (celestials_ q !! 0) ↔ is_Some (celestials_ p !! 0)) ∧
    sun_ q = sun_ p.
Proof.
  evar (p : Plugin). evar (q : Plugin). exists p, q.
  assert (Hp : two_vessels_one_kept = Some p) by (subst p; evaluated).
  assert (Hq : AdvanceTime (25 * Second) 0 p = Some q) by (subst p q; evaluated).
  destruct (AdvanceTime_keeps_hierarchy _ _ _ _ Hq) as (Hc & _ & _ & Hs).
  split; [exact Hp|]. split; [exact Hq|]. split; [exact (Hc 0)|exact Hs].
Defined.

Lemma VesselWorldPosition_VesselFromParent_witness :
  ∃ p from_parent,
    with_vessel = Some p ∧ VesselFromParent "v" p = Some from_parent ∧
    VesselWorldPosition "v" (geometry.mkR3 10 20 30) p
      = Some (geometry.add
                (geometry.mkR3 (geometry.x (displacement from_parent))
                               (geometry.z (displacement from_parent))
                               (geometry.y (displacement from_parent)))
                (geometry.mkR3 10 20 30)).
Proof.
  evar (p : Plugin). evar (from_parent : RelativeDegreesOfFreedom).
  exists p, from_parent.
  assert (Hp : with_vessel = Some p) by (subst p; evaluated).
  assert (Hv : VesselFromParent "v" p = Some from_parent)
    by (subst p from_parent; evaluated).
  split; [exact Hp|]. split; [exact Hv|].
  exact (VesselWorldPosition_VesselFromParent
           "v" (geometry.mkR3 10 20 30) p from_parent Hv).
Defined.

Lemma SolarSystem_name_inj_witness :
  SolarSystem.name SolarSystem.kMoon = "Moon" ∧
  SolarSystem.kMoon = SolarSystem.kMoon.
Proof.
  split; [reflexivity|].
  apply (SolarSystem_name_inj SolarSystem.kMoon SolarSystem.kMoon).
  reflexivity.
Defined.
